(** * HuffmanCoding: a shallow embedding of [huffman.py]

    The program compresses a text with a prefix code read off a binary
    tree, stores the code table next to the encoded text as JSON, and
    reverses the process.  Every function of [huffman.py] that takes part in
    [compress] and [decompress] is embedded below under its own name.

    Data:
    - a Python [str] is a list of code points ([N]);
    - a string of ['0'] and ['1'] characters (the program's bit strings) is a
      list of booleans, ['1'] being [true];
    - a [bytes] object is a list of [N], each below 256;
    - a [dict] is an association list in insertion order;
    - a raised exception is the left summand of [result].

    What the program calls of Python's library and of [bitstring] is
    modelled after its documented behaviour: slices, [int], [format],
    [int.to_bytes], [list.pop], [dict], [sorted], [str.rstrip],
    [str.encode], [bytes.decode], [BitArray], [os.path.splitext] of
    [posixpath], and [json.dumps] and [json.loads] as CPython's encoder and
    scanner work on the values the program hands them.  Opening, reading
    and writing the files and the menu of [main] are left out: [compress]
    starts from the text read and ends with the bytes written, [decompress]
    starts from the bytes read and ends with the text written; of the files
    only the paths are modelled. *)

From Stdlib Require Import List NArith ZArith Arith Bool Lia Permutation Sorted
  Ascii.
Import ListNotations.
Local Open Scope N_scope.

(** ** Exceptions *)

(** The exception classes the program can raise, each with the only
    places that raise it. *)
Inductive exn : Type :=
| IndexError          (* [list.pop()] on an empty list *)
| KeyError            (* [d[k]] on a missing key *)
| ValueError          (* [int('', 2)] *)
| OverflowError       (* [int.to_bytes]: the integer needs more bytes *)
| UnicodeEncodeError  (* [str.encode('utf-8')] on a surrogate *)
| UnicodeDecodeError  (* [bytes.decode('utf-8')] *)
| JSONDecodeError     (* [json.loads] *)
| RecursionError      (* the model's scanner out of fuel: never raised *)
| TypeError.          (* an operation on a value of the wrong type *)

Definition result (A : Type) : Type := (exn + A)%type.

Definition OK {A} (a : A) : result A := inr a.
Definition Raise {A} (e : exn) : result A := inl e.

Definition bind {A B} (r : result A) (k : A -> result B) : result B :=
  match r with
  | inl e => inl e
  | inr a => k a
  end.

Notation "x <- e ;; k" := (bind e (fun x => k))
  (at level 61, e at next level, right associativity).
Notation "' p <- e ;; k" := (bind e (fun x => let 'p := x in k))
  (at level 61, p pattern, e at next level, right associativity).

(** ** Decidable equality of keys *)

Class Eqb (A : Type) : Type := {
  eqb : A -> A -> bool;
  eqb_eq : forall x y, eqb x y = true <-> x = y
}.

#[export] Instance Eqb_N : Eqb N := {| eqb := N.eqb; eqb_eq := N.eqb_eq |}.

#[export] Instance Eqb_bool : Eqb bool :=
  {| eqb := Bool.eqb; eqb_eq := Bool.eqb_true_iff |}.

Fixpoint list_eqb {A} `{Eqb A} (l1 l2 : list A) : bool :=
  match l1, l2 with
  | [], [] => true
  | x :: l1', y :: l2' => eqb x y && list_eqb l1' l2'
  | _, _ => false
  end.

Lemma list_eqb_eq {A} `{Eqb A} (l1 l2 : list A) :
  list_eqb l1 l2 = true <-> l1 = l2.
Proof.
  revert l2; induction l1 as [|x l1 IH]; intros [|y l2]; simpl;
    try (split; [discriminate | congruence]); try tauto.
  rewrite andb_true_iff, eqb_eq, IH. split.
  - intros [-> ->]; reflexivity.
  - intros E; injection E; auto.
Qed.

#[export] Instance Eqb_list {A} `{Eqb A} : Eqb (list A) :=
  {| eqb := list_eqb; eqb_eq := list_eqb_eq |}.

(** ** Strings, bit strings, slices *)

Abbreviation char := N (only parsing).
Abbreviation str := (list N) (only parsing).
Abbreviation bits := (list bool) (only parsing).
Abbreviation bytes := (list N) (only parsing).

(** [s[:n]] and [s[n:]] for [n >= 0]. *)
Definition slice_to {A} (n : nat) (s : list A) : list A := firstn n s.
Definition slice_from {A} (n : nat) (s : list A) : list A := skipn n s.

(** [s[:-n]]: Python reads [-0] as [0], so [s[:-0]] is empty; an [n] beyond
    the length gives the empty string too. *)
Definition slice_to_neg {A} (n : nat) (s : list A) : list A :=
  match n with
  | O => []
  | _ => firstn (length s - n) s
  end.

(** [s[-n:]]: [s[-0:]] is all of [s], and so is [s[-n:]] for [n] beyond the
    length. *)
Definition slice_from_neg {A} (n : nat) (s : list A) : list A :=
  match n with
  | O => s
  | _ => skipn (length s - n) s
  end.

(** [int(s, 2)] on a string of ['0'] and ['1']: the empty string raises. *)
Definition bits_value (s : bits) : N :=
  fold_left (fun acc (b : bool) => 2 * acc + (if b then 1 else 0)) s 0.

Definition int2 (s : bits) : result N :=
  match s with
  | [] => Raise ValueError
  | _ => OK (bits_value s)
  end.

(** The binary digits of [n], most significant first, without leading
    zeros; [bin_digits 0] is empty. *)
Fixpoint pos_bits_le (p : positive) : bits :=
  match p with
  | xH => [true]
  | xO q => false :: pos_bits_le q
  | xI q => true :: pos_bits_le q
  end.

Definition bin_digits (n : N) : bits :=
  match n with
  | N0 => []
  | Npos p => rev (pos_bits_le p)
  end.

(** ['{0:0wb}'.format(n)]: the binary digits of [n] (["0"] for zero), padded
    on the left with zeros to at least [w] characters, never cut. *)
Definition format_b (w : nat) (n : N) : bits :=
  let d := match n with N0 => [false] | _ => bin_digits n end in
  repeat false (w - length d) ++ d.

(** [BitArray(bs).bin]: eight bits a byte, most significant first. *)
Definition byte_bits (b : N) : bits :=
  map (fun i => N.testbit b (N.of_nat i)) [7; 6; 5; 4; 3; 2; 1; 0]%nat.

Definition BitArray_bin (bs : bytes) : bits := flat_map byte_bits bs.

(** [BitArray(bin=s).tofile(f)]: the bits in groups of eight, the last group
    filled with zero bits on the right. *)
Fixpoint BitArray_tofile (fuel : nat) (s : bits) : bytes :=
  match fuel, s with
  | _, [] => []
  | O, _ => []
  | S fuel', _ =>
      bits_value (firstn 8 (s ++ repeat false 7))
        :: BitArray_tofile fuel' (skipn 8 s)
  end.

Definition tofile (s : bits) : bytes := BitArray_tofile (length s) s.

(** [n.to_bytes(len, 'big')]. *)
Fixpoint bytes_be (len : nat) (n : N) : bytes :=
  match len with
  | O => []
  | S len' => bytes_be len' (n / 256) ++ [n mod 256]
  end.

Definition to_bytes (n : N) (len : nat) : result bytes :=
  if n <? 256 ^ N.of_nat len then OK (bytes_be len n) else Raise OverflowError.

(** ** Dictionaries *)

(** A [dict] keeps its keys in insertion order; assigning to a key that is
    present replaces the value where it stands. *)
Definition dict (K V : Type) : Type := list (K * V).

Fixpoint dict_get {K V} `{Eqb K} (k : K) (d : dict K V) : option V :=
  match d with
  | [] => None
  | (k', v) :: d' => if eqb k k' then Some v else dict_get k d'
  end.

Fixpoint dict_set {K V} `{Eqb K} (k : K) (v : V) (d : dict K V) : dict K V :=
  match d with
  | [] => [(k, v)]
  | (k', v') :: d' =>
      if eqb k k' then (k', v) :: d' else (k', v') :: dict_set k v d'
  end.

Definition dict_in {K V} `{Eqb K} (k : K) (d : dict K V) : bool :=
  match dict_get k d with
  | Some _ => true
  | None => false
  end.

(** [d[k]]. *)
Definition dict_item {K V} `{Eqb K} (k : K) (d : dict K V) : result V :=
  match dict_get k d with
  | Some v => OK v
  | None => Raise KeyError
  end.

(** [dict(pairs)]. *)
Definition dict_of_pairs {K V} `{Eqb K} (pairs : list (K * V)) : dict K V :=
  fold_left (fun d kv => dict_set (fst kv) (snd kv) d) pairs [].

(** [l.pop()]: the last element and the list without it. *)
Definition pop {A} (l : list A) : result (A * list A) :=
  match rev l with
  | [] => Raise IndexError
  | x :: r => OK (x, rev r)
  end.

(** ** class TreeNode *)

(** [char] is [None] for a merged node; [left] and [right] are [None] until
    [build_huffman_tree] assigns them. *)
#[local] Unset Elimination Schemes.
Inductive TreeNode : Type :=
| mkTreeNode (freq : N) (char : option char)
    (left right : option TreeNode).
#[local] Set Elimination Schemes.

Definition freq (t : TreeNode) : N :=
  match t with mkTreeNode f _ _ _ => f end.

Definition char_of (t : TreeNode) : option char :=
  match t with mkTreeNode _ c _ _ => c end.

Definition left (t : TreeNode) : option TreeNode :=
  match t with mkTreeNode _ _ l _ => l end.

Definition right (t : TreeNode) : option TreeNode :=
  match t with mkTreeNode _ _ _ r => r end.

(** [TreeNode.__lt__]: nodes compare by weight.  Nothing in the program
    compares two nodes. *)
Definition TreeNode_lt (self other : TreeNode) : bool :=
  freq self <? freq other.

(** [TreeNode(freq, char)]. *)
Definition TreeNode_init (f : N) (c : option char) : TreeNode :=
  mkTreeNode f c None None.

(** ** class Mapping *)

(** The two dictionaries of a [Mapping] object; [Mapping.map] updates
    both. *)
Record Mapping : Type := mkMapping {
  mapping_dict : dict char bits;
  reverse_mapping_dict : dict bits char
}.

Definition Mapping_init : Mapping := mkMapping [] [].

(** [Mapping.map(root, bit_code)]. *)
Fixpoint Mapping_map (root : TreeNode) (bit_code : bits) (m : Mapping)
  : Mapping :=
  match root with
  | mkTreeNode _ (Some c) _ _ =>
      mkMapping (dict_set c bit_code (mapping_dict m))
                (dict_set bit_code c (reverse_mapping_dict m))
  | mkTreeNode _ None l r =>
      let m1 :=
        match l with
        | Some t => Mapping_map t (bit_code ++ [false]) m
        | None => m
        end in
      match r with
      | Some t => Mapping_map t (bit_code ++ [true]) m1
      | None => m1
      end
  end.

(** [Mapping(tree).create_mapping()], [tree] being the list
    [build_huffman_tree] returns. *)
Definition create_mapping (tree : list TreeNode) : result Mapping :=
  '(root, _) <- pop tree ;;
  OK (Mapping_map root [] Mapping_init).

(** ** Frequency table and tree *)

(** The body of the loop of [build_frequency]. *)
Definition count_step (frequency : dict char N) (character : char)
  : dict char N :=
  match dict_get character frequency with
  | Some n => dict_set character (n + 1) frequency
  | None => dict_set character 1 frequency
  end.

Definition build_frequency (text : str) : dict char N :=
  fold_left count_step text [].

(** [sorted(items, key=lambda kv: kv[1], reverse=True)]: descending by
    count; the sort is stable, also with [reverse=True], so items of equal
    count keep their order.  [insert_desc x l] puts [x], which stood before
    all of [l], behind the items of greater count only. *)
Fixpoint insert_desc {K} (x : K * N) (l : list (K * N)) : list (K * N) :=
  match l with
  | [] => [x]
  | y :: l' => if snd x <? snd y then y :: insert_desc x l' else x :: l
  end.

Definition sorted_desc {K} (items : list (K * N)) : list (K * N) :=
  fold_right insert_desc [] items.

(** Lines 106 and 107 of [compress]: the frequency table, sorted and made a
    [dict] again. *)
Definition sorted_frequency (text : str) : dict char N :=
  dict_of_pairs (sorted_desc (build_frequency text)).

(** Lines 109 to 112 of [compress]: a leaf for every item of the table, in
    its order; [frequency[key]] is the value of the item. *)
Definition leaves_of (frequency : dict char N) : list TreeNode :=
  map (fun kv => TreeNode_init (snd kv) (Some (fst kv))) frequency.

(** One turn of the loop of [build_huffman_tree]. *)
Definition merge_step (stack : list TreeNode) : result (list TreeNode) :=
  '(node_1, stack1) <- pop stack ;;
  '(node_2, stack2) <- pop stack1 ;;
  let frequency := freq node_1 + freq node_2 in
  let merged := mkTreeNode frequency None (Some node_1) (Some node_2) in
  OK (merged :: stack2).

(** [while len(stack) > 1]: every turn shortens the stack by one, so
    [length stack] turns are enough. *)
Fixpoint build_huffman_loop (fuel : nat) (stack : list TreeNode)
  : result (list TreeNode) :=
  match fuel with
  | O => OK stack
  | S fuel' =>
      if (1 <? length stack)%nat
      then stack' <- merge_step stack ;; build_huffman_loop fuel' stack'
      else OK stack
  end.

Definition build_huffman_tree (stack : list TreeNode)
  : result (list TreeNode) :=
  build_huffman_loop (length stack) stack.

(** ** Encoding *)

Fixpoint encode_text (text : str) (mapping_dict : dict char bits)
  : result bits :=
  match text with
  | [] => OK []
  | character :: text' =>
      code <- dict_item character mapping_dict ;;
      rest <- encode_text text' mapping_dict ;;
      OK (code ++ rest)
  end.

Definition encode_text_tree (encoded_text encoded_tree : bits) : bits :=
  let extra_bits := N.of_nat (length encoded_tree) in
  let tree_info := format_b 16 extra_bits in
  tree_info ++ encoded_text ++ encoded_tree.

Definition pad_encoded_text_tree (encoded_text_tree : bits) : bits :=
  let padding := 8 - (N.of_nat (length encoded_text_tree) mod 8) in
  let encoded_text_tree :=
    encoded_text_tree ++ repeat false (N.to_nat padding) in
  let padding_info := format_b 8 padding in
  padding_info ++ encoded_text_tree.

(** ** The [json] module: [json.dumps] *)

(** Character codes. *)
Abbreviation QUOTE := 34 (only parsing).
Abbreviation BACKSLASH := 92 (only parsing).
Abbreviation SLASH := 47 (only parsing).
Abbreviation LBRACE := 123 (only parsing).
Abbreviation RBRACE := 125 (only parsing).
Abbreviation LBRACKET := 91 (only parsing).
Abbreviation RBRACKET := 93 (only parsing).
Abbreviation COLON := 58 (only parsing).
Abbreviation COMMA := 44 (only parsing).
Abbreviation SPACE := 32 (only parsing).
Abbreviation MINUS := 45 (only parsing).
Abbreviation PLUS := 43 (only parsing).
Abbreviation DOT := 46 (only parsing).
Abbreviation ZERO := 48 (only parsing).
Abbreviation ONE := 49 (only parsing).
Abbreviation NINE := 57 (only parsing).
Abbreviation LOWER_b := 98 (only parsing).
Abbreviation LOWER_e := 101 (only parsing).
Abbreviation LOWER_f := 102 (only parsing).
Abbreviation LOWER_n := 110 (only parsing).
Abbreviation LOWER_r := 114 (only parsing).
Abbreviation LOWER_t := 116 (only parsing).
Abbreviation LOWER_u := 117 (only parsing).
Abbreviation UPPER_E := 69 (only parsing).

(** The code points of a literal. *)
Definition lit (s : list ascii) : str := map N_of_ascii s.

Definition lit_null : str := lit ["n"; "u"; "l"; "l"]%char.
Definition lit_true : str := lit ["t"; "r"; "u"; "e"]%char.
Definition lit_false : str := lit ["f"; "a"; "l"; "s"; "e"]%char.
Definition lit_NaN : str := lit ["N"; "a"; "N"]%char.
Definition lit_Infinity : str :=
  lit ["I"; "n"; "f"; "i"; "n"; "i"; "t"; "y"]%char.
Definition lit_minus_Infinity : str :=
  lit ["-"; "I"; "n"; "f"; "i"; "n"; "i"; "t"; "y"]%char.

(** A bit string as the Python [str] it is. *)
Definition bin_str (code : bits) : str :=
  map (fun b : bool => if b then ONE else ZERO) code.

(** One lower-case hexadecimal digit, and ['{0:04x}'.format(n)] for
    [n < 0x10000]. *)
Definition hex_char (d : N) : char := if d <? 10 then 48 + d else 87 + d.

Definition hex4 (n : N) : str :=
  [hex_char (n / 4096 mod 16); hex_char (n / 256 mod 16);
   hex_char (n / 16 mod 16); hex_char (n mod 16)].

(** [json.encoder.py_encode_basestring_ascii], a character at a time:
    [ESCAPE_DCT] first, then everything outside [' '] to ['~'] as
    [\uXXXX], above the basic plane as a surrogate pair. *)
Definition escape_char (c : char) : str :=
  if c =? QUOTE then [BACKSLASH; QUOTE]
  else if c =? BACKSLASH then [BACKSLASH; BACKSLASH]
  else if c =? 10 then [BACKSLASH; LOWER_n]
  else if c =? 13 then [BACKSLASH; LOWER_r]
  else if c =? 9 then [BACKSLASH; LOWER_t]
  else if c =? 12 then [BACKSLASH; LOWER_f]
  else if c =? 8 then [BACKSLASH; LOWER_b]
  else if (32 <=? c) && (c <=? 126) then [c]
  else if c <? 65536 then BACKSLASH :: LOWER_u :: hex4 c
  else
    let n := c - 65536 in
    let s1 := N.lor 55296 (N.land (N.shiftr n 10) 1023) in
    let s2 := N.lor 56320 (N.land n 1023) in
    (BACKSLASH :: LOWER_u :: hex4 s1) ++ (BACKSLASH :: LOWER_u :: hex4 s2).

Definition py_encode_basestring_ascii (s : str) : str :=
  [QUOTE] ++ flat_map escape_char s ++ [QUOTE].

(** The items of a dictionary, [', '] between them and [': '] inside. *)
Fixpoint dumps_items (d : dict str str) : str :=
  match d with
  | [] => []
  | (k, v) :: d' =>
      py_encode_basestring_ascii k ++ [COLON; SPACE]
        ++ py_encode_basestring_ascii v
        ++ match d' with
           | [] => []
           | _ => [COMMA; SPACE] ++ dumps_items d'
           end
  end.

(** [json.dumps(d)] for a dictionary from strings to strings, with the
    default [ensure_ascii=True] and separators. *)
Definition json_dumps (d : dict str str) : str :=
  [LBRACE] ++ dumps_items d ++ [RBRACE].

(** ** UTF-8 *)

(** [s.encode('utf-8')]. *)
Definition utf8_encode_char (c : char) : result bytes :=
  if c <? 128 then OK [c]
  else if c <? 2048 then OK [192 + c / 64; 128 + c mod 64]
  else if c <? 65536 then
    if (55296 <=? c) && (c <=? 57343) then Raise UnicodeEncodeError
    else OK [224 + c / 4096; 128 + (c / 64) mod 64; 128 + c mod 64]
  else OK [240 + c / 262144; 128 + (c / 4096) mod 64;
           128 + (c / 64) mod 64; 128 + c mod 64].

Fixpoint utf8_encode (s : str) : result bytes :=
  match s with
  | [] => OK []
  | c :: s' =>
      b <- utf8_encode_char c ;;
      bs <- utf8_encode s' ;;
      OK (b ++ bs)
  end.

Definition in_range (lo hi b : N) : bool := (lo <=? b) && (b <=? hi).

(** [bs.decode('utf-8')], strict: no overlong forms, no surrogates, nothing
    above U+10FFFF. *)
Fixpoint utf8_decode (bs : bytes) : result str :=
  match bs with
  | [] => OK []
  | b0 :: r =>
      if b0 <? 128 then
        s <- utf8_decode r ;; OK (b0 :: s)
      else if in_range 194 223 b0 then
        match r with
        | b1 :: r' =>
            if in_range 128 191 b1 then
              s <- utf8_decode r' ;;
              OK (((b0 - 192) * 64 + (b1 - 128)) :: s)
            else Raise UnicodeDecodeError
        | _ => Raise UnicodeDecodeError
        end
      else if in_range 224 239 b0 then
        match r with
        | b1 :: b2 :: r' =>
            let lo := if b0 =? 224 then 160 else 128 in
            let hi := if b0 =? 237 then 159 else 191 in
            if in_range lo hi b1 && in_range 128 191 b2 then
              s <- utf8_decode r' ;;
              OK (((b0 - 224) * 4096 + (b1 - 128) * 64 + (b2 - 128)) :: s)
            else Raise UnicodeDecodeError
        | _ => Raise UnicodeDecodeError
        end
      else if in_range 240 244 b0 then
        match r with
        | b1 :: b2 :: b3 :: r' =>
            let lo := if b0 =? 240 then 144 else 128 in
            let hi := if b0 =? 244 then 143 else 191 in
            if in_range lo hi b1 && in_range 128 191 b2
               && in_range 128 191 b3 then
              s <- utf8_decode r' ;;
              OK (((b0 - 240) * 262144 + (b1 - 128) * 4096
                   + (b2 - 128) * 64 + (b3 - 128)) :: s)
            else Raise UnicodeDecodeError
        | _ => Raise UnicodeDecodeError
        end
      else Raise UnicodeDecodeError
  end.

(** [encode_mapping]: the table's keys are the bit strings, its values the
    one-character strings. *)
Definition py_reverse_dict (reverse_mapping_dict : dict bits char)
  : dict str str :=
  map (fun kv => (bin_str (fst kv), [snd kv])) reverse_mapping_dict.

Definition encode_mapping (reverse_mapping_dict : dict bits char)
  : result bits :=
  res_bytes <- utf8_encode (json_dumps (py_reverse_dict reverse_mapping_dict)) ;;
  OK (BitArray_bin res_bytes).

(** ** The [json] module: [json.loads] *)

(** What [json.loads] can return.  A number is kept as the text matched:
    the program reads no number, and fails on one as on any value that is
    no string. *)
#[local] Unset Elimination Schemes.
Inductive json : Type :=
| JNull
| JBool (b : bool)
| JNumber (lexeme : str)
| JConstant (name : str)
| JString (s : str)
| JArray (l : list json)
| JObject (d : dict str json).
#[local] Set Elimination Schemes.

Definition is_ws (c : char) : bool :=
  (c =? SPACE) || (c =? 9) || (c =? 10) || (c =? 13).

Fixpoint skip_ws (s : str) : str :=
  match s with
  | c :: s' => if is_ws c then skip_ws s' else s
  | [] => []
  end.

Definition is_digit (c : char) : bool := in_range ZERO NINE c.

Definition hex_value (c : char) : option N :=
  if in_range 48 57 c then Some (c - 48)
  else if in_range 97 102 c then Some (c - 87)
  else if in_range 65 70 c then Some (c - 55)
  else None.

Definition hex4_value (h1 h2 h3 h4 : char) : option N :=
  match hex_value h1, hex_value h2, hex_value h3, hex_value h4 with
  | Some a, Some b, Some c, Some d => Some (((a * 16 + b) * 16 + c) * 16 + d)
  | _, _, _, _ => None
  end.

(** The one-letter escapes of [scanstring]. *)
Definition unescape (c : char) : option char :=
  if c =? QUOTE then Some QUOTE
  else if c =? BACKSLASH then Some BACKSLASH
  else if c =? SLASH then Some SLASH
  else if c =? LOWER_b then Some 8
  else if c =? LOWER_f then Some 12
  else if c =? LOWER_n then Some 10
  else if c =? LOWER_r then Some 13
  else if c =? LOWER_t then Some 9
  else None.

(** [scanstring(s, end, strict=True)], [s] starting after the opening
    quote: the string's value and the text after the closing quote.  A
    control character, an unknown escape, fewer than four hexadecimal
    digits after [\u], or the end of the text raise.  A high surrogate
    followed by an escaped low surrogate is one character. *)
Fixpoint scanstring (s : str) : result (str * str) :=
  match s with
  | [] => Raise JSONDecodeError
  | c :: r =>
      if c =? QUOTE then OK ([], r)
      else if c =? BACKSLASH then
        match r with
        | [] => Raise JSONDecodeError
        | e :: r1 =>
            if e =? LOWER_u then
              match r1 with
              | h1 :: h2 :: h3 :: h4 :: ((x :: r3) as r2) =>
                  match hex4_value h1 h2 h3 h4 with
                  | None => Raise JSONDecodeError
                  | Some u =>
                      let single :=
                        '(v, rest) <- scanstring r2 ;; OK (u :: v, rest) in
                      if in_range 55296 56319 u then
                        match r3 with
                        | y :: g1 :: g2 :: g3 :: g4 :: ((_ :: _) as r4) =>
                            if (x =? BACKSLASH) && (y =? LOWER_u) then
                              match hex4_value g1 g2 g3 g4 with
                              | None => Raise JSONDecodeError
                              | Some u2 =>
                                  if in_range 56320 57343 u2 then
                                    '(v, rest) <- scanstring r4 ;;
                                    OK ((65536 + N.lor
                                           (N.shiftl (u - 55296) 10)
                                           (u2 - 56320)) :: v, rest)
                                  else single
                              end
                            else single
                        | _ => single
                        end
                      else single
                  end
              | _ => Raise JSONDecodeError
              end
            else
              match unescape e with
              | None => Raise JSONDecodeError
              | Some c' => '(v, rest) <- scanstring r1 ;; OK (c' :: v, rest)
              end
        end
      else if c <=? 31 then Raise JSONDecodeError
      else '(v, rest) <- scanstring r ;; OK (c :: v, rest)
  end.

Fixpoint strip_prefix (p s : str) : option str :=
  match p, s with
  | [], _ => Some s
  | a :: p', b :: s' => if a =? b then strip_prefix p' s' else None
  | _ :: _, [] => None
  end.

Fixpoint span_digits (s : str) : str * str :=
  match s with
  | c :: s' =>
      if is_digit c then let '(d, r) := span_digits s' in (c :: d, r)
      else ([], s)
  | [] => ([], [])
  end.

(** [_match_number]: an optional minus, [0] or a run of digits not starting
    with [0], then a fraction and an exponent, each taken only when
    complete. *)
Definition match_number (s : str) : option (str * str) :=
  let '(sign, s1) :=
    match s with
    | c :: r => if c =? MINUS then ([c], r) else ([], s)
    | [] => ([], s)
    end in
  match s1 with
  | c :: r =>
      let int_part :=
        if c =? ZERO then Some ([c], r)
        else if is_digit c then
          let '(d, r') := span_digits r in Some (c :: d, r')
        else None in
      match int_part with
      | None => None
      | Some (i, s2) =>
          let '(frac, s3) :=
            match s2 with
            | c1 :: c2 :: r2 =>
                if (c1 =? DOT) && is_digit c2 then
                  let '(d, r') := span_digits r2 in (c1 :: c2 :: d, r')
                else ([], s2)
            | _ => ([], s2)
            end in
          let '(exp, s4) :=
            match s3 with
            | c1 :: r1 =>
                if (c1 =? LOWER_e) || (c1 =? UPPER_E) then
                  let '(sg, r2) :=
                    match r1 with
                    | c2 :: r2 =>
                        if (c2 =? MINUS) || (c2 =? PLUS) then ([c2], r2)
                        else ([], r1)
                    | [] => ([], r1)
                    end in
                  match span_digits r2 with
                  | ([], _) => ([], s3)
                  | (d, r') => (c1 :: sg ++ d, r')
                  end
                else ([], s3)
            | [] => ([], s3)
            end in
          Some (sign ++ i ++ frac ++ exp, s4)
      end
  | [] => None
  end.

(** The scanner, [scan_once], with the loops of [JSONObject] and
    [JSONArray].  [fuel] bounds the turns of the loops and the nesting: a
    level of nesting takes two units and reads a character at least, a turn
    of a loop takes one and reads two at least, so that the fuel
    [json_loads] starts with, one more than twice the length of the text,
    never runs out ([json_loads_fuel] below).  CPython stops at a nesting
    of some thousand levels with a [RecursionError]; the model has no such
    limit. *)
Fixpoint scan_once (fuel : nat) (s : str) : result (json * str) :=
  match fuel with
  | O => Raise RecursionError
  | S fuel' =>
      match s with
      | [] => Raise JSONDecodeError
      | c :: r =>
          if c =? QUOTE then
            '(v, rest) <- scanstring r ;; OK (JString v, rest)
          else if c =? LBRACE then
            match skip_ws r with
            | c1 :: r1 =>
                if c1 =? RBRACE then OK (JObject [], r1)
                else object_members fuel' (c1 :: r1) []
            | [] => Raise JSONDecodeError
            end
          else if c =? LBRACKET then
            match skip_ws r with
            | c1 :: r1 =>
                if c1 =? RBRACKET then OK (JArray [], r1)
                else array_elements fuel' (c1 :: r1) []
            | [] => Raise JSONDecodeError
            end
          else
            match strip_prefix lit_null s, strip_prefix lit_true s,
                  strip_prefix lit_false s, strip_prefix lit_NaN s,
                  strip_prefix lit_Infinity s,
                  strip_prefix lit_minus_Infinity s with
            | Some rest, _, _, _, _, _ => OK (JNull, rest)
            | _, Some rest, _, _, _, _ => OK (JBool true, rest)
            | _, _, Some rest, _, _, _ => OK (JBool false, rest)
            | _, _, _, Some rest, _, _ => OK (JConstant lit_NaN, rest)
            | _, _, _, _, Some rest, _ => OK (JConstant lit_Infinity, rest)
            | _, _, _, _, _, Some rest =>
                OK (JConstant lit_minus_Infinity, rest)
            | _, _, _, _, _, _ =>
                match match_number s with
                | Some (lexeme, rest) => OK (JNumber lexeme, rest)
                | None => Raise JSONDecodeError
                end
            end
      end
  end

with object_members (fuel : nat) (s : str) (pairs : dict str json)
  : result (json * str) :=
  match fuel with
  | O => Raise RecursionError
  | S fuel' =>
      match s with
      | [] => Raise JSONDecodeError
      | c :: r =>
          if c =? QUOTE then
            '(key, r1) <- scanstring r ;;
            match skip_ws r1 with
            | [] => Raise JSONDecodeError
            | c2 :: r2 =>
                if c2 =? COLON then
                  '(val, r3) <- scan_once fuel' (skip_ws r2) ;;
                  let pairs := dict_set key val pairs in
                  match skip_ws r3 with
                  | [] => Raise JSONDecodeError
                  | c4 :: r4 =>
                      if c4 =? RBRACE then OK (JObject pairs, r4)
                      else if c4 =? COMMA then
                        object_members fuel' (skip_ws r4) pairs
                      else Raise JSONDecodeError
                  end
                else Raise JSONDecodeError
            end
          else Raise JSONDecodeError
      end
  end

with array_elements (fuel : nat) (s : str) (values : list json)
  : result (json * str) :=
  match fuel with
  | O => Raise RecursionError
  | S fuel' =>
      '(val, r1) <- scan_once fuel' s ;;
      let values := values ++ [val] in
      match skip_ws r1 with
      | [] => Raise JSONDecodeError
      | c :: r2 =>
          if c =? RBRACKET then OK (JArray values, r2)
          else if c =? COMMA then array_elements fuel' (skip_ws r2) values
          else Raise JSONDecodeError
      end
  end.

(** [json.loads(s)]: one value between optional white space, nothing
    after. *)
Definition json_loads (s : str) : result json :=
  '(obj, rest) <- scan_once (S (2 * length s)) (skip_ws s) ;;
  match skip_ws rest with
  | [] => OK obj
  | _ => Raise JSONDecodeError
  end.

(** ** Decoding *)

Definition remove_padding_bits (bit_string : bits) : result bits :=
  let padding_info := slice_to 8 bit_string in
  padding_bits <- int2 padding_info ;;
  let bit_string := slice_from 8 bit_string in
  let bit_string := slice_to_neg (N.to_nat padding_bits) bit_string in
  OK bit_string.

Definition get_encoded_text_mapping (bit_string : bits)
  : result (bits * bits) :=
  let tree_info := slice_to 16 bit_string in
  encoded_tree_bits <- int2 tree_info ;;
  let bit_string := slice_from 16 bit_string in
  let encoded_tree := slice_from_neg (N.to_nat encoded_tree_bits) bit_string in
  let bit_string := slice_to_neg (N.to_nat encoded_tree_bits) bit_string in
  OK (bit_string, encoded_tree).

Definition decode_mapping (encoded_mapping : bits) : result json :=
  n <- int2 encoded_mapping ;;
  res_bytes <- to_bytes n (length encoded_mapping / 8) ;;
  s <- utf8_decode res_bytes ;;
  json_loads s.

(** [sub in s] for strings. *)
Fixpoint is_substring (sub s : str) : bool :=
  match strip_prefix sub s with
  | Some _ => true
  | None =>
      match s with
      | [] => false
      | _ :: s' => is_substring sub s'
      end
  end.

(** [code in reverse_dict], for whatever [json.loads] returned: a key of a
    dictionary, an element of a list, a substring of a string; any other
    value is not a container. *)
Definition py_contains (code : str) (reverse_dict : json) : result bool :=
  match reverse_dict with
  | JObject d => OK (dict_in code d)
  | JArray l =>
      OK (existsb (fun x => match x with
                            | JString s => eqb s code
                            | _ => false
                            end) l)
  | JString s => OK (is_substring code s)
  | _ => Raise TypeError
  end.

(** [reverse_dict[code]]: only a dictionary takes a string as index. *)
Definition py_getitem (code : str) (reverse_dict : json) : result json :=
  match reverse_dict with
  | JObject d => dict_item code d
  | _ => Raise TypeError
  end.

(** [decoded_text += value]. *)
Definition py_iadd (decoded_text : str) (value : json) : result str :=
  match value with
  | JString s => OK (decoded_text ++ s)
  | _ => Raise TypeError
  end.

(** The loop of [decode_bits], from the state [(decoded_text, code)] to the
    state it ends in. *)
Fixpoint decode_loop (encoded_text : bits) (reverse_dict : json)
    (decoded_text : str) (code : bits) : result (str * bits) :=
  match encoded_text with
  | [] => OK (decoded_text, code)
  | bit :: encoded_text' =>
      let code := code ++ [bit] in
      found <- py_contains (bin_str code) reverse_dict ;;
      if (found : bool) then
        value <- py_getitem (bin_str code) reverse_dict ;;
        decoded_text <- py_iadd decoded_text value ;;
        decode_loop encoded_text' reverse_dict decoded_text []
      else decode_loop encoded_text' reverse_dict decoded_text code
  end.

Definition decode_bits (encoded_text : bits) (reverse_dict : json)
  : result str :=
  '(decoded_text, _) <- decode_loop encoded_text reverse_dict [] [] ;;
  OK decoded_text.

(** ** [compress] and [decompress] *)

(** [str.isspace] of one character. *)
Definition is_space (c : char) : bool :=
  in_range 9 13 c || in_range 28 32 c || (c =? 133) || (c =? 160)
  || (c =? 5760) || in_range 8192 8202 c || (c =? 8232) || (c =? 8233)
  || (c =? 8239) || (c =? 8287) || (c =? 12288).

Fixpoint lstrip (s : str) : str :=
  match s with
  | c :: s' => if is_space c then lstrip s' else s
  | [] => []
  end.

(** [text.rstrip()]. *)
Definition rstrip (text : str) : str := rev (lstrip (rev text)).

(** [encode]: lines 106 to 130 of [compress], from the text to the bytes
    written. *)
Definition encode (text : str) : result bytes :=
  let frequency := build_frequency text in
  let frequency := dict_of_pairs (sorted_desc frequency) in
  let stack := leaves_of frequency in
  huffman_tree <- build_huffman_tree stack ;;
  mapping_obj <- create_mapping huffman_tree ;;
  encoded_text <- encode_text text (mapping_dict mapping_obj) ;;
  encoded_tree <- encode_mapping (reverse_mapping_dict mapping_obj) ;;
  let encoded_text_tree := encode_text_tree encoded_text encoded_tree in
  let padded_encoded_text_tree := pad_encoded_text_tree encoded_text_tree in
  OK (tofile padded_encoded_text_tree).

(** [compress], [text] being what [file.read()] returned. *)
Definition compress (text : str) : result bytes :=
  let text := rstrip text in
  encode text.

(** [decompress], [file] being the bytes [f.read()] returned; the result is
    the text written. *)
Definition decompress (file : bytes) : result str :=
  let b := BitArray_bin file in
  b <- remove_padding_bits b ;;
  '(encoded_text, encoded_mapping) <- get_encoded_text_mapping b ;;
  reverse_mapping_dict <- decode_mapping encoded_mapping ;;
  decode_bits encoded_text reverse_mapping_dict.

(** Compressing, then decompressing what was written. *)
Definition roundtrip (text : str) : result str :=
  file <- compress text ;;
  decompress file.

(** ** Paths *)

(** [p.rfind(c)] for a character [c]: the index of the last [c] in [p],
    [-1] when there is none. *)
Fixpoint rfind (p : str) (c : char) : Z :=
  match p with
  | [] => (-1)%Z
  | x :: p' =>
      let i := rfind p' c in
      if (0 <=? i)%Z then (i + 1)%Z
      else if x =? c then 0%Z else (-1)%Z
  end.

(** [p[i:j]] for indexes that are not negative. *)
Definition slice (i j : nat) (p : str) : str := firstn (j - i) (skipn i p).

(** The loop of [genericpath._splitext], which skips the dots a file name
    starts with; every turn moves [filenameIndex] one step to [dotIndex],
    so [fuel] turns are enough when [fuel] is the length of the path. *)
Fixpoint splitext_loop (fuel : nat) (p : str) (filenameIndex dotIndex : nat)
  : str * str :=
  match fuel with
  | O => (p, [])
  | S fuel' =>
      if (filenameIndex <? dotIndex)%nat then
        if negb (eqb (slice filenameIndex (filenameIndex + 1) p) [DOT])
        then (firstn dotIndex p, skipn dotIndex p)
        else splitext_loop fuel' p (filenameIndex + 1) dotIndex
      else (p, [])
  end.

(** [os.path.splitext(p)] of [posixpath]: the extension starts at the last
    dot of the last component, unless that component has dots only before
    it. *)
Definition splitext (p : str) : str * str :=
  let sepIndex := rfind p SLASH in
  let dotIndex := rfind p DOT in
  if (sepIndex <? dotIndex)%Z then
    splitext_loop (length p) p (Z.to_nat (sepIndex + 1)) (Z.to_nat dotIndex)
  else (p, []).

(** Lines 94 and 95 of [compress], lines 185 and 186 of [decompress]: the
    path of the file written. *)
Definition compress_output_file (path : str) : str :=
  let '(file_path, file_extension) := splitext path in
  file_path ++ lit ["."; "b"; "i"; "n"]%char.

Definition decompress_output_file (compressed_path : str) : str :=
  let '(file_path, file_extension) := splitext compressed_path in
  file_path
  ++ lit ["_"; "d"; "e"; "c"; "o"; "m"; "p"; "r"; "e"; "s"; "s"; "e"; "d";
          "."; "t"; "x"; "t"]%char.

(** * Notions the properties are stated with *)

(** The 256 bytes, for facts checked byte by byte. *)
Definition all_bytes : list N := map N.of_nat (seq 0 256).

(** The pad count [pad_encoded_text_tree] computes. *)
Definition pad_count (encoded_text_tree : bits) : N :=
  8 - (N.of_nat (length encoded_text_tree) mod 8).

Definition option_all {A} (P : A -> Prop) (o : option A) : Prop :=
  match o with
  | Some a => P a
  | None => True
  end.

(** Induction over a tree, through its optional children. *)
Fixpoint TreeNode_ind (P : TreeNode -> Prop)
    (step : forall f c l r,
        option_all P l -> option_all P r -> P (mkTreeNode f c l r))
    (t : TreeNode) : P t :=
  match t with
  | mkTreeNode f c l r =>
      step f c l r
        (match l return option_all P l with
         | Some t' => TreeNode_ind P step t'
         | None => I
         end)
        (match r return option_all P r with
         | Some t' => TreeNode_ind P step t'
         | None => I
         end)
  end.

(** The leaves [Mapping.map] reaches from [root], in the order it reaches
    them, each with the bit code it is given. *)
Fixpoint codes_of (root : TreeNode) (bit_code : bits) : list (char * bits) :=
  match root with
  | mkTreeNode _ (Some c) _ _ => [(c, bit_code)]
  | mkTreeNode _ None l r =>
      match l with
      | Some t => codes_of t (bit_code ++ [false])
      | None => []
      end
      ++ match r with
         | Some t => codes_of t (bit_code ++ [true])
         | None => []
         end
  end.

Definition symbols (root : TreeNode) : list char := map fst (codes_of root []).

(** The number of leaves of a tree. *)
Fixpoint leaf_count (root : TreeNode) : nat :=
  match root with
  | mkTreeNode _ (Some _) _ _ => 1
  | mkTreeNode _ None l r =>
      match l with
      | Some t => leaf_count t
      | None => 0
      end
      + match r with
        | Some t => leaf_count t
        | None => 0
        end
  end.

Definition add_code (m : Mapping) (ck : char * bits) : Mapping :=
  mkMapping (dict_set (fst ck) (snd ck) (mapping_dict m))
            (dict_set (snd ck) (fst ck) (reverse_mapping_dict m)).

Definition prefix (a b : bits) : Prop := exists r, b = a ++ r.

Definition prefix_free (codes : list bits) : Prop :=
  forall a b, In a codes -> In b codes -> prefix a b -> a = b.

Definition swap {A B} (p : A * B) : B * A := (snd p, fst p).

(** No code is a prefix of the code of another leaf. *)
Definition incomparable (x y : char * bits) : Prop :=
  ~ prefix (snd x) (snd y) /\ ~ prefix (snd y) (snd x).

(** The table [decompress] works with when [json.loads] reads back what
    [encode_mapping] wrote for [reverse_mapping_dict]. *)
Definition json_table (reverse_mapping_dict : dict bits char) : dict str json :=
  map (fun kv => (bin_str (fst kv), JString [snd kv])) reverse_mapping_dict.

Definition is_ascii (s : str) : Prop := Forall (fun c => c < 128) s.

(** The [Mapping] object of [compress], and the bits of its table. *)
Definition mapping_of (text : str) : result Mapping :=
  huffman_tree <- build_huffman_tree (leaves_of (sorted_frequency text)) ;;
  create_mapping huffman_tree.

Definition encoded_tree_of (text : str) : result bits :=
  mapping_obj <- mapping_of text ;;
  encode_mapping (reverse_mapping_dict mapping_obj).

(** The text has two different symbols. *)
Definition two_symbols (text : str) : Prop :=
  exists a b, In a text /\ In b text /\ a <> b.

(** The 16-bit [tree_info] field can hold the length of the table. *)
Definition tree_info_fits (text : str) : Prop :=
  forall encoded_tree,
    encoded_tree_of text = OK encoded_tree ->
    N.of_nat (length encoded_tree) < 65536.

(** What a scanner of [json.loads] returned from the text [s] is either
    the exception of the module, not the one of the fuel, or a value with a
    rest shorter than [s]. *)
Definition scanned {A} (s : str) (res : result (A * str)) : Prop :=
  match res with
  | inl e => e = JSONDecodeError
  | inr (_, rest) => (length rest < length s)%nat
  end.

(** A code table as [decode_bits] receives it. *)
Definition table_json (table : dict str str) : json :=
  JObject (map (fun kv => (fst kv, JString (snd kv))) table).

(** [greedy_scan table code bits out code'] follows the words of the
    specification: one bit at a time is added to the candidate [code]; when
    the candidate is an entry of the table its symbol is emitted and the
    candidate is emptied; when the bits are exhausted the scan ends with
    the candidate [code'] it holds, whatever that is. *)
Inductive greedy_scan (table : dict str str)
  : bits -> bits -> str -> bits -> Prop :=
| scan_exhausted (code : bits) :
    greedy_scan table code [] [] code
| scan_emit (code : bits) (bit : bool) (rest : bits) (symbol out : str)
    (code' : bits) :
    dict_get (bin_str (code ++ [bit])) table = Some symbol ->
    greedy_scan table [] rest out code' ->
    greedy_scan table code (bit :: rest) (symbol ++ out) code'
| scan_keep (code : bits) (bit : bool) (rest : bits) (out : str)
    (code' : bits) :
    dict_get (bin_str (code ++ [bit])) table = None ->
    greedy_scan table (code ++ [bit]) rest out code' ->
    greedy_scan table code (bit :: rest) out code'.

(** [node_1] and [node_2] are of lowest weight among themselves and the
    nodes left on the stack. *)
Definition lowest_two (node_1 node_2 : TreeNode) (stack : list TreeNode)
  : Prop :=
  forall t, In t stack -> freq node_1 <= freq t /\ freq node_2 <= freq t.

(** The number of occurrences of [c] in [text], and the position of the
    first one. *)
Fixpoint count (c : char) (text : str) : N :=
  match text with
  | [] => 0
  | x :: text' => (if x =? c then 1 else 0) + count c text'
  end.

Fixpoint index_of (c : char) (text : str) : nat :=
  match text with
  | [] => O
  | x :: text' => if x =? c then O else S (index_of c text')
  end.

(** The order of the specification: descending by count, ties by first
    occurrence in the input. *)
Definition table_order (text : str) (x y : char * N) : Prop :=
  snd y < snd x
  \/ (snd x = snd y /\ (index_of (fst x) text < index_of (fst y) text)%nat).

(** What the specification asks of the ordered frequency table of
    [text]. *)
Definition is_frequency_table (text : str) (table : dict char N) : Prop :=
  (forall c n, In (c, n) table <-> In c text /\ n = count c text)
  /\ NoDup (map fst table)
  /\ StronglySorted (table_order text) table.

(** The characters of [text], each once, in the order of their first
    occurrence. *)
Fixpoint distinct (text : str) : str :=
  match text with
  | [] => []
  | c :: text' => c :: filter (fun x => negb (x =? c)) (distinct text')
  end.

(** The sum of the counts of a frequency table, and of the weights of the
    nodes of a stack. *)
Definition total (frequency : dict char N) : N :=
  fold_right N.add 0 (map snd frequency).

Definition weight (stack : list TreeNode) : N :=
  fold_right N.add 0 (map freq stack).

(** The leaves [Mapping.map] reaches from [root], each with its weight. *)
Fixpoint leaves (root : TreeNode) : list (char * N) :=
  match root with
  | mkTreeNode f (Some c) _ _ => [(c, f)]
  | mkTreeNode _ None l r =>
      match l with
      | Some t => leaves t
      | None => []
      end
      ++ match r with
         | Some t => leaves t
         | None => []
         end
  end.

(** The weight of every merged node is the sum of the weights of its
    children. *)
Fixpoint weights_add_up (root : TreeNode) : Prop :=
  match root with
  | mkTreeNode _ (Some _) _ _ => True
  | mkTreeNode f None l r =>
      f = match l with Some t => freq t | None => 0 end
          + match r with Some t => freq t | None => 0 end
      /\ match l with Some t => weights_add_up t | None => True end
      /\ match r with Some t => weights_add_up t | None => True end
  end.
(** The code [encode_text] reads for a character, empty when there is
    none. *)
Definition code_of (mapping_dict : dict char bits) (c : char) : bits :=
  match dict_get c mapping_dict with
  | Some code => code
  | None => []
  end.
(** An entry of a table whose key is not the empty string. *)
Definition nonempty_key {V} (kv : str * V) : bool :=
  match fst kv with
  | [] => false
  | _ :: _ => true
  end.


(** The least and the greatest depth of a leaf [Mapping.map] reaches from
    [root]: the least and the greatest length of a code. *)
Fixpoint depth_min (root : TreeNode) : nat :=
  match root with
  | mkTreeNode _ (Some _) _ _ => 0
  | mkTreeNode _ None l r =>
      match l, r with
      | Some a, Some b => S (Nat.min (depth_min a) (depth_min b))
      | Some a, None => S (depth_min a)
      | None, Some b => S (depth_min b)
      | None, None => 0
      end
  end.

Fixpoint depth_max (root : TreeNode) : nat :=
  match root with
  | mkTreeNode _ (Some _) _ _ => 0
  | mkTreeNode _ None l r =>
      match l, r with
      | Some a, Some b => S (Nat.max (depth_max a) (depth_max b))
      | Some a, None => S (depth_max a)
      | None, Some b => S (depth_max b)
      | None, None => 0
      end
  end.

(** [later] stands before [earlier] in the stack, so is popped after it:
    no leaf of [earlier] is deeper than a leaf of [later]. *)
Definition not_deeper (later earlier : TreeNode) : Prop :=
  (depth_max earlier <= depth_min later)%nat.

(** What the loop of [build_huffman_tree] keeps of a stack of leaves: the
    nodes stand in the order of their depths, the deepest in front, and no
    two leaves of the stack differ in depth by more than one. *)
Definition balanced_stack (stack : list TreeNode) : Prop :=
  StronglySorted not_deeper stack
  /\ (forall s t, In s stack -> In t stack ->
                  (depth_max s <= depth_min t + 1)%nat)
  /\ Forall (fun t => (depth_min t <= depth_max t)%nat) stack.
(** Every merged node of the tree has its two children. *)
Fixpoint full (root : TreeNode) : Prop :=
  match root with
  | mkTreeNode _ (Some _) _ _ => True
  | mkTreeNode _ None l r =>
      match l, r with
      | Some a, Some b => full a /\ full b
      | _, _ => False
      end
  end.
(** The leaves [Mapping.map] reaches from [root], each with the length of
    its code, and a leaf one level further down. *)
Definition depths (root : TreeNode) : list (char * nat) :=
  map (fun ck => (fst ck, length (snd ck))) (codes_of root []).

Definition deeper (cd : char * nat) : char * nat := (fst cd, S (snd cd)).

(** What the loop of [build_huffman_tree] keeps of the stack of leaves made
    from a table with the keys [keys]: read from the end of the stack, where
    nodes are popped, the leaves are the keys from the last to the first,
    rotated; the leaves up to the first key are at one depth, the leaves
    from the last key on one level deeper. *)
Definition rotated (keys : list char) (stack : list TreeNode) : Prop :=
  exists (upper lower : list (char * nat)) (d : nat),
    flat_map depths (rev stack) = upper ++ lower
    /\ rev keys = map fst lower ++ map fst upper
    /\ Forall (fun cd => snd cd = d) upper
    /\ Forall (fun cd => snd cd = S d) lower.

(** * Properties *)

(** ** The exception monad *)

Lemma bind_OK {A B} (r : result A) (k : A -> result B) (b : B) :
  bind r k = OK b -> exists a, r = OK a /\ k a = OK b.
Proof.
  destruct r as [e | a]; simpl; [discriminate | eauto].
Qed.

Ltac inv_bind H :=
  let a := fresh "a" in
  let E := fresh "E" in
  apply bind_OK in H; destruct H as (a & E & H).

(** ** Lists, [pop] and slices *)

Lemma pop_app {A} (l : list A) (x : A) : pop (l ++ [x]) = OK (x, l).
Proof.
  unfold pop. rewrite rev_app_distr. simpl. now rewrite rev_involutive.
Qed.

Lemma pop_nil {A} : pop (@nil A) = Raise IndexError.
Proof. reflexivity. Qed.

Lemma firstn_app_length {A} (a b : list A) (n : nat) :
  length a = n -> firstn n (a ++ b) = a.
Proof.
  intros <-. rewrite firstn_app, Nat.sub_diag, firstn_all. simpl.
  apply app_nil_r.
Qed.

Lemma skipn_app_length {A} (a b : list A) (n : nat) :
  length a = n -> skipn n (a ++ b) = b.
Proof.
  intros <-. now rewrite skipn_app, Nat.sub_diag, skipn_all.
Qed.

Lemma slice_to_neg_app {A} (a b : list A) :
  b <> [] -> slice_to_neg (length b) (a ++ b) = a.
Proof.
  intros Hb. unfold slice_to_neg.
  destruct (length b) eqn:E; [destruct b; [congruence | discriminate]|].
  rewrite <- E, length_app.
  replace (length a + length b - length b)%nat with (length a + 0)%nat by lia.
  rewrite firstn_app_2. simpl. apply app_nil_r.
Qed.

Lemma slice_from_neg_app {A} (a b : list A) :
  b <> [] -> slice_from_neg (length b) (a ++ b) = b.
Proof.
  intros Hb. unfold slice_from_neg.
  destruct (length b) eqn:E; [destruct b; [congruence | discriminate]|].
  rewrite <- E, length_app.
  replace (length a + length b - length b)%nat with (length a) by lia.
  now rewrite skipn_app, skipn_all, Nat.sub_diag.
Qed.

(** ** Bit strings and bytes *)

Lemma bits_value_fold (s : bits) (acc : N) :
  fold_left (fun acc (b : bool) => 2 * acc + (if b then 1 else 0)) s acc
  = acc * 2 ^ N.of_nat (length s) + bits_value s.
Proof.
  unfold bits_value. revert acc.
  induction s as [|b s IH]; intros acc.
  - simpl. lia.
  - cbn [fold_left length]. rewrite IH, (IH (2 * 0 + _)).
    rewrite Nat2N.inj_succ, N.pow_succ_r'. lia.
Qed.

Lemma bits_value_app (a b : bits) :
  bits_value (a ++ b) = bits_value a * 2 ^ N.of_nat (length b) + bits_value b.
Proof.
  unfold bits_value at 1. rewrite fold_left_app.
  fold (bits_value a). apply bits_value_fold.
Qed.

Lemma int2_OK (s : bits) : length s <> 0%nat -> int2 s = OK (bits_value s).
Proof. destruct s; [intros H; now elim H | reflexivity]. Qed.

Lemma bits_value_cons (b : bool) (s : bits) :
  bits_value (b :: s)
  = (if b then 1 else 0) * 2 ^ N.of_nat (length s) + bits_value s.
Proof.
  change (b :: s) with ([b] ++ s). rewrite bits_value_app.
  destruct b; reflexivity.
Qed.

Lemma bits_value_bound (s : bits) : bits_value s < 2 ^ N.of_nat (length s).
Proof.
  induction s as [|b s IH] using rev_ind.
  - cbn. lia.
  - rewrite bits_value_app, length_app, Nat2N.inj_add, N.pow_add_r.
    cbn [length]. change (2 ^ N.of_nat 1) with 2.
    destruct b; cbn [bits_value fold_left]; lia.
Qed.

Lemma bits_value_repeat_false (n : nat) : bits_value (repeat false n) = 0.
Proof.
  induction n as [|n IH]; [reflexivity|].
  cbn [repeat]. rewrite bits_value_cons, IH. lia.
Qed.

Lemma bits_value_zeros_app (n : nat) (s : bits) :
  bits_value (repeat false n ++ s) = bits_value s.
Proof.
  rewrite bits_value_app, bits_value_repeat_false. lia.
Qed.

Lemma length_byte_bits (b : N) : length (byte_bits b) = 8%nat.
Proof. reflexivity. Qed.

Lemma length_BitArray_bin (bs : bytes) :
  length (BitArray_bin bs) = (8 * length bs)%nat.
Proof.
  unfold BitArray_bin. induction bs as [|b bs IH]; [reflexivity|].
  cbn [flat_map]. rewrite length_app, IH, length_byte_bits.
  cbn [length]. lia.
Qed.

Lemma BitArray_bin_app (a b : bytes) :
  BitArray_bin (a ++ b) = BitArray_bin a ++ BitArray_bin b.
Proof. apply flat_map_app. Qed.

Lemma in_all_bytes (b : N) : b < 256 -> In b all_bytes.
Proof.
  intros Hb. unfold all_bytes. apply in_map_iff.
  exists (N.to_nat b). split; [apply N2Nat.id|].
  apply in_seq. lia.
Qed.

Lemma forall_bytes (P : N -> bool) :
  forallb P all_bytes = true -> forall b, b < 256 -> P b = true.
Proof.
  intros H b Hb. rewrite forallb_forall in H. apply H, in_all_bytes, Hb.
Qed.

Lemma bits_value_byte_bits (b : N) : b < 256 -> bits_value (byte_bits b) = b.
Proof.
  intros Hb. apply N.eqb_eq.
  apply (forall_bytes (fun b => bits_value (byte_bits b) =? b));
    [vm_compute; reflexivity | exact Hb].
Qed.

Lemma byte_bits_bits_value (s : bits) :
  length s = 8%nat -> byte_bits (bits_value s) = s.
Proof.
  intros H.
  destruct s as [|b7 [|b6 [|b5 [|b4 [|b3 [|b2 [|b1 [|b0 [|]]]]]]]]];
    try discriminate.
  destruct b7, b6, b5, b4, b3, b2, b1, b0; reflexivity.
Qed.

Lemma BitArray_tofile_bin (fuel : nat) (s : bits) :
  (length s <= fuel)%nat -> (length s mod 8 = 0)%nat ->
  BitArray_bin (BitArray_tofile fuel s) = s.
Proof.
  revert s. induction fuel as [|fuel IH]; intros s Hle Hmod.
  - destruct s; [reflexivity | simpl in Hle; lia].
  - destruct s as [|b s]; [reflexivity|].
    assert (Hlen : (8 <= length (b :: s))%nat).
    { destruct (Nat.lt_ge_cases (length (b :: s)) 8) as [Hlt|]; [|assumption].
      rewrite Nat.mod_small in Hmod by assumption. discriminate. }
    cbn [BitArray_tofile]. change (BitArray_bin (?x :: ?l))
      with (byte_bits x ++ BitArray_bin l).
    rewrite firstn_app.
    replace (8 - length (b :: s))%nat with 0%nat by lia.
    rewrite firstn_O, app_nil_r.
    rewrite byte_bits_bits_value by (rewrite length_firstn; lia).
    rewrite IH.
    + apply firstn_skipn.
    + rewrite length_skipn. simpl in *. lia.
    + rewrite length_skipn.
      assert (E : length (b :: s) = (length (b :: s) - 8 + 1 * 8)%nat) by lia.
      rewrite E, Nat.Div0.mod_add in Hmod. exact Hmod.
Qed.

Lemma BitArray_bin_tofile (s : bits) :
  (length s mod 8 = 0)%nat -> BitArray_bin (tofile s) = s.
Proof. intros H. apply BitArray_tofile_bin; [lia | exact H]. Qed.

Lemma bits_value_BitArray_bin_snoc (bs : bytes) (b : N) :
  b < 256 ->
  bits_value (BitArray_bin (bs ++ [b])) = bits_value (BitArray_bin bs) * 256 + b.
Proof.
  intros Hb. rewrite BitArray_bin_app, bits_value_app.
  change (BitArray_bin [b]) with (byte_bits b ++ []).
  rewrite app_nil_r, length_byte_bits, bits_value_byte_bits by assumption.
  reflexivity.
Qed.

Lemma bytes_be_BitArray_bin (bs : bytes) :
  Forall (fun b => b < 256) bs ->
  bytes_be (length bs) (bits_value (BitArray_bin bs)) = bs.
Proof.
  induction bs as [|b bs IH] using rev_ind; intros H; [reflexivity|].
  apply Forall_app in H as [Hbs Hb]. inversion Hb as [|? ? Hb' _]; subst.
  rewrite length_app, Nat.add_comm. cbn [length Nat.add bytes_be].
  rewrite bits_value_BitArray_bin_snoc by assumption.
  rewrite N.div_add_l, N.div_small, N.add_0_r by lia.
  rewrite IH by assumption. f_equal. f_equal.
  rewrite N.add_comm, N.Div0.mod_add. apply N.mod_small, Hb'.
Qed.

Lemma to_bytes_BitArray_bin (bs : bytes) :
  Forall (fun b => b < 256) bs ->
  to_bytes (bits_value (BitArray_bin bs)) (length (BitArray_bin bs) / 8)
  = OK bs.
Proof.
  intros H. rewrite length_BitArray_bin.
  rewrite Nat.mul_comm, Nat.div_mul by discriminate.
  unfold to_bytes.
  assert (Hlt : bits_value (BitArray_bin bs) < 256 ^ N.of_nat (length bs)).
  { pose proof (bits_value_bound (BitArray_bin bs)) as Hb.
    rewrite length_BitArray_bin, Nat2N.inj_mul, N.pow_mul_r in Hb.
    exact Hb. }
  apply N.ltb_lt in Hlt. rewrite Hlt.
  now rewrite bytes_be_BitArray_bin.
Qed.

(** ** [format] *)

Lemma bits_value_pos_bits (p : positive) :
  bits_value (rev (pos_bits_le p)) = Npos p.
Proof.
  induction p as [p IH | p IH |]; cbn [pos_bits_le rev];
    try rewrite bits_value_app, IH; cbn; try lia.
Qed.

Lemma pos_bits_le_size (p : positive) :
  2 ^ N.of_nat (length (pos_bits_le p)) <= 2 * Npos p.
Proof.
  induction p as [p IH | p IH |]; cbn [pos_bits_le length];
    rewrite Nat2N.inj_succ, N.pow_succ_r'; lia.
Qed.

Lemma format_b_spec (w : nat) (n : N) :
  n < 2 ^ N.of_nat w -> (0 < w)%nat ->
  length (format_b w n) = w /\ bits_value (format_b w n) = n.
Proof.
  intros Hn Hw. unfold format_b.
  rewrite length_app, repeat_length, bits_value_zeros_app.
  destruct n as [|p].
  - cbn [length]. split; [lia | reflexivity].
  - unfold bin_digits. rewrite length_rev, bits_value_pos_bits.
    split; [|reflexivity].
    enough (length (pos_bits_le p) <= w)%nat by lia.
    pose proof (pos_bits_le_size p) as Hs.
    destruct (Nat.le_gt_cases (length (pos_bits_le p)) w) as [|Hgt];
      [assumption|exfalso].
    assert (2 ^ N.of_nat (S w) <= 2 ^ N.of_nat (length (pos_bits_le p))).
    { apply N.pow_le_mono_r; lia. }
    rewrite Nat2N.inj_succ, N.pow_succ_r' in H. lia.
Qed.

(** ** Framing and padding *)

Lemma pad_count_range (s : bits) : 1 <= pad_count s <= 8.
Proof.
  unfold pad_count.
  pose proof (N.mod_upper_bound (N.of_nat (length s)) 8 ltac:(lia)) as Hu.
  set (r := N.of_nat (length s) mod 8) in *. clearbody r. lia.
Qed.

Lemma format_b_pad_count (s : bits) :
  length (format_b 8 (pad_count s)) = 8%nat
  /\ bits_value (format_b 8 (pad_count s)) = pad_count s.
Proof.
  apply format_b_spec; [|lia].
  pose proof (pad_count_range s). change (2 ^ N.of_nat 8) with 256. lia.
Qed.

Lemma pad_encoded_text_tree_eq (s : bits) :
  pad_encoded_text_tree s
  = format_b 8 (pad_count s) ++ s ++ repeat false (N.to_nat (pad_count s)).
Proof. reflexivity. Qed.

Lemma length_pad_encoded_text_tree (s : bits) :
  (length (pad_encoded_text_tree s) mod 8 = 0)%nat.
Proof.
  rewrite pad_encoded_text_tree_eq, !length_app, repeat_length.
  destruct (format_b_pad_count s) as [-> _].
  unfold pad_count.
  pose proof (N.mod_upper_bound (N.of_nat (length s)) 8 ltac:(lia)) as Hu.
  pose proof (N.div_mod (N.of_nat (length s)) 8 ltac:(lia)) as Hd.
  set (q := N.of_nat (length s) / 8) in *.
  set (r := N.of_nat (length s) mod 8) in *.
  replace (8 + (length s + N.to_nat (8 - r)))%nat
    with (0 + (N.to_nat q + 2) * 8)%nat by lia.
  now rewrite Nat.Div0.mod_add.
Qed.

Lemma remove_padding_bits_pad (s : bits) :
  remove_padding_bits (pad_encoded_text_tree s) = OK s.
Proof.
  unfold remove_padding_bits. rewrite pad_encoded_text_tree_eq.
  destruct (format_b_pad_count s) as [Hl Hv].
  unfold slice_to, slice_from.
  rewrite firstn_app_length, skipn_app_length by exact Hl.
  rewrite int2_OK, Hv by (rewrite Hl; discriminate). cbn [bind OK]. f_equal.
  rewrite <- (repeat_length false (N.to_nat (pad_count s))) at 1.
  apply slice_to_neg_app.
  pose proof (pad_count_range s).
  destruct (N.to_nat (pad_count s)) eqn:E'; [lia | discriminate].
Qed.

Lemma get_encoded_text_mapping_frame (encoded_text encoded_tree : bits) :
  encoded_tree <> [] -> N.of_nat (length encoded_tree) < 65536 ->
  get_encoded_text_mapping (encode_text_tree encoded_text encoded_tree)
  = OK (encoded_text, encoded_tree).
Proof.
  intros Hne Hlt. unfold get_encoded_text_mapping, encode_text_tree.
  destruct (format_b_spec 16 (N.of_nat (length encoded_tree)))
    as [Hl Hv]; [exact Hlt | lia |].
  unfold slice_to, slice_from.
  rewrite firstn_app_length, skipn_app_length by exact Hl.
  rewrite int2_OK, Hv by (rewrite Hl; discriminate).
  cbn [bind OK]. rewrite Nat2N.id.
  now rewrite slice_from_neg_app, slice_to_neg_app.
Qed.

Lemma decompress_frame (encoded_text encoded_tree : bits) :
  encoded_tree <> [] -> N.of_nat (length encoded_tree) < 65536 ->
  decompress
    (tofile (pad_encoded_text_tree
               (encode_text_tree encoded_text encoded_tree)))
  = (reverse_mapping_dict <- decode_mapping encoded_tree ;;
     decode_bits encoded_text reverse_mapping_dict).
Proof.
  intros Hne Hlt. unfold decompress.
  rewrite BitArray_bin_tofile by apply length_pad_encoded_text_tree.
  rewrite remove_padding_bits_pad. cbn [bind OK].
  now rewrite get_encoded_text_mapping_frame.
Qed.

(** ** Dictionaries *)

Section Dict.
Context {K V : Type} `{Eqb K}.

Lemma eqb_refl (k : K) : eqb k k = true.
Proof. now apply eqb_eq. Qed.

Lemma eqb_true (k k' : K) : eqb k k' = true -> k = k'.
Proof. apply eqb_eq. Qed.

Lemma eqb_neq (k k' : K) : k <> k' -> eqb k k' = false.
Proof.
  intros Hn. destruct (eqb k k') eqn:E; [|reflexivity].
  apply eqb_true in E. contradiction.
Qed.

Lemma eqb_false (k k' : K) : eqb k k' = false -> k <> k'.
Proof. intros E <-. rewrite eqb_refl in E. discriminate. Qed.

Lemma dict_get_In (k : K) (v : V) (d : dict K V) :
  dict_get k d = Some v -> In (k, v) d.
Proof.
  induction d as [|[k' v'] d IH]; simpl; [discriminate|].
  destruct (eqb k k') eqn:E.
  - apply eqb_true in E. intros [= ->]. left. now subst.
  - auto.
Qed.

Lemma dict_get_None (k : K) (d : dict K V) :
  dict_get k d = None <-> ~ In k (map fst d).
Proof.
  induction d as [|[k' v'] d IH]; simpl; [tauto|].
  destruct (eqb k k') eqn:E.
  - apply eqb_true in E. split; [discriminate | intros Hn; elim Hn; auto].
  - apply eqb_false in E. rewrite IH. split; [intros Hn [E'|Hi] | ]; auto.
Qed.

Lemma In_dict_get (k : K) (v : V) (d : dict K V) :
  NoDup (map fst d) -> In (k, v) d -> dict_get k d = Some v.
Proof.
  induction d as [|[k' v'] d IH]; simpl; [tauto|].
  intros Hnd [E|Hi]; inversion Hnd as [|? ? Hni Hnd']; subst.
  - injection E as -> ->. now rewrite eqb_refl.
  - rewrite eqb_neq; [auto|].
    intros ->. apply Hni. apply in_map_iff. now exists (k', v).
Qed.

Lemma dict_set_fresh (k : K) (v : V) (d : dict K V) :
  dict_get k d = None -> dict_set k v d = d ++ [(k, v)].
Proof.
  induction d as [|[k' v'] d IH]; simpl; [reflexivity|].
  destruct (eqb k k'); [discriminate|]. intros E. now rewrite IH.
Qed.

Lemma dict_get_set_same (k : K) (v : V) (d : dict K V) :
  dict_get k (dict_set k v d) = Some v.
Proof.
  induction d as [|[k' v'] d IH]; simpl.
  - now rewrite eqb_refl.
  - destruct (eqb k k') eqn:E; simpl; rewrite E; auto.
Qed.

Lemma dict_get_set_other (k k' : K) (v : V) (d : dict K V) :
  k <> k' -> dict_get k' (dict_set k v d) = dict_get k' d.
Proof.
  intros Hn. induction d as [|[k1 v1] d IH]; simpl.
  - rewrite eqb_neq; auto.
  - destruct (eqb k k1) eqn:E; simpl.
    + apply eqb_true in E. subst k1. rewrite eqb_neq; auto.
    + now rewrite IH.
Qed.

Lemma keys_dict_set (k : K) (v : V) (d : dict K V) :
  map fst (dict_set k v d)
  = if dict_in k d then map fst d else map fst d ++ [k].
Proof.
  unfold dict_in. induction d as [|[k' v'] d IH]; simpl; [reflexivity|].
  destruct (eqb k k') eqn:E; simpl; [reflexivity|].
  rewrite IH. now destruct (dict_get k d).
Qed.

Lemma NoDup_keys_dict_set (k : K) (v : V) (d : dict K V) :
  NoDup (map fst d) -> NoDup (map fst (dict_set k v d)).
Proof.
  intros Hnd. rewrite keys_dict_set. unfold dict_in.
  destruct (dict_get k d) eqn:E; [assumption|].
  apply dict_get_None in E.
  apply NoDup_app; [assumption | repeat constructor; auto |].
  intros x Hx [<-|[]]. contradiction.
Qed.

Lemma In_dict_set (k k' : K) (v v' : V) (d : dict K V) :
  In (k', v') (dict_set k v d) -> In (k', v') d \/ (k', v') = (k, v).
Proof.
  induction d as [|[k1 v1] d IH]; simpl.
  - intros [E|[]]. now right.
  - destruct (eqb k k1) eqn:E; simpl.
    + apply eqb_true in E. subst k1. intros [E'|Hi]; auto.
    + intros [E'|Hi]; auto. apply IH in Hi. tauto.
Qed.

Lemma dict_of_pairs_fold (pairs : list (K * V)) (d : dict K V) :
  NoDup (map fst (d ++ pairs)) ->
  fold_left (fun d kv => dict_set (fst kv) (snd kv) d) pairs d = d ++ pairs.
Proof.
  revert d. induction pairs as [|[k v] pairs IH]; intros d Hnd; simpl.
  - now rewrite app_nil_r.
  - rewrite dict_set_fresh.
    + rewrite IH; rewrite <- app_assoc; [reflexivity | exact Hnd].
    + apply dict_get_None. rewrite map_app in Hnd. simpl in Hnd.
      apply NoDup_remove_2 in Hnd. intros Hi. apply Hnd, in_or_app. auto.
Qed.

Lemma dict_of_pairs_NoDup (pairs : list (K * V)) :
  NoDup (map fst pairs) -> dict_of_pairs pairs = pairs.
Proof. intros Hnd. apply (dict_of_pairs_fold pairs []). exact Hnd. Qed.

End Dict.

(** ** Trees and code tables *)

Lemma Mapping_map_codes (root : TreeNode) (bit_code : bits) (m : Mapping) :
  Mapping_map root bit_code m = fold_left add_code (codes_of root bit_code) m.
Proof.
  revert bit_code m. induction root as [f c l r IHl IHr] using TreeNode_ind.
  intros p m. destruct c as [c|]; [reflexivity|].
  cbn [Mapping_map codes_of]. rewrite fold_left_app.
  destruct l as [l|], r as [r|]; cbn [option_all] in *;
    rewrite ?IHl, ?IHr; reflexivity.
Qed.

Lemma mapping_dict_fold (L : list (char * bits)) (m : Mapping) :
  mapping_dict (fold_left add_code L m)
  = fold_left (fun d ck => dict_set (fst ck) (snd ck) d) L (mapping_dict m).
Proof.
  revert m. induction L as [|ck L IH]; intros m; [reflexivity|].
  cbn [fold_left]. now rewrite IH.
Qed.

Lemma reverse_mapping_dict_fold (L : list (char * bits)) (m : Mapping) :
  reverse_mapping_dict (fold_left add_code L m)
  = fold_left (fun d ck => dict_set (snd ck) (fst ck) d) L
      (reverse_mapping_dict m).
Proof.
  revert m. induction L as [|ck L IH]; intros m; [reflexivity|].
  cbn [fold_left]. now rewrite IH.
Qed.

Lemma mapping_dict_NoDup (L : list (char * bits)) :
  NoDup (map fst L) ->
  mapping_dict (fold_left add_code L Mapping_init) = L.
Proof.
  intros Hnd. rewrite mapping_dict_fold. now apply dict_of_pairs_NoDup.
Qed.

Lemma reverse_mapping_dict_NoDup (L : list (char * bits)) :
  NoDup (map snd L) ->
  reverse_mapping_dict (fold_left add_code L Mapping_init) = map swap L.
Proof.
  intros Hnd. rewrite reverse_mapping_dict_fold.
  rewrite <- (dict_of_pairs_NoDup (map swap L)).
  - unfold dict_of_pairs. cbn [reverse_mapping_dict Mapping_init].
    generalize (@nil (bits * char)).
    induction L as [|ck L IH]; intros d; [reflexivity|].
    cbn [fold_left map]. inversion Hnd; subst. now rewrite IH.
  - rewrite map_map. exact Hnd.
Qed.

Lemma In_mapping_dict_fold (L : list (char * bits)) (m : Mapping) c k :
  In (c, k) (mapping_dict (fold_left add_code L m)) ->
  In (c, k) (mapping_dict m) \/ In (c, k) L.
Proof.
  revert m. induction L as [|[c' k'] L IH]; intros m; cbn [fold_left].
  - auto.
  - intros Hi. apply IH in Hi as [Hi|Hi]; [|right; now right].
    cbn [add_code mapping_dict fst snd] in Hi.
    apply In_dict_set in Hi as [Hi|Hi]; [now left | right; left; now symmetry].
Qed.

(** *** Prefixes *)

Lemma prefix_refl (a : bits) : prefix a a.
Proof. exists []. now rewrite app_nil_r. Qed.

Lemma prefix_trans (a b c : bits) : prefix a b -> prefix b c -> prefix a c.
Proof. intros [r ->] [r' ->]. exists (r ++ r'). now rewrite app_assoc. Qed.

Lemma prefix_app (a r : bits) : prefix a (a ++ r).
Proof. now exists r. Qed.

Lemma prefix_length (a b : bits) : prefix a b -> (length a <= length b)%nat.
Proof. intros [r ->]. rewrite length_app. lia. Qed.

(** Two extensions of [p] by different bits have no common extension. *)
Lemma prefix_fork (p a b : bits) (x y : bool) :
  x <> y -> prefix (p ++ [x]) a -> prefix (p ++ [y]) b -> ~ prefix a b.
Proof.
  intros Hxy [r ->] [r' ->] [r'' E].
  rewrite <- !app_assoc in E. apply app_inv_head in E.
  injection E as E _. congruence.
Qed.

Lemma codes_of_prefix (root : TreeNode) (p : bits) c k :
  In (c, k) (codes_of root p) -> prefix p k.
Proof.
  revert p. induction root as [f ch l r IHl IHr] using TreeNode_ind.
  intros p. destruct ch as [ch|]; cbn [codes_of].
  - intros [[= _ <-]|[]]. apply prefix_refl.
  - intros Hi. apply in_app_or in Hi as [Hi|Hi].
    + destruct l as [l|]; [|contradiction]. apply IHl in Hi.
      eapply prefix_trans; [apply prefix_app | exact Hi].
    + destruct r as [r|]; [|contradiction]. apply IHr in Hi.
      eapply prefix_trans; [apply prefix_app | exact Hi].
Qed.

Lemma ForallOrdPairs_app {A} (R : A -> A -> Prop) (l1 l2 : list A) :
  ForallOrdPairs R l1 -> ForallOrdPairs R l2 ->
  (forall x y, In x l1 -> In y l2 -> R x y) ->
  ForallOrdPairs R (l1 ++ l2).
Proof.
  intros H1 H2 H12. induction H1 as [|x l1 Hx H1 IH]; [exact H2|].
  cbn [app]. constructor.
  - apply Forall_app. split; [exact Hx|].
    apply Forall_forall. intros y Hy. apply H12; [now left | exact Hy].
  - apply IH. intros a b Ha. apply H12. now right.
Qed.

Lemma codes_of_incomparable (root : TreeNode) (p : bits) :
  ForallOrdPairs incomparable (codes_of root p).
Proof.
  revert p. induction root as [f ch l r IHl IHr] using TreeNode_ind.
  intros p. destruct ch as [ch|]; cbn [codes_of].
  - repeat constructor.
  - apply ForallOrdPairs_app.
    + destruct l as [l|]; [apply IHl | constructor].
    + destruct r as [r|]; [apply IHr | constructor].
    + intros [c1 k1] [c2 k2] H1 H2.
      destruct l as [l|]; [|contradiction].
      destruct r as [r|]; [|contradiction].
      apply codes_of_prefix in H1. apply codes_of_prefix in H2.
      split; cbn [snd].
      * apply (prefix_fork p k1 k2 false true); [discriminate | |]; assumption.
      * apply (prefix_fork p k2 k1 true false); [discriminate | |]; assumption.
Qed.

Lemma codes_of_prefix_eq (root : TreeNode) (p : bits) c1 k1 c2 k2 :
  In (c1, k1) (codes_of root p) -> In (c2, k2) (codes_of root p) ->
  prefix k1 k2 -> (c1, k1) = (c2, k2).
Proof.
  intros H1 H2 Hp.
  destruct (ForallOrdPairs_In (codes_of_incomparable root p) _ _ H1 H2)
    as [E|[[Hn _]|[_ Hn]]]; [exact E | |]; cbn [snd] in Hn; contradiction.
Qed.

Lemma codes_of_prefix_free (root : TreeNode) (p : bits) :
  prefix_free (map snd (codes_of root p)).
Proof.
  intros a b Ha Hb Hp.
  apply in_map_iff in Ha as [[c1 k1] [<- Ha]].
  apply in_map_iff in Hb as [[c2 k2] [<- Hb]].
  cbn [snd] in *. now injection (codes_of_prefix_eq _ _ _ _ _ _ Ha Hb Hp).
Qed.

Lemma prefix_free_NoDup (L : list (char * bits)) :
  ForallOrdPairs incomparable L -> NoDup (map snd L).
Proof.
  induction 1 as [|x l Hx _ IH]; cbn [map]; constructor; [|exact IH].
  intros Hi. apply in_map_iff in Hi as [y [E Hy]].
  rewrite Forall_forall in Hx. destruct (Hx y Hy) as [Hn _].
  apply Hn. rewrite E. apply prefix_refl.
Qed.

Lemma codes_of_NoDup (root : TreeNode) (p : bits) :
  NoDup (map snd (codes_of root p)).
Proof. apply prefix_free_NoDup, codes_of_incomparable. Qed.

Lemma symbols_codes_of (root : TreeNode) (p : bits) :
  map fst (codes_of root p) = symbols root.
Proof.
  unfold symbols. generalize (@nil bool). revert p.
  induction root as [f ch l r IHl IHr] using TreeNode_ind.
  intros p q. destruct ch as [ch|]; cbn [codes_of]; [reflexivity|].
  rewrite !map_app. f_equal.
  - destruct l as [l|]; [apply IHl | reflexivity].
  - destruct r as [r|]; [apply IHr | reflexivity].
Qed.

(** ** The frequency table *)

Lemma build_frequency_fold (text : str) :
  build_frequency text = fold_left count_step text [].
Proof. reflexivity. Qed.

Lemma keys_count_step (d : dict char N) (c : char) :
  map fst (count_step d c)
  = if dict_in c d then map fst d else map fst d ++ [c].
Proof.
  unfold count_step, dict_in.
  destruct (dict_get c d) eqn:E; rewrite keys_dict_set; unfold dict_in;
    now rewrite E.
Qed.

Lemma count_step_keys (text : str) (d : dict char N) :
  NoDup (map fst d) ->
  NoDup (map fst (fold_left count_step text d))
  /\ forall c, In c (map fst (fold_left count_step text d))
               <-> In c (map fst d) \/ In c text.
Proof.
  revert d. induction text as [|x text IH]; intros d Hnd; cbn [fold_left].
  - split; [assumption | intros c; cbn; tauto].
  - assert (Hnd' : NoDup (map fst (count_step d x))).
    { unfold count_step. destruct (dict_get x d);
        now apply NoDup_keys_dict_set. }
    destruct (IH _ Hnd') as [H1 H2]. split; [exact H1|].
    intros c. rewrite H2, keys_count_step. unfold dict_in.
    destruct (dict_get x d) eqn:E; cbn [In].
    + apply dict_get_In in E.
      assert (In x (map fst d)) by (apply in_map_iff; now exists (x, n)).
      split; [tauto | intros [?|[<-|?]]; auto].
    + rewrite in_app_iff. cbn [In]. tauto.
Qed.

Lemma build_frequency_keys (text : str) :
  NoDup (map fst (build_frequency text))
  /\ forall c, In c (map fst (build_frequency text)) <-> In c text.
Proof.
  destruct (count_step_keys text [] (NoDup_nil _)) as [H1 H2].
  split; [exact H1|]. intros c. rewrite build_frequency_fold, H2.
  cbn; tauto.
Qed.

Lemma insert_desc_Permutation {K} (x : K * N) (l : list (K * N)) :
  Permutation (insert_desc x l) (x :: l).
Proof.
  induction l as [|y l IH]; cbn [insert_desc]; [reflexivity|].
  destruct (snd x <? snd y); [|reflexivity].
  rewrite IH. apply perm_swap.
Qed.

Lemma sorted_desc_Permutation {K} (items : list (K * N)) :
  Permutation (sorted_desc items) items.
Proof.
  induction items as [|x items IH]; cbn; [reflexivity|].
  rewrite insert_desc_Permutation. now constructor.
Qed.

Lemma sorted_frequency_eq (text : str) :
  sorted_frequency text = sorted_desc (build_frequency text).
Proof.
  apply dict_of_pairs_NoDup.
  destruct (build_frequency_keys text) as [Hnd _].
  eapply Permutation_NoDup; [|exact Hnd].
  apply Permutation_map. symmetry. apply sorted_desc_Permutation.
Qed.

Lemma sorted_frequency_keys (text : str) :
  NoDup (map fst (sorted_frequency text))
  /\ forall c, In c (map fst (sorted_frequency text)) <-> In c text.
Proof.
  rewrite sorted_frequency_eq.
  destruct (build_frequency_keys text) as [Hnd Hin].
  assert (Hp : Permutation (map fst (sorted_desc (build_frequency text)))
                 (map fst (build_frequency text)))
    by apply Permutation_map, sorted_desc_Permutation.
  split.
  - eapply Permutation_NoDup; [symmetry; exact Hp | exact Hnd].
  - intros c. rewrite <- Hin. split; apply Permutation_in;
      [exact Hp | symmetry; exact Hp].
Qed.

(** ** [build_huffman_tree] *)

Lemma merge_step_snoc (stack : list TreeNode) (node_2 node_1 : TreeNode) :
  merge_step (stack ++ [node_2; node_1])
  = OK (mkTreeNode (freq node_1 + freq node_2) None
          (Some node_1) (Some node_2) :: stack).
Proof.
  unfold merge_step.
  replace (stack ++ [node_2; node_1]) with ((stack ++ [node_2]) ++ [node_1])
    by now rewrite <- app_assoc.
  rewrite pop_app. cbn [bind OK]. now rewrite pop_app.
Qed.

Lemma two_last {A} (l : list A) :
  (2 <= length l)%nat -> exists l' y x, l = l' ++ [y; x].
Proof.
  intros Hl. destruct l as [|x l] using rev_ind; [simpl in Hl; lia|].
  clear IHl. destruct l as [|y l] using rev_ind.
  - simpl in Hl. lia.
  - exists l, y, x. now rewrite <- app_assoc.
Qed.

Lemma symbols_merged f (node_1 node_2 : TreeNode) :
  symbols (mkTreeNode f None (Some node_1) (Some node_2))
  = symbols node_1 ++ symbols node_2.
Proof.
  unfold symbols at 1. cbn [codes_of]. rewrite map_app.
  now rewrite !symbols_codes_of.
Qed.

(** The loop ends with one node, which holds the symbols of the stack it
    started from; a node built by the loop is a merged one. *)
Lemma build_huffman_loop_spec (fuel : nat) (stack : list TreeNode) :
  stack <> [] -> (length stack <= S fuel)%nat ->
  exists root,
    build_huffman_loop fuel stack = OK [root]
    /\ Permutation (symbols root) (flat_map symbols stack)
    /\ ((2 <= length stack)%nat ->
        exists f l r, root = mkTreeNode f None (Some l) (Some r)).
Proof.
  revert stack. induction fuel as [|fuel IH]; intros stack Hne Hlen.
  - destruct stack as [|t [|t' stack]]; [congruence | | simpl in Hlen; lia].
    exists t. cbn. rewrite app_nil_r. repeat split; [reflexivity | lia].
  - cbn [build_huffman_loop].
    destruct (1 <? length stack)%nat eqn:E.
    + apply Nat.ltb_lt in E.
      destruct (two_last stack E) as (s & n2 & n1 & ->).
      rewrite merge_step_snoc. cbn [bind].
      rewrite length_app in Hlen. cbn [length] in Hlen.
      destruct (IH (mkTreeNode (freq n1 + freq n2) None (Some n1) (Some n2)
                      :: s)) as (root & Hr & Hp & Hm);
        [discriminate | cbn [length]; lia |].
      exists root. split; [exact Hr|]. split.
      * rewrite Hp. cbn [flat_map]. rewrite symbols_merged, flat_map_app.
        cbn [flat_map]. rewrite app_nil_r.
        etransitivity; [apply Permutation_app_comm|].
        apply Permutation_app_head, Permutation_app_comm.
      * intros _. destruct s as [|t s].
        -- destruct fuel; cbn in Hr; injection Hr as <-; eauto.
        -- apply Hm. cbn [length]. lia.
    + apply Nat.ltb_ge in E.
      destruct stack as [|t [|t' stack]]; [congruence | | simpl in E; lia].
      exists t. cbn. rewrite app_nil_r. repeat split; [reflexivity | lia].
Qed.

Lemma build_huffman_tree_spec (stack : list TreeNode) :
  stack <> [] ->
  exists root,
    build_huffman_tree stack = OK [root]
    /\ Permutation (symbols root) (flat_map symbols stack)
    /\ ((2 <= length stack)%nat ->
        exists f l r, root = mkTreeNode f None (Some l) (Some r)).
Proof.
  intros Hne. apply build_huffman_loop_spec; [exact Hne | lia].
Qed.

Lemma symbols_leaves_of (frequency : dict char N) :
  flat_map symbols (leaves_of frequency) = map fst frequency.
Proof.
  induction frequency as [|[c n] d IH]; [reflexivity|].
  cbn [leaves_of map flat_map]. fold (leaves_of d). now rewrite IH.
Qed.

(** ** JSON: what [json.dumps] writes, [json.loads] reads back *)

Ltac euclid := zify; Z.to_euclidean_division_equations; lia.

Lemma lor_add (a b k : N) : b < 2 ^ k -> N.lor (a * 2 ^ k) b = a * 2 ^ k + b.
Proof.
  intros Hb. rewrite <- N.shiftl_mul_pow2.
  assert (Hd : N.land (N.shiftl a k) b = 0).
  { apply N.bits_inj; intros i; rewrite N.land_spec, N.bits_0.
    destruct (N.lt_ge_cases i k) as [Hi|Hi].
    - rewrite N.shiftl_spec_low by assumption; reflexivity.
    - destruct (N.eq_dec b 0) as [->|Hb0];
        [rewrite N.bits_0; apply andb_false_r|].
      rewrite (N.bits_above_log2 b i); [apply andb_false_r|].
      eapply N.lt_le_trans; [|exact Hi].
      apply N.log2_lt_pow2; [lia|exact Hb]. }
  rewrite <- N.lxor_lor by exact Hd. symmetry. now apply N.add_nocarry_lxor.
Qed.

Lemma hex_value_hex_char (d : N) : d < 16 -> hex_value (hex_char d) = Some d.
Proof.
  intros Hd. destruct d as [|p]; [reflexivity|].
  do 4 (try destruct p as [p|p|]); try reflexivity; exfalso; lia.
Qed.

Lemma hex_char_ascii (d : N) : d < 16 -> hex_char d < 128.
Proof. unfold hex_char. destruct (d <? 10); lia. Qed.

Lemma hex4_value_hex4 (n : N) :
  n < 65536 ->
  hex4_value (hex_char (n / 4096 mod 16)) (hex_char (n / 256 mod 16))
    (hex_char (n / 16 mod 16)) (hex_char (n mod 16)) = Some n.
Proof.
  intros Hn. unfold hex4_value.
  rewrite !hex_value_hex_char by (apply N.mod_upper_bound; discriminate).
  f_equal. euclid.
Qed.

Lemma scanstring_quote (rest : str) : scanstring (QUOTE :: rest) = OK ([], rest).
Proof. reflexivity. Qed.

Lemma scanstring_plain (c : char) (r : str) :
  32 <= c -> c <> QUOTE -> c <> BACKSLASH ->
  scanstring (c :: r) = ('(v, rest) <- scanstring r ;; OK (c :: v, rest)).
Proof.
  intros H1 H2 H3. cbn [scanstring].
  apply N.eqb_neq in H2, H3. rewrite H2, H3.
  replace (c <=? 31) with false by (symmetry; apply N.leb_gt; lia).
  reflexivity.
Qed.

(** A [\uXXXX] escape that ends the string. *)
Lemma scanstring_u (h1 h2 h3 h4 u : N) (rest : str) :
  hex4_value h1 h2 h3 h4 = Some u ->
  scanstring (BACKSLASH :: LOWER_u :: h1 :: h2 :: h3 :: h4 :: QUOTE :: rest)
  = OK ([u], rest).
Proof.
  intros Hh. cbn [scanstring].
  change (BACKSLASH =? QUOTE) with false.
  change (BACKSLASH =? BACKSLASH) with true.
  change (LOWER_u =? LOWER_u) with true.
  cbv iota. rewrite Hh.
  change (QUOTE =? QUOTE) with true. change (QUOTE =? BACKSLASH) with false.
  cbn [andb bind OK].
  destruct (in_range 55296 56319 u); [|reflexivity].
  destruct rest as [|y [|g1 [|g2 [|g3 [|g4 [|z r4]]]]]]; reflexivity.
Qed.

(** A surrogate pair that ends the string. *)
Lemma scanstring_pair (h1 h2 h3 h4 g1 g2 g3 g4 u u2 : N) (rest : str) :
  hex4_value h1 h2 h3 h4 = Some u -> in_range 55296 56319 u = true ->
  hex4_value g1 g2 g3 g4 = Some u2 -> in_range 56320 57343 u2 = true ->
  scanstring (BACKSLASH :: LOWER_u :: h1 :: h2 :: h3 :: h4
              :: BACKSLASH :: LOWER_u :: g1 :: g2 :: g3 :: g4 :: QUOTE :: rest)
  = OK ([65536 + N.lor (N.shiftl (u - 55296) 10) (u2 - 56320)], rest).
Proof.
  intros Hh Hu Hg Hu2. cbn [scanstring].
  change (BACKSLASH =? QUOTE) with false.
  change (BACKSLASH =? BACKSLASH) with true.
  change (LOWER_u =? LOWER_u) with true.
  cbv iota. rewrite Hh, Hu. cbn [andb]. rewrite Hg, Hu2.
  change (QUOTE =? QUOTE) with true. reflexivity.
Qed.

Lemma surrogate_pair_join (c : N) :
  65536 <= c < 1114112 ->
  let n := c - 65536 in
  let s1 := N.lor 55296 (N.land (N.shiftr n 10) 1023) in
  let s2 := N.lor 56320 (N.land n 1023) in
  s1 < 65536 /\ s2 < 65536
  /\ in_range 55296 56319 s1 = true /\ in_range 56320 57343 s2 = true
  /\ 65536 + N.lor (N.shiftl (s1 - 55296) 10) (s2 - 56320) = c.
Proof.
  intros Hc n s1 s2. subst s1 s2.
  change 1023 with (N.ones 10). rewrite !N.land_ones, N.shiftr_div_pow2.
  change 55296 with (54 * 2 ^ 10). change 56320 with (55 * 2 ^ 10).
  rewrite !lor_add by (apply N.mod_upper_bound; discriminate).
  rewrite !(N.add_comm (_ * 2 ^ 10)), !N.add_sub, N.shiftl_mul_pow2.
  rewrite lor_add by (apply N.mod_upper_bound; discriminate).
  change (2 ^ 10) with 1024. unfold in_range.
  rewrite !andb_true_iff, !N.leb_le. subst n. repeat split; euclid.
Qed.

Lemma scanstring_escape_char (c : char) (rest : str) :
  c < 1114112 ->
  scanstring (escape_char c ++ QUOTE :: rest) = OK ([c], rest).
Proof.
  intros Hc. unfold escape_char.
  repeat match goal with
         | |- context [if ?x =? ?y then _ else _] =>
             destruct (N.eqb_spec x y) as [->|?]; [reflexivity|]
         end.
  destruct ((32 <=? c) && (c <=? 126)) eqn:E.
  - apply andb_true_iff in E as [E _]. apply N.leb_le in E.
    cbn [app]. now rewrite scanstring_plain.
  - destruct (N.ltb_spec c 65536) as [Hlt|Hge].
    + cbn [app hex4]. now apply scanstring_u, hex4_value_hex4.
    + destruct (surrogate_pair_join c (conj Hge Hc))
        as (H1 & H2 & H3 & H4 & H5).
      cbn [app hex4].
      erewrite scanstring_pair; eauto using hex4_value_hex4.
      now rewrite H5.
Qed.

Lemma escape_char_ascii (c : char) : Forall (fun x => x < 128) (escape_char c).
Proof.
  assert (Hh : forall n, Forall (fun x => x < 128) (hex4 n)).
  { intros n. unfold hex4.
    repeat constructor; apply hex_char_ascii, N.mod_upper_bound; discriminate. }
  unfold escape_char.
  repeat match goal with
         | |- context [if ?x =? ?y then _ else _] =>
             destruct (N.eqb_spec x y) as [->|?];
             [repeat constructor; reflexivity|]
         end.
  destruct ((32 <=? c) && (c <=? 126)) eqn:E.
  - apply andb_true_iff in E as [_ E]. apply N.leb_le in E.
    repeat constructor. lia.
  - destruct (c <? 65536).
    + do 2 (constructor; [reflexivity|]). apply Hh.
    + apply Forall_app.
      split; do 2 (constructor; [reflexivity|]); apply Hh.
Qed.

Lemma bin_str_inj (a b : bits) : bin_str a = bin_str b -> a = b.
Proof.
  revert b. induction a as [|x a IH]; intros [|y b]; cbn; try discriminate;
    [reflexivity|].
  intros E. injection E as E1 E2. f_equal; [|now apply IH].
  destruct x, y; try reflexivity; discriminate.
Qed.

Lemma escape_bin_str (code : bits) :
  flat_map escape_char (bin_str code) = bin_str code.
Proof.
  induction code as [|[] code IH]; cbn [bin_str map flat_map]; [reflexivity| |];
    fold (bin_str code); rewrite IH; reflexivity.
Qed.

Lemma scanstring_bin_str (code : bits) (rest : str) :
  scanstring (bin_str code ++ QUOTE :: rest) = OK (bin_str code, rest).
Proof.
  induction code as [|b code IH]; [reflexivity|].
  cbn [bin_str map app]. fold (bin_str code).
  rewrite scanstring_plain, IH by (destruct b; (lia || discriminate)).
  reflexivity.
Qed.

Lemma skip_ws_space (s : str) : skip_ws (SPACE :: s) = skip_ws s.
Proof. reflexivity. Qed.

Lemma skip_ws_other (c : char) (s : str) :
  is_ws c = false -> skip_ws (c :: s) = c :: s.
Proof. intros E. cbn [skip_ws]. now rewrite E. Qed.

Lemma dumps_items_cons (k : bits) (c : char) (rd : dict bits char) :
  dumps_items (py_reverse_dict ((k, c) :: rd))
  = QUOTE :: bin_str k ++ QUOTE :: COLON :: SPACE :: QUOTE
      :: escape_char c ++ QUOTE
      :: match rd with
         | [] => []
         | _ => COMMA :: SPACE :: dumps_items (py_reverse_dict rd)
         end.
Proof.
  cbn [py_reverse_dict map dumps_items fst snd].
  unfold py_encode_basestring_ascii.
  rewrite escape_bin_str. cbn [flat_map]. rewrite app_nil_r.
  cbn [app]. f_equal. rewrite <- app_assoc. cbn [app]. do 5 f_equal.
  rewrite <- app_assoc. cbn [app]. do 2 f_equal.
  now destruct rd.
Qed.

Lemma dumps_items_quote (rd : dict bits char) :
  rd <> [] -> exists s, dumps_items (py_reverse_dict rd) = QUOTE :: s.
Proof.
  destruct rd as [|[k c] rd]; [congruence|]. intros _.
  rewrite dumps_items_cons. eauto.
Qed.

Lemma object_members_step (fuel : nat) (k : bits) (c : char) (tail : str)
    (pairs : dict str json) :
  c < 1114112 ->
  object_members (S (S fuel))
    (QUOTE :: bin_str k ++ QUOTE :: COLON :: SPACE :: QUOTE
       :: escape_char c ++ QUOTE :: tail) pairs
  = match skip_ws tail with
    | [] => Raise JSONDecodeError
    | c4 :: r4 =>
        if c4 =? RBRACE
        then OK (JObject (dict_set (bin_str k) (JString [c]) pairs), r4)
        else if c4 =? COMMA
        then object_members (S fuel) (skip_ws r4)
               (dict_set (bin_str k) (JString [c]) pairs)
        else Raise JSONDecodeError
    end.
Proof.
  intros Hc. cbn [object_members].
  change (QUOTE =? QUOTE) with true. cbv iota.
  rewrite scanstring_bin_str. cbn [bind OK].
  rewrite (skip_ws_other COLON) by reflexivity.
  change (COLON =? COLON) with true. cbv iota.
  rewrite skip_ws_space, (skip_ws_other QUOTE) by reflexivity.
  cbn [scan_once]. change (QUOTE =? QUOTE) with true. cbv iota.
  rewrite scanstring_escape_char by exact Hc. cbn [bind OK].
  reflexivity.
Qed.

Lemma object_members_dumps (rd : dict bits char) :
  rd <> [] -> Forall (fun kv => snd kv < 1114112) rd ->
  forall (fuel : nat) (pairs : dict str json) (rest : str),
    (length rd < fuel)%nat ->
    object_members fuel (dumps_items (py_reverse_dict rd) ++ RBRACE :: rest)
      pairs
    = OK (JObject
            (fold_left (fun d kv => dict_set (fst kv) (snd kv) d)
               (json_table rd) pairs), rest).
Proof.
  induction rd as [|[k c] rd IH]; [congruence|].
  intros _ Hv fuel pairs rest Hf.
  inversion Hv as [|? ? Hc Hv']; subst. cbn [snd] in Hc.
  destruct fuel as [|[|fuel]]; cbn [length] in Hf; try lia.
  rewrite dumps_items_cons. cbn [app]. rewrite <- app_assoc. cbn [app].
  rewrite <- app_assoc. cbn [app].
  rewrite object_members_step by exact Hc.
  destruct rd as [|kc rd].
  - cbn [app]. rewrite (skip_ws_other RBRACE) by reflexivity.
    change (RBRACE =? RBRACE) with true. reflexivity.
  - cbn [app]. rewrite (skip_ws_other COMMA) by reflexivity.
    change (COMMA =? RBRACE) with false. change (COMMA =? COMMA) with true.
    cbv iota. rewrite skip_ws_space.
    destruct (dumps_items_quote (kc :: rd)) as [s Hs]; [discriminate|].
    rewrite Hs. cbn [app]. rewrite (skip_ws_other QUOTE) by reflexivity.
    change (QUOTE :: s ++ RBRACE :: rest)
      with ((QUOTE :: s) ++ RBRACE :: rest).
    rewrite <- Hs, IH; [reflexivity | discriminate | exact Hv' |].
    cbn [length] in *. lia.
Qed.

Lemma length_dumps_items (rd : dict bits char) :
  (length rd <= length (dumps_items (py_reverse_dict rd)))%nat.
Proof.
  induction rd as [|[k c] rd IH]; [cbn; lia|].
  rewrite dumps_items_cons. cbn [length]. rewrite length_app. cbn [length].
  rewrite length_app. cbn [length].
  destruct rd; cbn [length] in *; lia.
Qed.

Lemma NoDup_json_table (rd : dict bits char) :
  NoDup (map fst rd) -> NoDup (map fst (json_table rd)).
Proof.
  intros Hnd. unfold json_table. rewrite map_map. cbn [fst].
  rewrite <- (map_map fst bin_str).
  apply Finite.Injective_map_NoDup; [|exact Hnd].
  intros a b. apply bin_str_inj.
Qed.

Lemma json_loads_dumps (rd : dict bits char) :
  rd <> [] -> NoDup (map fst rd) -> Forall (fun kv => snd kv < 1114112) rd ->
  json_loads (json_dumps (py_reverse_dict rd)) = OK (JObject (json_table rd)).
Proof.
  intros Hne Hnd Hv. unfold json_loads, json_dumps.
  cbn [app]. rewrite (skip_ws_other LBRACE) by reflexivity.
  cbn [scan_once length]. change (LBRACE =? QUOTE) with false.
  change (LBRACE =? LBRACE) with true. cbv iota.
  destruct (dumps_items_quote rd Hne) as [s Hs].
  rewrite Hs. cbn [app]. rewrite (skip_ws_other QUOTE) by reflexivity.
  change (QUOTE =? RBRACE) with false. cbv iota.
  change (QUOTE :: s ++ [RBRACE]) with ((QUOTE :: s) ++ [RBRACE]).
  rewrite <- Hs, object_members_dumps; try assumption.
  - cbn [bind OK skip_ws]. do 2 f_equal.
    apply (dict_of_pairs_NoDup (json_table rd)), NoDup_json_table, Hnd.
  - pose proof (length_dumps_items rd) as Hl.
    rewrite ?length_app. cbn [length].
    lia.
Qed.

(** ** The fuel of the scanner *)

(** Every scanner reads a character at least when it returns a value; with
    more than twice the length of the text as fuel, and one unit more for
    the loops, the fuel does not run out. *)
Lemma skip_ws_length (s : str) : (length (skip_ws s) <= length s)%nat.
Proof.
  induction s as [|c s IH]; cbn [skip_ws length]; [lia|].
  destruct (is_ws c); cbn [length]; lia.
Qed.

Lemma scanned_Raise {A} (s : str) :
  @scanned A s (Raise JSONDecodeError).
Proof. reflexivity. Qed.

Lemma scanned_le {A} (s s' : str) (res : result (A * str)) :
  scanned s' res -> (length s' <= length s)%nat -> scanned s res.
Proof. destruct res as [e|[v rest]]; cbn [scanned OK]; [trivial | lia]. Qed.

Lemma scanned_map {A B} (s : str) (res : result (A * str)) (f : A -> B) :
  scanned s res -> scanned s ('(v, rest) <- res ;; OK (f v, rest)).
Proof. destruct res as [e|[v rest]]; trivial. Qed.

Lemma scanstring_scanned_aux (n : nat) :
  forall s : str, (length s <= n)%nat -> scanned s (scanstring s).
Proof.
  induction n as [|n IH]; intros s Hn.
  - destruct s; [apply scanned_Raise | cbn in Hn; lia].
  - destruct s as [|c s]; [apply scanned_Raise|]. cbn [scanstring].
    cbn [length] in Hn.
    assert (Hnext : forall (f : str -> str) (s' : str),
              (length s' <= length s)%nat ->
              scanned (c :: s)
                ('(v, rest) <- scanstring s' ;; OK (f v, rest))).
    { intros f s' Hs'. apply scanned_map.
      apply scanned_le with (s' := s'); [apply IH; lia | cbn [length]; lia]. }
    clear IH.
    destruct (c =? QUOTE); [cbn; lia|].
    destruct (c =? BACKSLASH).
    + destruct s as [|e r1]; [apply scanned_Raise|].
      destruct (e =? LOWER_u).
      * destruct r1 as [|h1 [|h2 [|h3 [|h4 [|x r3]]]]];
          try apply scanned_Raise.
        destruct (hex4_value h1 h2 h3 h4) as [u|]; [|apply scanned_Raise].
        assert (Hsingle : scanned (c :: e :: h1 :: h2 :: h3 :: h4 :: x :: r3)
                            ('(v, rest) <- scanstring (x :: r3) ;;
                             OK (u :: v, rest)))
          by (apply (Hnext (cons u)); cbn [length]; lia).
        destruct (in_range 55296 56319 u); [|exact Hsingle].
        destruct r3 as [|y [|g1 [|g2 [|g3 [|g4 [|z r4]]]]]];
          cbv beta iota;
          lazymatch goal with
          | |- scanned _ (if _ then _ else _) => idtac
          | _ => exact Hsingle
          end.
        destruct ((x =? BACKSLASH) && (y =? LOWER_u)); [|exact Hsingle].
        destruct (hex4_value g1 g2 g3 g4) as [u2|]; [|apply scanned_Raise].
        destruct (in_range 56320 57343 u2); [|exact Hsingle].
        apply (Hnext (cons _)). cbn [length]. lia.
      * destruct (unescape e) as [c'|]; [|apply scanned_Raise].
        apply (Hnext (cons c')). cbn [length]. lia.
    + destruct (c <=? 31); [apply scanned_Raise|].
      apply (Hnext (cons c)). lia.
Qed.

Lemma scanstring_scanned (s : str) : scanned s (scanstring s).
Proof. apply (scanstring_scanned_aux (length s)). lia. Qed.

Lemma strip_prefix_length (p s r : str) :
  strip_prefix p s = Some r -> (length r + length p = length s)%nat.
Proof.
  revert s. induction p as [|a p IH]; intros [|b s]; cbn [strip_prefix length];
    try discriminate; try (intros [= <-]; cbn; lia).
  destruct (a =? b); [|discriminate]. intros H. apply IH in H. lia.
Qed.

Lemma span_digits_length (s : str) :
  (length (snd (span_digits s)) <= length s)%nat.
Proof.
  induction s as [|c s IH]; cbn [span_digits]; [cbn; lia|].
  destruct (is_digit c); [|cbn; lia].
  destruct (span_digits s). cbn [snd length] in *. lia.
Qed.

Lemma match_number_length (s l r : str) :
  match_number s = Some (l, r) -> (length r < length s)%nat.
Proof.
  unfold match_number.
  set (signed := match s with
                 | c :: r0 => if c =? MINUS then ([c], r0) else ([], s)
                 | [] => ([], s)
                 end).
  assert (Hsigned : (length (snd signed) <= length s)%nat).
  { subst signed. destruct s as [|c s]; [cbn; lia|].
    destruct (c =? MINUS); cbn; lia. }
  destruct signed as [sign s1]. cbn [snd] in Hsigned.
  destruct s1 as [|c r1]; [discriminate|]. cbn [length] in Hsigned.
  set (int_part := if c =? ZERO then Some ([c], r1)
                   else if is_digit c
                        then let '(d, r') := span_digits r1 in Some (c :: d, r')
                        else None).
  assert (Hint : forall i s2, int_part = Some (i, s2) ->
                              (length s2 <= length r1)%nat).
  { subst int_part. intros i s2. destruct (c =? ZERO); [intros [= _ <-]; lia|].
    destruct (is_digit c); [|discriminate].
    pose proof (span_digits_length r1) as Hd.
    destruct (span_digits r1). cbn [snd] in Hd. now intros [= _ <-]. }
  destruct int_part as [[i s2]|]; [|discriminate].
  specialize (Hint i s2 eq_refl).
  set (frac := match s2 with
               | c1 :: c2 :: r2 =>
                   if (c1 =? DOT) && is_digit c2
                   then let '(d, r') := span_digits r2 in (c1 :: c2 :: d, r')
                   else ([], s2)
               | _ => ([], s2)
               end).
  assert (Hfrac : (length (snd frac) <= length s2)%nat).
  { subst frac. destruct s2 as [|c1 [|c2 r2]]; try (cbn; lia).
    destruct ((c1 =? DOT) && is_digit c2); [|cbn; lia].
    pose proof (span_digits_length r2) as Hd.
    destruct (span_digits r2). cbn [snd length] in *. lia. }
  destruct frac as [fr s3]. cbn [snd] in Hfrac.
  set (exp := match s3 with
              | c1 :: r0 =>
                  if (c1 =? LOWER_e) || (c1 =? UPPER_E)
                  then
                    let '(sg, r2) :=
                      match r0 with
                      | c2 :: r2 =>
                          if (c2 =? MINUS) || (c2 =? PLUS)
                          then ([c2], r2) else ([], r0)
                      | [] => ([], r0)
                      end in
                    match span_digits r2 with
                    | ([], _) => ([], s3)
                    | (d, r') => (c1 :: sg ++ d, r')
                    end
                  else ([], s3)
              | [] => ([], s3)
              end).
  assert (Hexp : (length (snd exp) <= length s3)%nat).
  { subst exp. destruct s3 as [|c1 r0]; [cbn; lia|].
    destruct ((c1 =? LOWER_e) || (c1 =? UPPER_E)); [|cbn; lia].
    set (sg := match r0 with
               | c2 :: r2 =>
                   if (c2 =? MINUS) || (c2 =? PLUS) then ([c2], r2) else ([], r0)
               | [] => ([], r0)
               end).
    assert (Hsg : (length (snd sg) <= length r0)%nat).
    { subst sg. destruct r0 as [|c2 r2]; [cbn; lia|].
      destruct ((c2 =? MINUS) || (c2 =? PLUS)); cbn; lia. }
    destruct sg as [sg r2]. cbn [snd] in Hsg.
    pose proof (span_digits_length r2) as Hd.
    destruct (span_digits r2) as [[|d0 d] r']; cbn [snd length] in *; lia. }
  destruct exp as [ex s4]. cbn [snd] in Hexp.
  intros [= _ <-]. lia.
Qed.

Lemma scan_fuel (fuel : nat) :
  (forall s, (2 * length s < fuel)%nat -> scanned s (scan_once fuel s)) /\
  (forall s pairs, (2 * length s + 1 < fuel)%nat ->
                   scanned s (object_members fuel s pairs)) /\
  (forall s values, (2 * length s + 1 < fuel)%nat ->
                    scanned s (array_elements fuel s values)).
Proof.
  induction fuel as [|fuel (IHs & IHo & IHa)];
    [repeat split; intros; lia|].
  repeat split.
  - intros [|c r] Hf; [apply scanned_Raise|]. cbn [scan_once].
    cbn [length] in Hf.
    destruct (c =? QUOTE).
    { apply scanned_map.
      apply scanned_le with (s' := r);
        [apply scanstring_scanned | cbn [length]; lia]. }
    destruct (c =? LBRACE).
    { pose proof (skip_ws_length r) as Hw.
      destruct (skip_ws r) as [|c1 r1]; [apply scanned_Raise|].
      cbn [length] in Hw.
      destruct (c1 =? RBRACE); [cbn [scanned OK length]; lia|].
      apply scanned_le with (s' := c1 :: r1);
        [apply IHo | ]; cbn [length]; lia. }
    destruct (c =? LBRACKET).
    { pose proof (skip_ws_length r) as Hw.
      destruct (skip_ws r) as [|c1 r1]; [apply scanned_Raise|].
      cbn [length] in Hw.
      destruct (c1 =? RBRACKET); [cbn [scanned OK length]; lia|].
      apply scanned_le with (s' := c1 :: r1);
        [apply IHa | ]; cbn [length]; lia. }
    assert (Hlit : forall p rest, p <> [] ->
                     strip_prefix p (c :: r) = Some rest ->
                     (length rest < length (c :: r))%nat).
    { intros p rest Hp E. apply strip_prefix_length in E.
      destruct p; [contradiction | cbn [length] in *; lia]. }
    destruct (strip_prefix lit_null (c :: r)) eqn:E1;
      [apply (Hlit lit_null); [discriminate | exact E1]|].
    destruct (strip_prefix lit_true (c :: r)) eqn:E2;
      [apply (Hlit lit_true); [discriminate | exact E2]|].
    destruct (strip_prefix lit_false (c :: r)) eqn:E3;
      [apply (Hlit lit_false); [discriminate | exact E3]|].
    destruct (strip_prefix lit_NaN (c :: r)) eqn:E4;
      [apply (Hlit lit_NaN); [discriminate | exact E4]|].
    destruct (strip_prefix lit_Infinity (c :: r)) eqn:E5;
      [apply (Hlit lit_Infinity); [discriminate | exact E5]|].
    destruct (strip_prefix lit_minus_Infinity (c :: r)) eqn:E6;
      [apply (Hlit lit_minus_Infinity); [discriminate | exact E6]|].
    destruct (match_number (c :: r)) as [[lexeme rest]|] eqn:En;
      [|apply scanned_Raise].
    apply match_number_length in En. exact En.
  - intros [|c r] pairs Hf; [apply scanned_Raise|]. cbn [object_members].
    cbn [length] in Hf.
    destruct (c =? QUOTE); [|apply scanned_Raise].
    pose proof (scanstring_scanned r) as Hk.
    destruct (scanstring r) as [e|[key r1]]; [exact Hk|].
    cbn [scanned OK] in Hk. cbn [bind].
    pose proof (skip_ws_length r1) as Hw1.
    destruct (skip_ws r1) as [|c2 r2]; [apply scanned_Raise|].
    cbn [length] in Hw1.
    destruct (c2 =? COLON); [|apply scanned_Raise].
    pose proof (skip_ws_length r2) as Hw2.
    pose proof (IHs (skip_ws r2)) as Hv.
    destruct (scan_once fuel (skip_ws r2)) as [e|[val r3]];
      [apply Hv; lia|].
    cbn [bind].
    assert (Hr3 : (length r3 < length (skip_ws r2))%nat) by (apply Hv; lia).
    pose proof (skip_ws_length r3) as Hw3.
    destruct (skip_ws r3) as [|c4 r4]; [apply scanned_Raise|].
    cbn [length] in Hw3.
    destruct (c4 =? RBRACE); [cbn [scanned OK length]; lia|].
    destruct (c4 =? COMMA); [|apply scanned_Raise].
    pose proof (skip_ws_length r4) as Hw4.
    apply scanned_le with (s' := skip_ws r4);
      [apply IHo | ]; cbn [length]; lia.
  - intros s values Hf. cbn [array_elements].
    pose proof (IHs s) as Hv.
    destruct (scan_once fuel s) as [e|[val r1]]; [apply Hv; lia|].
    cbn [bind].
    assert (Hr1 : (length r1 < length s)%nat) by (apply Hv; lia).
    pose proof (skip_ws_length r1) as Hw1.
    destruct (skip_ws r1) as [|c r2]; [apply scanned_Raise|].
    cbn [length] in Hw1.
    destruct (c =? RBRACKET); [cbn [scanned OK]; lia|].
    destruct (c =? COMMA); [|apply scanned_Raise].
    pose proof (skip_ws_length r2) as Hw2.
    apply scanned_le with (s' := skip_ws r2);
      [apply IHa | ]; lia.
Qed.

(** [json_loads] never runs out of fuel: on every text it returns a value
    or raises [JSONDecodeError]. *)
Lemma json_loads_fuel (s : str) (e : exn) :
  json_loads s = Raise e -> e = JSONDecodeError.
Proof.
  unfold json_loads.
  pose proof (skip_ws_length s) as Hw.
  pose proof (proj1 (scan_fuel (S (2 * length s))) (skip_ws s)) as Hv.
  destruct (scan_once (S (2 * length s)) (skip_ws s)) as [e'|[obj rest]].
  - cbn [bind]. intros [= <-]. apply Hv. lia.
  - cbn [bind]. destruct (skip_ws rest); [discriminate|]. now intros [= <-].
Qed.

(** ** UTF-8 on ASCII text *)

Lemma utf8_encode_ascii (s : str) : is_ascii s -> utf8_encode s = OK s.
Proof.
  induction 1 as [|c s Hc _ IH]; [reflexivity|].
  cbn [utf8_encode]. unfold utf8_encode_char.
  apply N.ltb_lt in Hc. rewrite Hc. cbn [bind OK]. now rewrite IH.
Qed.

Lemma utf8_decode_ascii (s : str) : is_ascii s -> utf8_decode s = OK s.
Proof.
  induction 1 as [|c s Hc _ IH]; [reflexivity|].
  cbn [utf8_decode]. apply N.ltb_lt in Hc. rewrite Hc, IH. reflexivity.
Qed.

Lemma py_encode_basestring_ascii_ascii (s : str) :
  is_ascii (py_encode_basestring_ascii s).
Proof.
  unfold py_encode_basestring_ascii, is_ascii.
  apply Forall_app. split; [repeat constructor|].
  apply Forall_app. split; [|repeat constructor].
  induction s as [|c s IH]; cbn [flat_map]; [constructor|].
  apply Forall_app. split; [apply escape_char_ascii | exact IH].
Qed.

Lemma dumps_items_ascii (d : dict str str) : is_ascii (dumps_items d).
Proof.
  induction d as [|[k v] d IH]; cbn [dumps_items]; [constructor|].
  unfold is_ascii.
  apply Forall_app; split; [apply py_encode_basestring_ascii_ascii|].
  apply Forall_app; split; [repeat constructor|].
  apply Forall_app; split; [apply py_encode_basestring_ascii_ascii|].
  destruct d; [constructor|].
  apply Forall_app; split; [repeat constructor | exact IH].
Qed.

Lemma json_dumps_ascii (d : dict str str) : is_ascii (json_dumps d).
Proof.
  unfold json_dumps, is_ascii.
  apply Forall_app; split; [repeat constructor|].
  apply Forall_app; split; [apply dumps_items_ascii | repeat constructor].
Qed.

Lemma encode_mapping_eq (rd : dict bits char) :
  encode_mapping rd = OK (BitArray_bin (json_dumps (py_reverse_dict rd))).
Proof.
  unfold encode_mapping.
  now rewrite utf8_encode_ascii by apply json_dumps_ascii.
Qed.

Lemma decode_mapping_ascii (s : str) :
  s <> [] -> is_ascii s -> decode_mapping (BitArray_bin s) = json_loads s.
Proof.
  intros Hne Ha. unfold decode_mapping.
  rewrite int2_OK.
  - cbn [bind OK]. rewrite to_bytes_BitArray_bin.
    + cbn [bind OK]. now rewrite utf8_decode_ascii.
    + eapply Forall_impl; [|exact Ha]. cbn. intros; lia.
  - rewrite length_BitArray_bin. destruct s; [congruence | cbn; lia].
Qed.

Lemma decode_encode_mapping (rd : dict bits char) :
  rd <> [] -> NoDup (map fst rd) -> Forall (fun kv => snd kv < 1114112) rd ->
  decode_mapping (BitArray_bin (json_dumps (py_reverse_dict rd)))
  = OK (JObject (json_table rd)).
Proof.
  intros Hne Hnd Hv. rewrite decode_mapping_ascii.
  - now apply json_loads_dumps.
  - discriminate.
  - apply json_dumps_ascii.
Qed.

(** ** Greedy decoding *)

Lemma dict_get_json_table (rd : dict bits char) (k : bits) :
  dict_get (bin_str k) (json_table rd)
  = option_map (fun c => JString [c]) (dict_get k rd).
Proof.
  induction rd as [|[k' c] rd IH]; [reflexivity|].
  cbn [json_table map dict_get fst snd]. fold (json_table rd).
  destruct (eqb k k') eqn:E.
  - apply eqb_true in E. subst k'. now rewrite eqb_refl.
  - rewrite eqb_neq; [exact IH|].
    intros E'. apply bin_str_inj in E'. subst k'.
    rewrite eqb_refl in E. discriminate.
Qed.

(** The decoder's turn on one bit, when the table is the one read back. *)
Lemma decode_loop_step (rd : dict bits char) (bit : bool) (rest : bits)
    (decoded_text : str) (code : bits) :
  decode_loop (bit :: rest) (JObject (json_table rd)) decoded_text code
  = match dict_get (code ++ [bit]) rd with
    | Some c =>
        decode_loop rest (JObject (json_table rd)) (decoded_text ++ [c]) []
    | None =>
        decode_loop rest (JObject (json_table rd)) decoded_text (code ++ [bit])
    end.
Proof.
  cbn [decode_loop py_contains py_getitem bind OK].
  unfold dict_in, dict_item. rewrite dict_get_json_table.
  destruct (dict_get (code ++ [bit]) rd); reflexivity.
Qed.

(** One code of a prefix-free table decodes to its symbol. *)
Lemma decode_loop_code (rd : dict bits char) (k : bits) (c : char) :
  prefix_free (map fst rd) -> dict_get k rd = Some c ->
  forall (k2 k1 rest : bits) (out : str),
    k = k1 ++ k2 -> k2 <> [] ->
    decode_loop (k2 ++ rest) (JObject (json_table rd)) out k1
    = decode_loop rest (JObject (json_table rd)) (out ++ [c]) [].
Proof.
  intros Hpf Hk. induction k2 as [|b k2 IH]; [congruence|].
  intros k1 rest out E _. cbn [app]. rewrite decode_loop_step.
  destruct k2 as [|b' k2].
  - rewrite <- E, Hk. reflexivity.
  - destruct (dict_get (k1 ++ [b]) rd) as [c'|] eqn:E'.
    + exfalso. apply dict_get_In in E'. apply dict_get_In in Hk.
      assert (H1 : In (k1 ++ [b]) (map fst rd))
        by (apply in_map_iff; now exists (k1 ++ [b], c')).
      assert (H2 : In k (map fst rd)) by (apply in_map_iff; now exists (k, c)).
      assert (Hp : prefix (k1 ++ [b]) k).
      { exists (b' :: k2). rewrite E, <- app_assoc. reflexivity. }
      specialize (Hpf _ _ H1 H2 Hp).
      rewrite E in Hpf. apply app_inv_head in Hpf. discriminate.
    + apply IH; [|discriminate]. rewrite E, <- app_assoc. reflexivity.
Qed.

(** The text whose codes, one after the other, are the encoded text. *)
Lemma encode_text_decode_loop (rd : dict bits char) (md : dict char bits) :
  prefix_free (map fst rd) -> ~ In [] (map fst rd) ->
  (forall c k, dict_get c md = Some k -> dict_get k rd = Some c) ->
  forall (text : str) (encoded_text : bits) (out : str),
    encode_text text md = OK encoded_text ->
    decode_loop encoded_text (JObject (json_table rd)) out []
    = OK (out ++ text, []).
Proof.
  intros Hpf Hne Hmd. induction text as [|c text IH]; intros enc out He.
  - injection He as <-. cbn. now rewrite app_nil_r.
  - cbn [encode_text] in He. unfold dict_item in He.
    destruct (dict_get c md) as [k|] eqn:Ek; [|discriminate].
    cbn [bind OK] in He. inv_bind He. injection He as <-.
    apply Hmd in Ek.
    rewrite (decode_loop_code rd k c Hpf Ek k [] a out); [| reflexivity |].
    + rewrite (IH a (out ++ [c]) E), <- app_assoc. reflexivity.
    + intros ->. apply Hne. apply dict_get_In in Ek.
      apply in_map_iff. now exists ([], c).
Qed.

(** ** The code table [compress] builds *)

Lemma encode_eq (text : str) :
  encode text
  = (mapping_obj <- mapping_of text ;;
     encoded_text <- encode_text text (mapping_dict mapping_obj) ;;
     encoded_tree <- encode_mapping (reverse_mapping_dict mapping_obj) ;;
     OK (tofile (pad_encoded_text_tree
                   (encode_text_tree encoded_text encoded_tree)))).
Proof.
  unfold encode, mapping_of. fold (sorted_frequency text).
  destruct (build_huffman_tree _); reflexivity.
Qed.

Lemma create_mapping_singleton (root : TreeNode) :
  create_mapping [root]
  = OK (fold_left add_code (codes_of root []) Mapping_init).
Proof.
  unfold create_mapping, pop. cbn [rev app bind OK].
  now rewrite Mapping_map_codes.
Qed.

Lemma NoDup_two_length {A} (l : list A) (a b : A) :
  In a l -> In b l -> a <> b -> (2 <= length l)%nat.
Proof.
  destruct l as [|x [|y l]]; cbn; try tauto; [|lia].
  intros [<-|[]] [<-|[]] Hn. congruence.
Qed.

Lemma mapping_of_spec (text : str) :
  text <> [] ->
  exists root,
    build_huffman_tree (leaves_of (sorted_frequency text)) = OK [root]
    /\ mapping_of text
       = OK (mkMapping (codes_of root []) (map swap (codes_of root [])))
    /\ NoDup (symbols root)
    /\ (forall c, In c (symbols root) <-> In c text)
    /\ (two_symbols text -> ~ In [] (map snd (codes_of root []))).
Proof.
  intros Hne.
  destruct (sorted_frequency_keys text) as [Hnd Hin].
  assert (Hst : leaves_of (sorted_frequency text) <> []).
  { destruct text as [|c text]; [congruence|].
    assert (Hc : In c (map fst (sorted_frequency (c :: text))))
      by (apply Hin; now left).
    destruct (sorted_frequency (c :: text)); [destruct Hc | discriminate]. }
  destruct (build_huffman_tree_spec _ Hst) as (root & Hb & Hp & Hm).
  rewrite symbols_leaves_of in Hp.
  assert (Hnd' : NoDup (symbols root))
    by (eapply Permutation_NoDup; [symmetry; exact Hp | exact Hnd]).
  exists root. split; [exact Hb|]. split; [|split; [exact Hnd'|split]].
  - unfold mapping_of. rewrite Hb. cbn [bind OK].
    rewrite create_mapping_singleton.
    assert (E : forall m, m = mkMapping (mapping_dict m) (reverse_mapping_dict m))
      by (now intros []).
    rewrite (E (fold_left _ _ _)).
    rewrite mapping_dict_NoDup by (now rewrite symbols_codes_of).
    now rewrite reverse_mapping_dict_NoDup by apply codes_of_NoDup.
  - intros c. rewrite <- Hin. split; apply Permutation_in;
      [exact Hp | symmetry; exact Hp].
  - intros (a & b & Ha & Hb' & Hab).
    destruct Hm as (f & l & r & ->).
    { unfold leaves_of. rewrite length_map, <- (length_map fst).
      apply (NoDup_two_length _ a b); [apply Hin, Ha | apply Hin, Hb' | exact Hab]. }
    cbn [codes_of]. rewrite map_app. intros Hi.
    apply in_app_or in Hi as [Hi|Hi];
      apply in_map_iff in Hi as [[c k] [E Hi]]; cbn [snd] in E; subst k;
      apply codes_of_prefix in Hi; destruct Hi as [x Hx]; discriminate.
Qed.

Lemma encode_text_total (text : str) (md : dict char bits) :
  (forall c, In c text -> In c (map fst md)) ->
  exists encoded_text, encode_text text md = OK encoded_text.
Proof.
  induction text as [|c text IH]; intros Hk; [now exists []|].
  destruct IH as [e He]; [intros x Hx; apply Hk; now right|].
  cbn [encode_text]. unfold dict_item.
  destruct (dict_get c md) as [k|] eqn:E.
  - cbn [bind OK]. rewrite He. cbn [bind OK]. eauto.
  - apply dict_get_None in E. elim E. apply Hk. now left.
Qed.

Lemma json_dumps_nonempty (d : dict str str) :
  BitArray_bin (json_dumps d) <> [].
Proof. discriminate. Qed.

(** ** Compressing, then decompressing *)

Lemma decompress_encode (text : str) :
  Forall (fun c => c < 1114112) text -> two_symbols text ->
  tree_info_fits text ->
  exists file, encode text = OK file /\ decompress file = OK text.
Proof.
  intros Hv H2 Hfit.
  assert (Hne : text <> []) by (destruct H2 as (a & _ & Ha & _); now intros ->).
  destruct (mapping_of_spec text Hne) as (root & _ & Hm & Hnd & Hin & Hcodes).
  specialize (Hcodes H2). set (L := codes_of root []) in *.
  assert (HndL : NoDup (map fst L)) by (unfold L; now rewrite symbols_codes_of).
  assert (HinL : forall c, In c (map fst L) <-> In c text)
    by (unfold L; now rewrite symbols_codes_of).
  destruct (encode_text_total text L) as [enc Henc]; [apply HinL|].
  specialize (Hfit (BitArray_bin (json_dumps (py_reverse_dict (map swap L))))).
  unfold encoded_tree_of in Hfit. rewrite Hm in Hfit. cbn [bind OK] in Hfit.
  cbn [reverse_mapping_dict] in Hfit. rewrite encode_mapping_eq in Hfit.
  specialize (Hfit eq_refl).
  rewrite encode_eq, Hm. cbn [bind OK mapping_dict reverse_mapping_dict].
  rewrite Henc, encode_mapping_eq. cbn [bind OK].
  eexists. split; [reflexivity|].
  rewrite decompress_frame by (exact Hfit || apply json_dumps_nonempty).
  assert (Hkeys : map fst (map swap L) = map snd L)
    by (rewrite map_map; reflexivity).
  rewrite decode_encode_mapping.
  - cbn [bind OK]. unfold decode_bits.
    rewrite (encode_text_decode_loop (map swap L) L) with (text := text);
      [reflexivity | | | | exact Henc].
    + rewrite Hkeys. apply codes_of_prefix_free.
    + now rewrite Hkeys.
    + intros c k Hk. apply dict_get_In in Hk.
      apply In_dict_get; [rewrite Hkeys; apply codes_of_NoDup|].
      apply in_map_iff. now exists (c, k).
  - destruct L as [|x L'] eqn:EL; [|discriminate].
    destruct text as [|c text]; [congruence|].
    destruct (HinL c) as [_ Hc]. destruct Hc. now left.
  - rewrite Hkeys. apply codes_of_NoDup.
  - apply Forall_forall. intros [k c] Hi. cbn [snd].
    apply in_map_iff in Hi as [[c' k'] [E Hi]]. injection E as <- <-.
    rewrite Forall_forall in Hv. apply Hv, HinL.
    apply in_map_iff. now exists (c', k').
Qed.

(** ** [rstrip] *)

Lemma lstrip_spec (s : str) :
  exists ws, s = ws ++ lstrip s /\ Forall (fun c => is_space c = true) ws
             /\ match lstrip s with
                | c :: _ => is_space c = false
                | [] => True
                end.
Proof.
  induction s as [|c s (ws & E & Hws & Hh)]; [exists []; cbn; auto|].
  cbn [lstrip]. destruct (is_space c) eqn:Ec.
  - exists (c :: ws). cbn [app]. rewrite <- E. auto.
  - exists []. cbn. auto.
Qed.

Lemma rstrip_spec (text : str) :
  exists ws, text = rstrip text ++ ws
             /\ Forall (fun c => is_space c = true) ws.
Proof.
  unfold rstrip. destruct (lstrip_spec (rev text)) as (ws & E & Hws & _).
  exists (rev ws). split.
  - rewrite <- rev_app_distr, <- E. now rewrite rev_involutive.
  - apply Forall_rev, Hws.
Qed.

Lemma lstrip_idem (s : str) : lstrip (lstrip s) = lstrip s.
Proof.
  induction s as [|c s IH]; [reflexivity|].
  cbn [lstrip]. destruct (is_space c) eqn:E; [exact IH|].
  cbn [lstrip]. now rewrite E.
Qed.

Lemma rstrip_idem (text : str) : rstrip (rstrip text) = rstrip text.
Proof.
  unfold rstrip. now rewrite rev_involutive, lstrip_idem.
Qed.

Lemma lstrip_app_space (ws s : str) :
  Forall (fun c => is_space c = true) ws -> lstrip (ws ++ s) = lstrip s.
Proof.
  induction 1 as [|c ws Hc _ IH]; [reflexivity|].
  cbn [app lstrip]. now rewrite Hc.
Qed.

Lemma rstrip_app_space (text ws : str) :
  Forall (fun c => is_space c = true) ws -> rstrip (text ++ ws) = rstrip text.
Proof.
  intros Hws. unfold rstrip. rewrite rev_app_distr.
  now rewrite lstrip_app_space by apply Forall_rev, Hws.
Qed.

Lemma rstrip_valid (text : str) :
  Forall (fun c => c < 1114112) text ->
  Forall (fun c => c < 1114112) (rstrip text).
Proof.
  intros Hv. destruct (rstrip_spec text) as (ws & E & _).
  rewrite E in Hv. now apply Forall_app in Hv.
Qed.

(** ** A text of one symbol *)

Lemma one_or_two_symbols (text : str) :
  two_symbols text \/ exists c n, text = repeat c n.
Proof.
  destruct text as [|c text]; [right; now exists 0, 0%nat|].
  destruct (forallb (N.eqb c) text) eqn:E.
  - right. exists c, (S (length text)). cbn [repeat]. f_equal.
    rewrite forallb_forall in E. apply Forall_eq_repeat.
    apply Forall_forall. intros x Hx. apply N.eqb_eq, E, Hx.
  - left. assert (Hex : existsb (fun x => negb (c =? x)) text = true).
    { rewrite <- negb_false_iff, <- E. clear E.
      induction text as [|x text IH]; [reflexivity|].
      cbn. rewrite <- IH. now destruct (c =? x), (forallb _ text). }
    apply existsb_exists in Hex as (x & Hx & Hn).
    exists c, x. repeat split; [now left | now right|].
    apply negb_true_iff, N.eqb_neq in Hn. exact Hn.
Qed.

Lemma sorted_frequency_repeat (c : char) (n : nat) :
  map fst (sorted_frequency (repeat c (S n))) = [c].
Proof.
  destruct (sorted_frequency_keys (repeat c (S n))) as [Hnd Hin].
  assert (Hall : forall x, In x (map fst (sorted_frequency (repeat c (S n))))
                           -> x = c).
  { intros x Hx. apply Hin in Hx. now apply repeat_spec in Hx. }
  assert (Hc : In c (map fst (sorted_frequency (repeat c (S n)))))
    by (apply Hin; now left).
  destruct (map fst (sorted_frequency (repeat c (S n)))) as [|x [|y l]];
    [destruct Hc | |].
  - f_equal. apply Hall. now left.
  - exfalso. inversion Hnd as [|? ? Hni _]; subst. apply Hni.
    rewrite (Hall x), (Hall y); cbn; auto.
Qed.

Lemma mapping_of_repeat (c : char) (n : nat) :
  mapping_of (repeat c (S n)) = OK (mkMapping [(c, [])] [([], c)]).
Proof.
  unfold mapping_of. pose proof (sorted_frequency_repeat c n) as Hk.
  destruct (sorted_frequency (repeat c (S n))) as [|[x f] [|? ?]];
    try discriminate.
  injection Hk as ->. reflexivity.
Qed.

Lemma encode_text_repeat (c : char) (n : nat) :
  encode_text (repeat c n) [(c, [])] = OK [].
Proof.
  induction n as [|n IH]; [reflexivity|].
  cbn [repeat encode_text]. unfold dict_item. cbn [dict_get].
  rewrite eqb_refl. cbn [bind OK]. now rewrite IH.
Qed.

Lemma length_escape_char (c : char) : (length (escape_char c) <= 12)%nat.
Proof.
  unfold escape_char.
  repeat match goal with
         | |- context [if ?b then _ else _] => destruct b
         end; cbn; lia.
Qed.

(** The one symbol gets the empty code, the encoded text is empty, and
    nothing is decoded. *)
Lemma decompress_encode_repeat (c : char) (n : nat) :
  c < 1114112 ->
  exists file,
    encode (repeat c (S n)) = OK file /\ decompress file = OK [].
Proof.
  intros Hc. rewrite encode_eq, mapping_of_repeat.
  cbn [bind OK mapping_dict reverse_mapping_dict].
  rewrite encode_text_repeat, encode_mapping_eq. cbn [bind OK].
  eexists. split; [reflexivity|].
  rewrite decompress_frame.
  - rewrite decode_encode_mapping; [reflexivity | discriminate | |].
    + repeat constructor. intros [].
    + repeat constructor. exact Hc.
  - apply json_dumps_nonempty.
  - rewrite length_BitArray_bin. unfold json_dumps.
    cbn [py_reverse_dict map dumps_items fst snd bin_str].
    unfold py_encode_basestring_ascii. cbn [flat_map app length].
    rewrite app_nil_r, !length_app. cbn [length].
    pose proof (length_escape_char c). lia.
Qed.

Lemma encode_total (text : str) :
  text <> [] -> exists file, encode text = OK file.
Proof.
  intros Hne.
  destruct (mapping_of_spec text Hne) as (root & _ & Hm & _ & Hin & _).
  destruct (encode_text_total text (codes_of root [])) as [enc Henc].
  { intros c Hc. rewrite symbols_codes_of. now apply Hin. }
  rewrite encode_eq, Hm. cbn [bind OK mapping_dict reverse_mapping_dict].
  rewrite Henc, encode_mapping_eq. cbn [bind OK]. eauto.
Qed.

Lemma length_codes_of (root : TreeNode) (p : bits) :
  length (codes_of root p) = leaf_count root.
Proof.
  revert p. induction root as [f ch l r IHl IHr] using TreeNode_ind.
  intros p. destruct ch as [ch|]; [reflexivity|].
  cbn [codes_of leaf_count]. rewrite length_app.
  destruct l as [l|], r as [r|]; cbn [option_all length] in *;
    rewrite ?IHl, ?IHr; reflexivity.
Qed.

(** ** The greedy scan, as the decoding step of the specification reads *)

Lemma dict_get_table_json (table : dict str str) (k : str) :
  dict_get k (map (fun kv => (fst kv, JString (snd kv))) table)
  = option_map JString (dict_get k table).
Proof.
  induction table as [|[k' v] table IH]; [reflexivity|].
  cbn [map dict_get fst snd]. now destruct (eqb k k').
Qed.

Lemma decode_loop_table_step (table : dict str str) (bit : bool)
    (rest : bits) (decoded_text : str) (code : bits) :
  decode_loop (bit :: rest) (table_json table) decoded_text code
  = match dict_get (bin_str (code ++ [bit])) table with
    | Some symbol =>
        decode_loop rest (table_json table) (decoded_text ++ symbol) []
    | None => decode_loop rest (table_json table) decoded_text (code ++ [bit])
    end.
Proof.
  unfold table_json. cbn [decode_loop py_contains py_getitem bind OK].
  unfold dict_in, dict_item. rewrite dict_get_table_json.
  destruct (dict_get (bin_str (code ++ [bit])) table); reflexivity.
Qed.

Lemma decode_loop_greedy (table : dict str str) (encoded_text : bits) :
  forall (decoded_text : str) (code : bits),
  exists out code',
    decode_loop encoded_text (table_json table) decoded_text code
    = OK (decoded_text ++ out, code')
    /\ greedy_scan table code encoded_text out code'.
Proof.
  induction encoded_text as [|bit rest IH]; intros decoded_text code.
  - exists [], code. cbn. rewrite app_nil_r. split; constructor.
  - rewrite decode_loop_table_step.
    destruct (dict_get (bin_str (code ++ [bit])) table) as [symbol|] eqn:E.
    + destruct (IH (decoded_text ++ symbol) []) as (out & code' & Hd & Hs).
      exists (symbol ++ out), code'. rewrite Hd, app_assoc.
      split; [reflexivity | now apply scan_emit].
    + destruct (IH decoded_text (code ++ [bit])) as (out & code' & Hd & Hs).
      exists out, code'. split; [exact Hd | now apply scan_keep].
Qed.

Lemma greedy_scan_functional (table : dict str str) code encoded_text
    out1 code1 out2 code2 :
  greedy_scan table code encoded_text out1 code1 ->
  greedy_scan table code encoded_text out2 code2 ->
  out1 = out2 /\ code1 = code2.
Proof.
  intros H1. revert out2 code2.
  induction H1 as [code | code bit rest symbol out code' Hk _ IH
                   | code bit rest out code' Hk _ IH];
    intros out2 code2 H2; inversion H2; subst; try congruence; auto.
  match goal with
  | Ha : dict_get ?k _ = Some ?s1, Hb : dict_get ?k _ = Some ?s2 |- _ =>
      assert (s2 = s1) by congruence; subst
  end.
  match goal with
  | Hs : greedy_scan _ [] rest _ _ |- _ => destruct (IH _ _ Hs) as [-> ->]
  end.
  auto.
Qed.

(** ** A table that lost its last byte *)

Lemma object_members_truncated (rd : dict bits char) :
  rd <> [] -> Forall (fun kv => snd kv < 1114112) rd ->
  forall (fuel : nat) (pairs : dict str json),
    (length rd < fuel)%nat ->
    object_members fuel (dumps_items (py_reverse_dict rd)) pairs
    = Raise JSONDecodeError.
Proof.
  induction rd as [|[k c] rd IH]; [congruence|].
  intros _ Hv fuel pairs Hf.
  inversion Hv as [|? ? Hc Hv']; subst. cbn [snd] in Hc.
  destruct fuel as [|[|fuel]]; cbn [length] in Hf; try lia.
  rewrite dumps_items_cons.
  rewrite object_members_step by exact Hc.
  destruct rd as [|kc rd]; [reflexivity|].
  rewrite (skip_ws_other COMMA) by reflexivity.
  change (COMMA =? RBRACE) with false. change (COMMA =? COMMA) with true.
  cbv iota. rewrite skip_ws_space.
  destruct (dumps_items_quote (kc :: rd)) as [s Hs]; [discriminate|].
  rewrite Hs, (skip_ws_other QUOTE) by reflexivity.
  rewrite <- Hs. apply IH; [discriminate | exact Hv' |].
  cbn [length] in *. lia.
Qed.

Lemma scan_once_truncated (rd : dict bits char) (fuel : nat) :
  rd <> [] -> Forall (fun kv => snd kv < 1114112) rd ->
  (S (length rd) < fuel)%nat ->
  scan_once fuel (LBRACE :: dumps_items (py_reverse_dict rd))
  = Raise JSONDecodeError.
Proof.
  intros Hne Hv Hf. destruct fuel as [|fuel]; [lia|].
  cbn [scan_once]. change (LBRACE =? QUOTE) with false.
  change (LBRACE =? LBRACE) with true. cbv iota.
  destruct (dumps_items_quote rd Hne) as [s Hs].
  rewrite Hs, (skip_ws_other QUOTE) by reflexivity.
  change (QUOTE =? RBRACE) with false. cbv iota.
  rewrite <- Hs. apply object_members_truncated; try assumption. lia.
Qed.

(** The text after the opening quote of the first key does not start with
    white space. *)
Lemma dumps_items_after_quote (rd : dict bits char) :
  rd <> [] ->
  exists c s, dumps_items (py_reverse_dict rd) = QUOTE :: c :: s
              /\ is_ws c = false.
Proof.
  destruct rd as [|[k ch] rd]; [congruence|]. intros _.
  rewrite dumps_items_cons.
  destruct k as [|[] k]; cbn [bin_str map app]; eauto.
Qed.

Lemma json_loads_truncated (rd : dict bits char) :
  rd <> [] -> Forall (fun kv => snd kv < 1114112) rd ->
  json_loads (LBRACE :: dumps_items (py_reverse_dict rd))
  = Raise JSONDecodeError.
Proof.
  intros Hne Hv. unfold json_loads.
  rewrite (skip_ws_other LBRACE) by reflexivity.
  rewrite scan_once_truncated; [reflexivity | assumption | assumption |].
  cbn [length]. pose proof (length_dumps_items rd). lia.
Qed.

Lemma length_dumps_items_strict (rd : dict bits char) :
  (4 * length rd <= length (dumps_items (py_reverse_dict rd)))%nat.
Proof.
  induction rd as [|[k c] rd IH]; [cbn; lia|].
  rewrite dumps_items_cons. cbn [length]. rewrite length_app. cbn [length].
  rewrite length_app. cbn [length].
  destruct rd; cbn [length] in *; lia.
Qed.

Lemma json_loads_truncated_byte (rd : dict bits char) (x : char) :
  rd <> [] -> Forall (fun kv => snd kv < 1114112) rd -> x < 128 ->
  json_loads (x :: LBRACE :: dumps_items (py_reverse_dict rd))
  = Raise JSONDecodeError.
Proof.
  intros Hne Hv Hx.
  pose proof (length_dumps_items_strict rd) as Hl.
  assert (Hrd : (0 < length rd)%nat)
    by (destruct rd; [congruence | cbn; lia]).
  assert (Hws : json_loads (LBRACE :: dumps_items (py_reverse_dict rd))
                = Raise JSONDecodeError) by now apply json_loads_truncated.
  assert (Hsc : forall fuel, (S (length rd) < fuel)%nat ->
                  scan_once fuel (LBRACE :: dumps_items (py_reverse_dict rd))
                  = Raise JSONDecodeError)
    by (intros; now apply scan_once_truncated).
  destruct (dumps_items_after_quote rd Hne) as (c & s & Hs & Hc).
  unfold json_loads. cbn [length Nat.mul Nat.add].
  set (items := dumps_items (py_reverse_dict rd)) in *.
  destruct (is_ws x) eqn:Ex.
  - (* white space before the table *)
    replace (skip_ws (x :: LBRACE :: items)) with (LBRACE :: items)
      by (cbn; now rewrite Ex).
    rewrite Hsc; [reflexivity | lia].
  - rewrite (skip_ws_other x) by exact Ex.
    destruct (N.eq_dec x QUOTE) as [->|Hq].
    { (* a string that holds the brace *)
      cbn [scan_once]. change (QUOTE =? QUOTE) with true. cbv iota.
      rewrite scanstring_plain by (lia || discriminate).
      rewrite Hs, scanstring_quote. cbn [bind OK].
      now rewrite (skip_ws_other c) by exact Hc. }
    destruct (N.eq_dec x LBRACKET) as [->|Hb].
    { (* a list whose first element is the table *)
      cbn [scan_once]. change (LBRACKET =? QUOTE) with false.
      change (LBRACKET =? LBRACE) with false.
      change (LBRACKET =? LBRACKET) with true. cbv iota.
      rewrite (skip_ws_other LBRACE) by reflexivity.
      change (LBRACE =? RBRACKET) with false. cbv iota.
      cbn [array_elements]. rewrite Hsc; [reflexivity | lia]. }
    rewrite Hs. clear - Hx Hq Hb Ex.
    destruct x as [|p]; [reflexivity|].
    do 7 (try destruct p as [p|p|]); try lia; try reflexivity;
      try discriminate; congruence.
Qed.

Lemma BitArray_bin_removelast (bs : bytes) :
  BitArray_bin (removelast bs)
  = firstn (length (BitArray_bin bs) - 8) (BitArray_bin bs).
Proof.
  destruct bs as [|b bs] using rev_ind; [reflexivity|].
  rewrite removelast_last, BitArray_bin_app, length_app.
  change (length (BitArray_bin [b])) with 8%nat.
  rewrite Nat.add_sub. symmetry. now apply firstn_app_length.
Qed.

Lemma decode_mapping_bytes (bs : bytes) :
  bs <> [] -> Forall (fun b => b < 256) bs ->
  decode_mapping (BitArray_bin bs) = (s <- utf8_decode bs ;; json_loads s).
Proof.
  intros Hne Hb. unfold decode_mapping.
  rewrite int2_OK.
  - cbn [bind OK]. now rewrite to_bytes_BitArray_bin.
  - rewrite length_BitArray_bin. destruct bs; [congruence | cbn; lia].
Qed.

Lemma utf8_decode_lead_then_brace (x : N) (s : bytes) :
  128 <= x -> utf8_decode (x :: LBRACE :: s) = Raise UnicodeDecodeError.
Proof.
  intros Hx. cbn [utf8_decode].
  replace (x <? 128) with false by (symmetry; apply N.ltb_ge, Hx).
  destruct (in_range 194 223 x); [reflexivity|].
  destruct (in_range 224 239 x).
  - destruct s; [reflexivity|]. now destruct (x =? 224).
  - destruct (in_range 240 244 x); [|reflexivity].
    destruct s as [|? [|? ?]]; try reflexivity. now destruct (x =? 240).
Qed.

Lemma is_ascii_bytes (s : str) : is_ascii s -> Forall (fun b => b < 256) s.
Proof. apply Forall_impl. intros; lia. Qed.

(** What [decode_mapping] does with the bits [get_encoded_text_mapping]
    takes for the table once the last byte is gone: the last bits of the
    encoded text, at most eight, and the table without its closing
    brace. *)
Lemma decode_mapping_truncated (rd : dict bits char) (encoded_text : bits) :
  rd <> [] -> Forall (fun kv => snd kv < 1114112) rd ->
  let s := LBRACE :: dumps_items (py_reverse_dict rd) in
  exists e,
    decode_mapping
      (slice_from_neg (length (BitArray_bin s) + 8)
         (encoded_text ++ BitArray_bin s)) = Raise e
    /\ (e = OverflowError \/ e = UnicodeDecodeError \/ e = JSONDecodeError).
Proof.
  intros Hne Hv s.
  assert (Ha : is_ascii s).
  { constructor; [reflexivity | apply dumps_items_ascii]. }
  unfold slice_from_neg. rewrite Nat.add_comm. cbn [Nat.add].
  rewrite length_app.
  replace (length encoded_text + length (BitArray_bin s)
           - S (S (S (S (S (S (S (S (length (BitArray_bin s))))))))))%nat
    with (length encoded_text - 8)%nat by lia.
  destruct (Nat.le_gt_cases 8 (length encoded_text)) as [Hge|Hlt].
  - (* the table takes the last eight bits of the encoded text *)
    rewrite skipn_app.
    replace (length encoded_text - 8 - length encoded_text)%nat with 0%nat
      by lia.
    cbn [skipn].
    set (last8 := skipn (length encoded_text - 8) encoded_text).
    assert (Hl : length last8 = 8%nat)
      by (unfold last8; rewrite length_skipn; lia).
    rewrite <- (byte_bits_bits_value last8 Hl).
    change (byte_bits ?x ++ BitArray_bin s) with (BitArray_bin (x :: s)).
    pose proof (bits_value_bound last8) as Hb. rewrite Hl in Hb.
    change (2 ^ N.of_nat 8) with 256 in Hb.
    rewrite decode_mapping_bytes;
      [| discriminate | constructor; [exact Hb | now apply is_ascii_bytes]].
    destruct (N.lt_ge_cases (bits_value last8) 128) as [Hx|Hx].
    + rewrite utf8_decode_ascii by (constructor; assumption).
      cbn [bind OK]. unfold s.
      rewrite json_loads_truncated_byte by assumption.
      eexists; split; [reflexivity | auto].
    + unfold s. rewrite utf8_decode_lead_then_brace by exact Hx.
      eexists; split; [reflexivity | auto].
  - (* fewer than eight bits of encoded text: they are all taken *)
    replace (length encoded_text - 8)%nat with 0%nat by lia. cbn [skipn].
    unfold decode_mapping. rewrite int2_OK
      by (rewrite length_app, length_BitArray_bin; unfold s; cbn [length]; lia).
    cbn [bind OK].
    assert (Hlen : ((length (encoded_text ++ BitArray_bin s)) / 8
                    = length s)%nat).
    { rewrite length_app, length_BitArray_bin.
      rewrite (Nat.mul_comm 8), Nat.div_add by discriminate.
      now rewrite Nat.div_small. }
    rewrite Hlen, bits_value_app, length_BitArray_bin.
    unfold to_bytes.
    destruct (N.ltb_spec
                (bits_value encoded_text * 2 ^ N.of_nat (8 * length s)
                 + bits_value (BitArray_bin s))
                (256 ^ N.of_nat (length s))) as [Hfit|Hover];
      [|eexists; split; [reflexivity | auto]].
    assert (Hz : bits_value encoded_text = 0).
    { rewrite Nat2N.inj_mul, N.pow_mul_r in Hfit.
      change (2 ^ N.of_nat 8) with 256 in Hfit.
      destruct (bits_value encoded_text); [reflexivity|]. nia. }
    rewrite Hz, N.mul_0_l, N.add_0_l.
    cbn [bind OK]. rewrite bytes_be_BitArray_bin by now apply is_ascii_bytes.
    rewrite utf8_decode_ascii by exact Ha. cbn [bind OK]. unfold s.
    rewrite json_loads_truncated by assumption.
    eexists; split; [reflexivity | auto].
Qed.

Lemma remove_padding_bits_truncated (s : bits) :
  (8 <= length s)%nat ->
  remove_padding_bits
    (firstn (length (pad_encoded_text_tree s) - 8) (pad_encoded_text_tree s))
  = OK (firstn (length s - 8) s).
Proof.
  intros Hs. rewrite pad_encoded_text_tree_eq.
  destruct (format_b_pad_count s) as [Hl Hv].
  pose proof (pad_count_range s) as Hr.
  set (info := format_b 8 (pad_count s)) in *.
  set (p := N.to_nat (pad_count s)).
  assert (Hp : (1 <= p <= 8)%nat) by (unfold p; lia).
  rewrite !length_app, repeat_length, Hl. fold p.
  replace (8 + (length s + p) - 8)%nat with (8 + (length s + p - 8))%nat
    by lia.
  rewrite firstn_app, Hl, firstn_all2 by lia.
  replace (8 + (length s + p - 8) - 8)%nat with (length s + p - 8)%nat by lia.
  rewrite firstn_app.
  replace (length s + p - 8 - length s)%nat with 0%nat by lia.
  rewrite firstn_O, app_nil_r.
  unfold remove_padding_bits, slice_to, slice_from.
  rewrite firstn_app_length, skipn_app_length by exact Hl.
  rewrite int2_OK, Hv by (rewrite Hl; discriminate). cbn [bind OK]. fold p.
  unfold slice_to_neg. destruct p as [|p'] eqn:Ep; [lia|].
  rewrite length_firstn, firstn_firstn. f_equal. f_equal. lia.
Qed.

Lemma decompress_truncated_frame (rd : dict bits char) (encoded_text : bits) :
  rd <> [] -> Forall (fun kv => snd kv < 1114112) rd ->
  N.of_nat (length (BitArray_bin (json_dumps (py_reverse_dict rd)))) < 65536 ->
  exists e,
    decompress
      (removelast
         (tofile (pad_encoded_text_tree
                    (encode_text_tree encoded_text
                       (BitArray_bin (json_dumps (py_reverse_dict rd)))))))
    = Raise e
    /\ (e = OverflowError \/ e = UnicodeDecodeError \/ e = JSONDecodeError).
Proof.
  intros Hrd Hvrd Hfit.
  remember (BitArray_bin (json_dumps (py_reverse_dict rd))) as tree eqn:Htree.
  remember (LBRACE :: dumps_items (py_reverse_dict rd)) as s eqn:Hs.
  assert (Htree' : tree = BitArray_bin s ++ byte_bits RBRACE).
  { rewrite Htree, Hs. unfold json_dumps.
    change ([LBRACE] ++ dumps_items (py_reverse_dict rd) ++ [RBRACE])
      with ((LBRACE :: dumps_items (py_reverse_dict rd)) ++ [RBRACE]).
    rewrite BitArray_bin_app. reflexivity. }
  unfold decompress.
  rewrite BitArray_bin_removelast, BitArray_bin_tofile
    by apply length_pad_encoded_text_tree.
  remember (encode_text_tree encoded_text tree) as frame eqn:Hframe.
  unfold encode_text_tree in Hframe. rewrite Htree' in Hframe at 2.
  destruct (format_b_spec 16 (N.of_nat (length tree)) Hfit)
    as [Hl16 Hv16]; [lia|].
  rewrite remove_padding_bits_truncated
    by (rewrite Hframe, !length_app, Hl16; lia).
  cbn [bind OK].
  assert (Hcut : firstn (length frame - 8) frame
                 = format_b 16 (N.of_nat (length tree))
                     ++ encoded_text ++ BitArray_bin s).
  { rewrite Hframe, !app_assoc. rewrite length_app, length_byte_bits.
    rewrite Nat.add_sub. now apply firstn_app_length. }
  rewrite Hcut. unfold get_encoded_text_mapping, slice_to, slice_from.
  rewrite firstn_app_length, skipn_app_length by exact Hl16.
  rewrite int2_OK, Hv16 by (rewrite Hl16; discriminate).
  cbn [bind OK]. rewrite Nat2N.id.
  assert (Hn : length tree = (length (BitArray_bin s) + 8)%nat)
    by (rewrite Htree', length_app; reflexivity).
  rewrite Hn.
  destruct (decode_mapping_truncated rd encoded_text Hrd Hvrd)
    as (e & Hd & Hkind).
  cbv zeta in Hd. rewrite <- Hs in Hd. rewrite Hd.
  exists e. split; [reflexivity | exact Hkind].
Qed.

(** ** The order of the frequency table *)

Lemma count_pos (c : char) (text : str) : In c text <-> 0 < count c text.
Proof.
  induction text as [|x text IH]; cbn [In count]; [split; [tauto | lia]|].
  destruct (N.eqb_spec x c) as [E|E].
  - split; [lia | now left].
  - split.
    + intros [?|H]; [contradiction | apply IH in H; lia].
    + intros H. right. apply IH. lia.
Qed.

Lemma dict_get_count_step (d : dict char N) (x c : char) :
  dict_get c (count_step d x)
  = if x =? c
    then Some (match dict_get c d with Some n => n + 1 | None => 1 end)
    else dict_get c d.
Proof.
  unfold count_step. destruct (N.eqb_spec x c) as [->|Hn].
  - destruct (dict_get c d); apply dict_get_set_same.
  - destruct (dict_get x d); now apply dict_get_set_other.
Qed.

Lemma dict_get_fold_count_step (text : str) (d : dict char N) (c : char) :
  dict_get c (fold_left count_step text d)
  = match dict_get c d with
    | Some n => Some (n + count c text)
    | None => if count c text =? 0 then None else Some (count c text)
    end.
Proof.
  revert d. induction text as [|x text IH]; intros d; cbn [fold_left count].
  - destruct (dict_get c d); [now rewrite N.add_0_r | reflexivity].
  - rewrite IH, dict_get_count_step.
    destruct (N.eqb_spec x c) as [->|Hn].
    + destruct (dict_get c d); [f_equal; lia|].
      destruct (N.eqb_spec (1 + count c text) 0); [lia | reflexivity].
    + destruct (dict_get c d); reflexivity.
Qed.

Lemma build_frequency_counts (text : str) (c : char) (n : N) :
  In (c, n) (build_frequency text) <-> In c text /\ n = count c text.
Proof.
  destruct (build_frequency_keys text) as [Hnd _].
  pose proof (dict_get_fold_count_step text [] c) as Hg.
  rewrite <- build_frequency_fold in Hg. cbn [dict_get] in Hg.
  rewrite count_pos. split.
  - intros Hi. apply (In_dict_get _ _ _ Hnd) in Hi. rewrite Hg in Hi.
    destruct (N.eqb_spec (count c text) 0); [discriminate|].
    injection Hi as <-. split; [lia | reflexivity].
  - intros [Hp ->]. apply dict_get_In. rewrite Hg.
    destruct (N.eqb_spec (count c text) 0); [lia | reflexivity].
Qed.

Lemma index_of_app_In (c x : char) (text : str) :
  In c text -> index_of c (text ++ [x]) = index_of c text.
Proof.
  induction text as [|y text IH]; cbn [In app index_of]; [tauto|].
  destruct (N.eqb_spec y c); [reflexivity|].
  intros [?|Hi]; [contradiction|]. now rewrite IH.
Qed.

Lemma index_of_lt (c : char) (text : str) :
  In c text -> (index_of c text < length text)%nat.
Proof.
  induction text as [|y text IH]; cbn [In index_of length]; [tauto|].
  destruct (N.eqb_spec y c); [lia|].
  intros [?|Hi]; [contradiction|]. apply IH in Hi. lia.
Qed.

Lemma index_of_fresh (x : char) (text : str) :
  ~ In x text -> index_of x (text ++ [x]) = length text.
Proof.
  induction text as [|y text IH]; cbn [In app index_of length].
  - now rewrite N.eqb_refl.
  - intros Hn. destruct (N.eqb_spec y x); [tauto|]. rewrite IH; tauto.
Qed.

Lemma index_order_app (keys text : str) (x : char) :
  (forall c, In c keys -> In c text) ->
  StronglySorted (fun a b => (index_of a text < index_of b text)%nat) keys ->
  StronglySorted
    (fun a b => (index_of a (text ++ [x]) < index_of b (text ++ [x]))%nat)
    keys.
Proof.
  intros Hk Hs. induction Hs as [|a l Hs IH Ha]; constructor.
  - apply IH. intros c Hc. apply Hk. now right.
  - rewrite Forall_forall in *. intros b Hb.
    rewrite !index_of_app_In by (apply Hk; cbn; auto). now apply Ha.
Qed.

Lemma index_order_snoc (keys text : str) (x : char) :
  (forall c, In c keys -> In c text) -> ~ In x text ->
  StronglySorted
    (fun a b => (index_of a (text ++ [x]) < index_of b (text ++ [x]))%nat)
    keys ->
  StronglySorted
    (fun a b => (index_of a (text ++ [x]) < index_of b (text ++ [x]))%nat)
    (keys ++ [x]).
Proof.
  intros Hk Hx Hs. induction Hs as [|a l Hs IH Ha]; cbn [app].
  - repeat constructor.
  - constructor.
    + apply IH. intros c Hc. apply Hk. now right.
    + apply Forall_app. split; [exact Ha|]. repeat constructor.
      rewrite index_of_fresh by exact Hx.
      rewrite index_of_app_In by (apply Hk; now left).
      apply index_of_lt, Hk. now left.
Qed.

(** The keys of [build_frequency] stand in the order of their first
    occurrence. *)
Lemma build_frequency_order (text : str) :
  StronglySorted (fun a b => (index_of a text < index_of b text)%nat)
    (map fst (build_frequency text)).
Proof.
  induction text as [|x text IH] using rev_ind; [constructor|].
  destruct (build_frequency_keys text) as [_ Hin].
  rewrite build_frequency_fold, fold_left_app. cbn [fold_left].
  rewrite <- build_frequency_fold, keys_count_step.
  apply (index_order_app _ _ x (fun c => proj1 (Hin c))) in IH.
  unfold dict_in. destruct (dict_get x (build_frequency text)) eqn:E;
    [exact IH|].
  apply dict_get_None in E. rewrite Hin in E.
  now apply index_order_snoc; [intros c; apply Hin | |].
Qed.

Lemma table_order_asym (text : str) (x y : char * N) :
  table_order text x y -> table_order text y x -> False.
Proof. unfold table_order. lia. Qed.

(** [insert_desc] keeps the table ordered when the item inserted comes
    first in the input among the items it is inserted into. *)
Lemma insert_desc_sorted (text : str) (x : char * N) (l : list (char * N)) :
  StronglySorted (table_order text) l ->
  Forall (fun y => (index_of (fst x) text < index_of (fst y) text)%nat) l ->
  StronglySorted (table_order text) (insert_desc x l).
Proof.
  intros Hs. induction Hs as [|y l Hs IH Hy]; intros Hx; cbn [insert_desc].
  - repeat constructor.
  - inversion Hx as [|? ? Hxy Hxl]; subst.
    destruct (N.ltb_spec (snd x) (snd y)) as [Hlt|Hge].
    + constructor; [now apply IH|].
      assert (Hp : Permutation (insert_desc x l) (x :: l))
        by apply insert_desc_Permutation.
      eapply Permutation_Forall; [symmetry; exact Hp|].
      constructor; [now left | exact Hy].
    + constructor; [now constructor|].
      constructor; [unfold table_order; lia|].
      rewrite Forall_forall in *. intros z Hz.
      specialize (Hy z Hz). specialize (Hxl z Hz).
      unfold table_order in *. lia.
Qed.

Lemma sorted_desc_sorted (text : str) (items : list (char * N)) :
  StronglySorted (fun a b => (index_of a text < index_of b text)%nat)
    (map fst items) ->
  StronglySorted (table_order text) (sorted_desc items).
Proof.
  induction items as [|x items IH]; cbn [map]; intros Hs; [constructor|].
  inversion Hs as [|? ? Hs' Hx]; subst.
  change (sorted_desc (x :: items)) with (insert_desc x (sorted_desc items)).
  apply insert_desc_sorted; [now apply IH|].
  eapply Permutation_Forall;
    [symmetry; apply sorted_desc_Permutation|].
  now rewrite Forall_map in Hx.
Qed.

Lemma sorted_frequency_is_table (text : str) :
  is_frequency_table text (sorted_frequency text).
Proof.
  destruct (sorted_frequency_keys text) as [Hnd _].
  split; [|split; [exact Hnd|]].
  - intros c n. rewrite sorted_frequency_eq, <- build_frequency_counts.
    split; apply Permutation_in;
      [apply sorted_desc_Permutation
      | symmetry; apply sorted_desc_Permutation].
  - rewrite sorted_frequency_eq.
    apply sorted_desc_sorted, build_frequency_order.
Qed.

Lemma StronglySorted_unique {A} (R : A -> A -> Prop) (l1 l2 : list A) :
  (forall x y, R x y -> R y x -> False) ->
  StronglySorted R l1 -> StronglySorted R l2 ->
  (forall x, In x l1 <-> In x l2) ->
  l1 = l2.
Proof.
  intros Hasym Hs1. revert l2.
  induction Hs1 as [|a l1 Hs1 IH Ha]; intros l2 Hs2 Hin.
  - destruct l2 as [|b l2]; [reflexivity|].
    destruct (proj2 (Hin b)); now left.
  - destruct Hs2 as [|b l2 Hs2 Hb].
    { destruct (proj1 (Hin a)); now left. }
    rewrite Forall_forall in Ha, Hb.
    assert (Hirr : forall x, R x x -> False) by (intros x Hx; eauto).
    assert (Eab : a = b).
    { destruct (proj1 (Hin a) (or_introl eq_refl)) as [E|Hal2]; [now symmetry|].
      destruct (proj2 (Hin b) (or_introl eq_refl)) as [E|Hbl1]; [exact E|].
      exfalso. eauto. }
    subst b. f_equal. apply IH; [exact Hs2|].
    intros x. split; intros Hx.
    + destruct (proj1 (Hin x) (or_intror Hx)) as [<-|H]; [|exact H].
      exfalso. eauto.
    + destruct (proj2 (Hin x) (or_intror Hx)) as [<-|H]; [|exact H].
      exfalso. eauto.
Qed.

(** ** The frequency table, entry by entry *)

Lemma filter_filter {A} (p q : A -> bool) (l : list A) :
  filter p (filter q l) = filter (fun x => q x && p x) l.
Proof.
  induction l as [|x l IH]; [reflexivity|]. cbn [filter].
  destruct (q x); cbn [filter andb]; [destruct (p x)|]; now rewrite IH.
Qed.

Lemma dict_in_count_step (d : dict char N) (c x : char) :
  dict_in x (count_step d c) = dict_in x d || (x =? c).
Proof.
  unfold dict_in. rewrite dict_get_count_step, (N.eqb_sym x c).
  destruct (c =? x), (dict_get x d); reflexivity.
Qed.

Lemma dict_in_keys (d : dict char N) (c : char) :
  dict_in c d = true <-> In c (map fst d).
Proof.
  unfold dict_in. split.
  - destruct (dict_get c d) as [n|] eqn:E; [|discriminate]. intros _.
    apply dict_get_In in E. now apply (in_map fst) in E.
  - intros Hi. destruct (dict_get c d) eqn:E; [reflexivity|].
    now apply dict_get_None in E.
Qed.

Lemma keys_fold_count_step (text : str) (d : dict char N) :
  map fst (fold_left count_step text d)
  = map fst d ++ filter (fun x => negb (dict_in x d)) (distinct text).
Proof.
  revert d. induction text as [|c text IH]; intros d.
  - cbn. now rewrite app_nil_r.
  - cbn [fold_left distinct filter]. rewrite IH, keys_count_step.
    rewrite filter_filter.
    destruct (dict_in c d) eqn:E; cbn [negb].
    + f_equal. apply filter_ext_in. intros x _.
      rewrite dict_in_count_step.
      destruct (N.eqb_spec x c) as [->|]; [now rewrite E|].
      now rewrite orb_false_r.
    + rewrite <- app_assoc. cbn [app]. do 2 f_equal.
      apply filter_ext. intros x. rewrite dict_in_count_step.
      destruct (dict_in x d), (x =? c); reflexivity.
Qed.

Lemma build_frequency_distinct (text : str) :
  map fst (build_frequency text) = distinct text.
Proof.
  rewrite build_frequency_fold, keys_fold_count_step. cbn [map app].
  rewrite <- (filter_ext (fun _ => true)) by reflexivity.
  induction (distinct text) as [|x l IH]; [reflexivity|].
  cbn [filter]. now rewrite IH.
Qed.

Lemma total_dict_set (c : char) (n : N) (d : dict char N) :
  total (dict_set c n d)
  = match dict_get c d with
    | Some m => total d - m + n
    | None => total d + n
    end.
Proof.
  unfold total. induction d as [|[k m] d IH]; cbn [dict_set dict_get].
  - cbn. lia.
  - change (@eqb N Eqb_N c k) with (c =? k).
    destruct (c =? k); cbn [map snd fold_right].
    + lia.
    + rewrite IH. destruct (dict_get c d) as [m'|] eqn:E; [|lia].
      assert (m' <= fold_right N.add 0 (map snd d)); [|lia].
      clear IH. induction d as [|[k' v'] d IH]; [discriminate|].
      cbn [dict_get] in E. cbn [map snd fold_right].
      destruct (eqb c k'); [injection E as ->; lia|].
      specialize (IH E). lia.
Qed.

Lemma total_count_step (d : dict char N) (c : char) :
  total (count_step d c) = total d + 1.
Proof.
  unfold count_step. destruct (dict_get c d) as [n|] eqn:E;
    rewrite total_dict_set, E; [|reflexivity].
  assert (n <= total d); [|lia].
  unfold total. clear -E. induction d as [|[k' v'] d IH]; [discriminate|].
  cbn [dict_get] in E. cbn [map snd fold_right].
  destruct (eqb c k'); [injection E as ->; lia|].
  specialize (IH E). lia.
Qed.

Lemma total_fold_count_step (text : str) (d : dict char N) :
  total (fold_left count_step text d) = total d + N.of_nat (length text).
Proof.
  revert d. induction text as [|c text IH]; intros d; cbn [fold_left length].
  - lia.
  - rewrite IH, total_count_step. lia.
Qed.


(** ** The weights of the tree *)

Lemma weight_app (s1 s2 : list TreeNode) :
  weight (s1 ++ s2) = weight s1 + weight s2.
Proof.
  unfold weight. induction s1 as [|t s1 IH]; cbn [app map fold_right]; lia.
Qed.

(** The loop keeps the weight of the stack, its leaves, and the sums in
    the merged nodes. *)
Lemma build_huffman_loop_weights (fuel : nat) (stack : list TreeNode) :
  stack <> [] -> (length stack <= S fuel)%nat ->
  exists root,
    build_huffman_loop fuel stack = OK [root]
    /\ freq root = weight stack
    /\ Permutation (leaves root) (flat_map leaves stack)
    /\ (Forall weights_add_up stack -> weights_add_up root)
    /\ ((2 <= length stack)%nat ->
        exists l r, root = mkTreeNode (freq l + freq r) None (Some l) (Some r)).
Proof.
  revert stack. induction fuel as [|fuel IH]; intros stack Hne Hlen.
  - destruct stack as [|t [|t' stack]]; [congruence | | simpl in Hlen; lia].
    exists t. cbn [build_huffman_loop flat_map weight map fold_right length].
    rewrite app_nil_r, N.add_0_r.
    repeat split; [reflexivity | now inversion 1 | simpl; lia].
  - cbn [build_huffman_loop].
    destruct (1 <? length stack)%nat eqn:E.
    + apply Nat.ltb_lt in E.
      destruct (two_last stack E) as (s & n2 & n1 & ->).
      rewrite merge_step_snoc. cbn [bind].
      rewrite length_app in Hlen. cbn [length] in Hlen.
      destruct (IH (mkTreeNode (freq n1 + freq n2) None (Some n1) (Some n2)
                      :: s)) as (root & Hr & Hw & Hp & Ha & Hm);
        [discriminate | cbn [length]; lia |].
      exists root. split; [exact Hr|]. split; [|split; [|split]].
      * rewrite Hw, weight_app. unfold weight.
        cbn [map fold_right freq]. lia.
      * rewrite Hp. cbn [flat_map leaves]. rewrite flat_map_app.
        cbn [flat_map]. rewrite app_nil_r.
        etransitivity; [apply Permutation_app_comm|].
        apply Permutation_app_head, Permutation_app_comm.
      * intros Hs. apply Forall_app in Hs. destruct Hs as [Hs Hn].
        inversion Hn as [|? ? Hn2 Hn']. inversion Hn' as [|? ? Hn1 _].
        apply Ha. constructor; [|exact Hs]. cbn [weights_add_up].
        auto.
      * intros _. destruct s as [|t s].
        -- destruct fuel; cbn in Hr; injection Hr as <-; eauto.
        -- apply Hm. cbn [length]. lia.
    + apply Nat.ltb_ge in E.
      destruct stack as [|t [|t' stack]]; [congruence | | simpl in E; lia].
      exists t. cbn [flat_map weight map fold_right length].
      rewrite app_nil_r, N.add_0_r.
      repeat split; [reflexivity | now inversion 1 | simpl; lia].
Qed.

Lemma flat_map_leaves_of (frequency : dict char N) :
  flat_map leaves (leaves_of frequency) = frequency.
Proof.
  induction frequency as [|[c n] d IH]; [reflexivity|].
  cbn [leaves_of map flat_map]. fold (leaves_of d). rewrite IH.
  reflexivity.
Qed.

Lemma weight_leaves_of (frequency : dict char N) :
  weight (leaves_of frequency) = total frequency.
Proof.
  unfold weight, total, leaves_of. rewrite map_map. reflexivity.
Qed.

Lemma leaves_of_weights_add_up (frequency : dict char N) :
  Forall weights_add_up (leaves_of frequency).
Proof.
  unfold leaves_of. apply Forall_map, Forall_forall. intros [c n] _. exact I.
Qed.

Lemma total_Permutation (d1 d2 : dict char N) :
  Permutation d1 d2 -> total d1 = total d2.
Proof.
  unfold total. induction 1; cbn [map fold_right]; lia.
Qed.

Lemma leaves_of_nil (frequency : dict char N) :
  leaves_of frequency = [] -> frequency = [].
Proof. destruct frequency; [reflexivity | discriminate]. Qed.

(** ** Codes *)

Lemma codes_of_not_nil (root : TreeNode) :
  (2 <= leaf_count root)%nat -> ~ In [] (map snd (codes_of root [])).
Proof.
  intros H2 Hi. apply in_map_iff in Hi as [[c k] [E Hk]].
  cbn [snd] in E. subst k.
  destruct root as [f [ch|] l r].
  - cbn [leaf_count] in H2. lia.
  - cbn [codes_of] in Hk. apply in_app_or in Hk as [Hk|Hk].
    + destruct l as [l|]; [|destruct Hk].
      apply codes_of_prefix, prefix_length in Hk. cbn in Hk. lia.
    + destruct r as [r|]; [|destruct Hk].
      apply codes_of_prefix, prefix_length in Hk. cbn in Hk. lia.
Qed.

Lemma map_fst_swap {A B} (l : list (A * B)) : map fst (map swap l) = map snd l.
Proof. rewrite map_map. reflexivity. Qed.

Lemma In_swap {A B} (a : A) (b : B) (l : list (A * B)) :
  In (b, a) (map swap l) <-> In (a, b) l.
Proof.
  split.
  - intros Hi. apply in_map_iff in Hi as [[a' b'] [E Hi]].
    unfold swap in E. cbn in E. now injection E as <- <-.
  - intros Hi. apply in_map_iff. now exists (a, b).
Qed.

Lemma bits_value_lt_length (n : N) (w : nat) :
  n <> 0 -> length (bin_digits n) = w -> n < 2 ^ N.of_nat w.
Proof.
  intros Hn <-. destruct n as [|p]; [congruence|]. cbn [bin_digits].
  rewrite <- (bits_value_pos_bits p) at 1. apply bits_value_bound.
Qed.

Lemma length_format_b (w : nat) (n : N) :
  (0 < w)%nat -> length (format_b w n) = w <-> n < 2 ^ N.of_nat w.
Proof.
  intros Hw. split; [|intros Hn; now apply format_b_spec].
  unfold format_b. destruct n as [|p]; [intros _; apply N.neq_0_lt_0; lia|].
  rewrite length_app, repeat_length. intros Hl.
  pose proof (bits_value_lt_length (Npos p) (length (bin_digits (Npos p))))
    as Hb.
  specialize (Hb ltac:(discriminate) eq_refl).
  eapply N.lt_le_trans; [exact Hb|].
  apply N.pow_le_mono_r; lia.
Qed.

(** ** What the decoder reads from any bit string *)

Lemma int2_Raise (s : bits) (e : exn) : int2 s = Raise e -> e = ValueError.
Proof. destruct s; [now intros [= <-] | discriminate]. Qed.

Lemma int2_nil_iff (s : bits) : int2 s = Raise ValueError <-> s = [].
Proof. destruct s; split; try discriminate; reflexivity. Qed.

Lemma firstn_nil_iff {A} (n : nat) (l : list A) :
  (0 < n)%nat -> firstn n l = [] <-> l = [].
Proof.
  intros Hn. destruct n; [lia|]. destruct l; split; try discriminate;
    reflexivity.
Qed.

Lemma remove_padding_bits_Raise (bit_string : bits) (e : exn) :
  remove_padding_bits bit_string = Raise e -> e = ValueError.
Proof.
  unfold remove_padding_bits.
  destruct (int2 _) eqn:E; cbn [bind OK]; [|discriminate].
  intros [= <-]. now apply int2_Raise in E.
Qed.

Lemma get_encoded_text_mapping_Raise (bit_string : bits) (e : exn) :
  get_encoded_text_mapping bit_string = Raise e -> e = ValueError.
Proof.
  unfold get_encoded_text_mapping.
  destruct (int2 _) eqn:E; cbn [bind OK]; [|discriminate].
  intros [= <-]. now apply int2_Raise in E.
Qed.

Lemma slice_neg_split {A} (n : nat) (s : list A) :
  slice_to_neg n s ++ slice_from_neg n s = s.
Proof.
  destruct n; [reflexivity|]. unfold slice_to_neg, slice_from_neg.
  apply firstn_skipn.
Qed.

Lemma slice_to_neg_prefix {A} (n : nat) (s : list A) :
  exists dropped, s = slice_to_neg n s ++ dropped.
Proof. exists (slice_from_neg n s). symmetry. apply slice_neg_split. Qed.

(** ** The loop of [decode_bits] on any table *)

Lemma bind_Raise {A B} (r : result A) (k : A -> result B) (e : exn) :
  bind r k = Raise e -> r = Raise e \/ exists a, r = OK a /\ k a = Raise e.
Proof.
  destruct r as [e'|a]; cbn [bind]; [intros [= ->]; now left | right; eauto].
Qed.

Lemma dict_get_nonempty_key {V} (k : str) (d : dict str V) :
  k <> [] -> dict_get k (filter nonempty_key d) = dict_get k d.
Proof.
  intros Hk. induction d as [|[k' v] d IH]; [reflexivity|].
  cbn [filter dict_get]. unfold nonempty_key at 1. cbn [fst].
  destruct k' as [|x k'].
  - rewrite IH. destruct (eqb k []) eqn:E; [|reflexivity].
    apply eqb_true in E. contradiction.
  - cbn [dict_get]. now rewrite IH.
Qed.

Lemma bin_str_snoc_not_nil (code : bits) (bit : bool) :
  bin_str (code ++ [bit]) <> [].
Proof. unfold bin_str. rewrite map_app. now destruct (map _ code). Qed.

Lemma decode_loop_nonempty_key (d : dict str json) (encoded_text : bits) :
  forall (decoded_text : str) (code : bits),
    decode_loop encoded_text (JObject (filter nonempty_key d)) decoded_text code
    = decode_loop encoded_text (JObject d) decoded_text code.
Proof.
  induction encoded_text as [|bit rest IH]; intros decoded_text code;
    [reflexivity|].
  cbn [decode_loop py_contains py_getitem]. unfold dict_in, dict_item.
  rewrite dict_get_nonempty_key by apply bin_str_snoc_not_nil.
  destruct (dict_get (bin_str (code ++ [bit])) d) as [v|]; cbn [bind OK].
  - destruct (py_iadd decoded_text v); cbn [bind]; [reflexivity | apply IH].
  - apply IH.
Qed.

Lemma decode_loop_not_object (reverse_dict : json) (encoded_text : bits) :
  (forall d, reverse_dict <> JObject d) ->
  forall code : bits,
    (exists code', decode_loop encoded_text reverse_dict [] code
                   = OK ([], code'))
    \/ decode_loop encoded_text reverse_dict [] code = Raise TypeError.
Proof.
  intros Hno. induction encoded_text as [|bit rest IH]; intros code.
  - left. now exists code.
  - cbn [decode_loop].
    destruct reverse_dict as [|b|lexeme|name|s|l|d];
      cbn [py_contains py_getitem bind OK Raise]; try (now right).
    + destruct (is_substring _ _); [now right | apply IH].
    + destruct (existsb _ _); [now right | apply IH].
    + now destruct (Hno d).
Qed.


Lemma decode_loop_app (reverse_dict : json) (a b : bits) :
  forall (decoded_text : str) (code : bits),
    decode_loop (a ++ b) reverse_dict decoded_text code
    = ('(decoded_text', code') <-
         decode_loop a reverse_dict decoded_text code ;;
       decode_loop b reverse_dict decoded_text' code').
Proof.
  induction a as [|bit a IH]; intros decoded_text code; [reflexivity|].
  cbn [app decode_loop].
  destruct (py_contains _ _) as [e|[|]]; cbn [bind]; [reflexivity | | apply IH].
  destruct (py_getitem _ _) as [e|value]; cbn [bind]; [reflexivity|].
  destruct (py_iadd _ _) as [e|text']; cbn [bind]; [reflexivity | apply IH].
Qed.

Lemma py_iadd_app (out decoded_text : str) (value : json) :
  py_iadd (out ++ decoded_text) value
  = (text' <- py_iadd decoded_text value ;; OK (out ++ text')).
Proof.
  destruct value; cbn [py_iadd bind OK]; try reflexivity.
  now rewrite app_assoc.
Qed.

Lemma decode_loop_out (reverse_dict : json) (b : bits) (out : str) :
  forall (decoded_text : str) (code : bits),
    decode_loop b reverse_dict (out ++ decoded_text) code
    = ('(text', code') <- decode_loop b reverse_dict decoded_text code ;;
       OK (out ++ text', code')).
Proof.
  induction b as [|bit b IH]; intros decoded_text code; [reflexivity|].
  cbn [decode_loop].
  destruct (py_contains _ _) as [e|[|]]; cbn [bind]; [reflexivity | | apply IH].
  destruct (py_getitem _ _) as [e|value]; cbn [bind]; [reflexivity|].
  rewrite py_iadd_app.
  destruct (py_iadd decoded_text value) as [e|text']; cbn [bind OK];
    [reflexivity | apply IH].
Qed.

(** ** The exceptions of the decoder *)


Lemma utf8_decode_Raise_aux (n : nat) :
  forall (bs : bytes) (e : exn),
    (length bs <= n)%nat -> utf8_decode bs = Raise e -> e = UnicodeDecodeError.
Proof.
  induction n as [|n IH]; intros bs e Hn H.
  - destruct bs; [discriminate | cbn in Hn; lia].
  - destruct bs as [|b0 r]; [discriminate|]. cbn [length] in Hn.
    assert (Hnext : forall (r' : bytes) (c : N),
               (length r' <= length r)%nat ->
               (s <- utf8_decode r' ;; OK (c :: s)) = Raise e ->
               e = UnicodeDecodeError).
    { intros r' c Hr' Hb. apply bind_Raise in Hb as [Hb|(s & _ & Hb)];
        [|discriminate].
      apply (IH r'); [lia | exact Hb]. }
    clear IH. cbn [utf8_decode] in H.
    destruct (b0 <? 128); [now apply Hnext in H|].
    destruct (in_range 194 223 b0).
    { destruct r as [|b1 r']; [now injection H as <-|].
      destruct (in_range 128 191 b1); [|now injection H as <-].
      apply Hnext in H; [exact H | cbn [length]; lia]. }
    destruct (in_range 224 239 b0).
    { destruct r as [|b1 [|b2 r']]; try (now injection H as <-).
      destruct (_ && _); [|now injection H as <-].
      apply Hnext in H; [exact H | cbn [length]; lia]. }
    destruct (in_range 240 244 b0); [|now injection H as <-].
    destruct r as [|b1 [|b2 [|b3 r']]]; try (now injection H as <-).
    destruct (_ && _); [|now injection H as <-].
    apply Hnext in H; [exact H | cbn [length]; lia].
Qed.

Lemma utf8_decode_Raise (bs : bytes) (e : exn) :
  utf8_decode bs = Raise e -> e = UnicodeDecodeError.
Proof. apply (utf8_decode_Raise_aux (length bs)). lia. Qed.



Lemma length_slice_from {A} (n : nat) (s : list A) :
  length (slice_from n s) = (length s - n)%nat.
Proof. apply length_skipn. Qed.

Lemma length_slice_to_neg {A} (n : nat) (s : list A) :
  (length (slice_to_neg n s) <= length s)%nat.
Proof.
  unfold slice_to_neg. destruct n; [cbn [length]; lia|].
  rewrite length_firstn. lia.
Qed.

Lemma length_remove_padding_bits (bit_string out : bits) :
  remove_padding_bits bit_string = OK out ->
  (length out <= length bit_string - 8)%nat.
Proof.
  unfold remove_padding_bits.
  destruct (int2 _) as [e|n]; cbn [bind OK]; [discriminate|].
  intros H.
  assert (E : out = slice_to_neg (N.to_nat n) (slice_from 8 bit_string))
    by (unfold OK in H; congruence).
  rewrite E, <- (length_slice_from 8 bit_string).
  apply length_slice_to_neg.
Qed.

Lemma decode_short (bit_string : bits) :
  (length bit_string <= 16)%nat ->
  ('(encoded_text, encoded_mapping) <- get_encoded_text_mapping bit_string ;;
   reverse_mapping_dict <- decode_mapping encoded_mapping ;;
   decode_bits encoded_text reverse_mapping_dict)
  = Raise ValueError.
Proof.
  intros Hl. unfold get_encoded_text_mapping, slice_to, slice_from.
  rewrite firstn_all2, skipn_all2 by exact Hl.
  destruct bit_string as [|b bit_string]; [reflexivity|].
  cbn [int2 bind OK].
  replace (slice_from_neg _ []) with (@nil bool)
    by (unfold slice_from_neg; now destruct (N.to_nat _)).
  reflexivity.
Qed.

(** ** Paths *)

Lemma rfind_range (p : str) (c : char) :
  (-1 <= rfind p c < Z.of_nat (length p))%Z.
Proof.
  induction p as [|x p IH]; cbn [rfind length]; [lia|].
  destruct (Z.leb_spec 0 (rfind p c)); [lia|].
  destruct (x =? c); lia.
Qed.

Lemma rfind_skipn (p : str) (c : char) :
  (0 <= rfind p c)%Z ->
  exists r, skipn (Z.to_nat (rfind p c)) p = c :: r /\ ~ In c r.
Proof.
  induction p as [|x p IH]; cbn [rfind]; [lia|].
  destruct (Z.leb_spec 0 (rfind p c)) as [Hi|Hi].
  - intros _. destruct (IH Hi) as (r & Hr & Hn). exists r.
    rewrite Z2Nat.inj_add, Nat.add_1_r by lia. cbn [Z.to_nat skipn].
    auto.
  - assert (Hp : ~ In c p).
    { clear IH. induction p as [|y p IHp]; [tauto|]. cbn [rfind] in Hi.
      destruct (Z.leb_spec 0 (rfind p c)); [lia|].
      destruct (N.eqb_spec y c); [lia|].
      intros [?|?]; [contradiction | now apply IHp]. }
    destruct (N.eqb_spec x c) as [->|]; [|lia].
    intros _. exists p. auto.
Qed.

Lemma splitext_loop_cases (fuel : nat) (p : str) (i dotIndex : nat) :
  splitext_loop fuel p i dotIndex = (p, [])
  \/ splitext_loop fuel p i dotIndex = (firstn dotIndex p, skipn dotIndex p).
Proof.
  revert i. induction fuel as [|fuel IH]; intros i; cbn [splitext_loop];
    [now left|].
  destruct (i <? dotIndex)%nat; [|now left].
  destruct (negb _); [now right | apply IH].
Qed.

(** The two parts [splitext] returns make the path; the extension is
    empty, or starts with the only dot it has. *)
Lemma splitext_spec (p : str) :
  fst (splitext p) ++ snd (splitext p) = p
  /\ (snd (splitext p) = []
      \/ exists r, snd (splitext p) = DOT :: r /\ ~ In DOT r).
Proof.
  unfold splitext.
  destruct (Z.ltb_spec (rfind p SLASH) (rfind p DOT)) as [Hlt|Hge].
  - destruct (splitext_loop_cases (length p) p
                (Z.to_nat (rfind p SLASH + 1)) (Z.to_nat (rfind p DOT)))
      as [-> | ->]; cbn [fst snd].
    + rewrite app_nil_r. auto.
    + split; [apply firstn_skipn|]. right. apply rfind_skipn.
      pose proof (rfind_range p SLASH). lia.
  - cbn [fst snd]. rewrite app_nil_r. auto.
Qed.

(** ** What [compress] writes *)

Lemma length_format_b_ge (w : nat) (n : N) :
  (w <= length (format_b w n))%nat.
Proof. unfold format_b. rewrite length_app, repeat_length. lia. Qed.

Lemma BitArray_tofile_bytes (fuel : nat) (s : bits) :
  Forall (fun b => b < 256) (BitArray_tofile fuel s).
Proof.
  revert s. induction fuel as [|fuel IH]; intros s; cbn [BitArray_tofile].
  - destruct s; constructor.
  - destruct s as [|b s]; [constructor|]. constructor; [|apply IH].
    eapply N.lt_le_trans; [apply bits_value_bound|].
    change 256 with (2 ^ N.of_nat 8). apply N.pow_le_mono_r; [lia|].
    rewrite length_firstn. lia.
Qed.

Lemma tofile_first_byte (a rest : bits) :
  length a = 8%nat ->
  exists file, tofile (a ++ rest) = bits_value a :: file.
Proof.
  intros Ha. unfold tofile. rewrite length_app, Ha. cbn [Nat.add].
  destruct a as [|b a]; [discriminate|]. cbn [app BitArray_tofile].
  eexists. f_equal. f_equal.
  rewrite <- app_assoc.
  change (b :: a ++ rest ++ repeat false 7)
    with ((b :: a) ++ rest ++ repeat false 7).
  now apply firstn_app_length.
Qed.

Lemma length_tofile_pad (s : bits) :
  length (tofile (pad_encoded_text_tree s)) = (length s / 8 + 2)%nat.
Proof.
  pose proof (length_pad_encoded_text_tree s) as Hm.
  pose proof (BitArray_bin_tofile _ Hm) as Hb.
  assert (Hl : length (pad_encoded_text_tree s)
               = (8 * length (tofile (pad_encoded_text_tree s)))%nat)
    by (rewrite <- Hb at 1; apply length_BitArray_bin).
  set (len := length (tofile _)) in *. clearbody len. clear Hb Hm.
  rewrite pad_encoded_text_tree_eq in Hl.
  rewrite !length_app, repeat_length in Hl.
  destruct (format_b_pad_count s) as [Hf _].
  rewrite Hf in Hl. unfold pad_count in Hl. clear Hf.
  set (n := length s) in *. clearbody n.
  assert (E : N.to_nat (8 - N.of_nat n mod 8) = (8 - n mod 8)%nat).
  { pose proof (Nat.mod_upper_bound n 8 ltac:(lia)).
    rewrite N2Nat.inj_sub.
    change 8 with (N.of_nat 8) at 2.
    rewrite <- Nat2N.inj_mod, !Nat2N.id. reflexivity. }
  rewrite E in Hl. clear E.
  pose proof (Nat.div_mod_eq n 8) as Hd.
  pose proof (Nat.mod_upper_bound n 8 ltac:(lia)) as Hu.
  set (q := (n / 8)%nat) in *. set (r := (n mod 8)%nat) in *.
  clearbody q r. lia.
Qed.


(** ** The end of the sorted stack *)

Lemma StronglySorted_last_two {A} (R : A -> A -> Prop) (l : list A) (y x : A) :
  StronglySorted R (l ++ [y; x]) ->
  R y x /\ Forall (fun t => R t y /\ R t x) l.
Proof.
  induction l as [|a l IH]; cbn [app]; intros Hs.
  - inversion Hs as [|? ? _ Hf]. inversion Hf. auto.
  - inversion Hs as [|? ? Hs' Hf]. destruct (IH Hs') as [Hyx Hl].
    split; [exact Hyx|]. constructor; [|exact Hl].
    rewrite Forall_app in Hf. destruct Hf as [_ Hf].
    inversion Hf as [|? ? Hy Hf']. inversion Hf'. auto.
Qed.

Lemma table_order_le (text : str) (x y : char * N) :
  table_order text x y -> snd y <= snd x.
Proof. intros [H|[H _]]; lia. Qed.

(** ** The depths of the leaves *)

Lemma codes_of_depth (root : TreeNode) :
  forall (p : bits) c k,
    In (c, k) (codes_of root p) ->
    (length p + depth_min root <= length k <= length p + depth_max root)%nat.
Proof.
  induction root as [f ch l r IHl IHr] using TreeNode_ind.
  intros p c k Hk. destruct ch as [ch|].
  - cbn [codes_of] in Hk. destruct Hk as [[= _ <-]|[]].
    cbn [depth_min depth_max]. lia.
  - cbn [codes_of] in Hk. apply in_app_or in Hk.
    destruct l as [a|], r as [b|]; cbn [option_all] in IHl, IHr;
      cbn [depth_min depth_max]; destruct Hk as [Hk|Hk]; try destruct Hk.
    + apply IHl in Hk. rewrite length_app in Hk. cbn [length] in Hk. lia.
    + apply IHr in Hk. rewrite length_app in Hk. cbn [length] in Hk. lia.
    + apply IHl in Hk. rewrite length_app in Hk. cbn [length] in Hk. lia.
    + apply IHr in Hk. rewrite length_app in Hk. cbn [length] in Hk. lia.
Qed.

Lemma StronglySorted_app_l {A} (R : A -> A -> Prop) (l1 l2 : list A) :
  StronglySorted R (l1 ++ l2) -> StronglySorted R l1.
Proof.
  induction l1 as [|a l1 IH]; cbn [app]; intros Hs; [constructor|].
  inversion Hs as [|? ? Hs' Hf]. constructor; [now apply IH|].
  rewrite Forall_app in Hf. tauto.
Qed.

Lemma balanced_stack_leaves_of (frequency : dict char N) :
  balanced_stack (leaves_of frequency).
Proof.
  assert (Hz : Forall (fun t => depth_min t = 0%nat /\ depth_max t = 0%nat)
                 (leaves_of frequency)).
  { unfold leaves_of. apply Forall_map, Forall_forall. now intros [c n] _. }
  rewrite Forall_forall in Hz. split; [|split].
  - induction (leaves_of frequency) as [|t stack IH]; constructor.
    + apply IH. intros x Hx. apply Hz. now right.
    + apply Forall_forall. intros x Hx. unfold not_deeper.
      destruct (Hz t (or_introl eq_refl)), (Hz x (or_intror Hx)). lia.
  - intros s t Hs Ht. destruct (Hz s Hs), (Hz t Ht). lia.
  - apply Forall_forall. intros t Ht. destruct (Hz t Ht). lia.
Qed.

Lemma balanced_stack_merge (stack : list TreeNode) (node_2 node_1 : TreeNode)
    (f : N) :
  balanced_stack (stack ++ [node_2; node_1]) ->
  balanced_stack (mkTreeNode f None (Some node_1) (Some node_2) :: stack).
Proof.
  intros (Hs & Hr & Hm).
  pose proof (StronglySorted_app_l _ _ _ Hs) as Hs'.
  apply StronglySorted_last_two in Hs. destruct Hs as [H21 Hl].
  rewrite Forall_forall in Hl. unfold not_deeper in H21, Hl.
  rewrite Forall_app in Hm. destruct Hm as [Hm Hm2].
  inversion Hm2 as [|? ? Hm_2 Hm1]. inversion Hm1 as [|? ? Hm_1 _].
  assert (In1 : In node_1 (stack ++ [node_2; node_1]))
    by (apply in_or_app; right; cbn; auto).
  assert (In2 : In node_2 (stack ++ [node_2; node_1]))
    by (apply in_or_app; right; cbn; auto).
  assert (Ins : forall t, In t stack -> In t (stack ++ [node_2; node_1]))
    by (intros t Ht; apply in_or_app; now left).
  pose proof (Hr node_1 node_1 In1 In1). pose proof (Hr node_1 node_2 In1 In2).
  pose proof (Hr node_2 node_1 In2 In1). pose proof (Hr node_2 node_2 In2 In2).
  split; [|split].
  - constructor; [exact Hs'|]. apply Forall_forall. intros t Ht.
    unfold not_deeper. cbn [depth_min].
    pose proof (Hr t node_1 (Ins t Ht) In1).
    pose proof (Hr t node_2 (Ins t Ht) In2). lia.
  - intros s t [<-|Hs] [<-|Ht]; cbn [depth_min depth_max].
    + lia.
    + destruct (Hl t Ht). lia.
    + pose proof (Hr s node_1 (Ins s Hs) In1).
      pose proof (Hr s node_2 (Ins s Hs) In2). lia.
    + apply Hr; auto.
  - constructor; [cbn [depth_min depth_max]; lia | exact Hm].
Qed.

(** What every turn of the loop keeps, the loop keeps. *)
Lemma build_huffman_loop_invariant (P : list TreeNode -> Prop) :
  (forall stack node_2 node_1,
      P (stack ++ [node_2; node_1]) ->
      P (mkTreeNode (freq node_1 + freq node_2) None
           (Some node_1) (Some node_2) :: stack)) ->
  forall (fuel : nat) (stack res : list TreeNode),
    P stack -> build_huffman_loop fuel stack = OK res -> P res.
Proof.
  intros Hstep. induction fuel as [|fuel IH]; intros stack res Hb;
    cbn [build_huffman_loop].
  - now intros [= <-].
  - destruct (1 <? length stack)%nat eqn:E; [|now intros [= <-]].
    apply Nat.ltb_lt in E. destruct (two_last stack E) as (s & n2 & n1 & ->).
    rewrite merge_step_snoc. cbn [bind]. apply IH. now apply Hstep.
Qed.

Lemma build_huffman_tree_balanced (stack res : list TreeNode) :
  balanced_stack stack -> build_huffman_tree stack = OK res ->
  balanced_stack res.
Proof.
  apply (build_huffman_loop_invariant balanced_stack).
  intros s n2 n1. apply balanced_stack_merge.
Qed.

Lemma build_huffman_tree_full (stack res : list TreeNode) :
  Forall full stack -> build_huffman_tree stack = OK res -> Forall full res.
Proof.
  apply (build_huffman_loop_invariant (Forall full)).
  intros s n2 n1 Hf. apply Forall_app in Hf. destruct Hf as [Hs Hn].
  inversion Hn as [|? ? H2 Hn']. inversion Hn' as [|? ? H1 _].
  constructor; [now split | exact Hs].
Qed.

Lemma leaves_of_full (frequency : dict char N) :
  Forall full (leaves_of frequency).
Proof.
  unfold leaves_of. apply Forall_map, Forall_forall. now intros [c n] _.
Qed.

(** A tree whose merged nodes have two children has between [2 ^ depth_min]
    and [2 ^ depth_max] leaves, and neither number when the two depths
    differ. *)
Lemma leaf_count_full (root : TreeNode) :
  full root ->
  (2 ^ depth_min root <= leaf_count root <= 2 ^ depth_max root)%nat
  /\ (depth_min root <= depth_max root)%nat
  /\ ((depth_min root < depth_max root)%nat ->
      (2 ^ depth_min root < leaf_count root < 2 ^ depth_max root)%nat).
Proof.
  induction root as [f ch l r IHl IHr] using TreeNode_ind.
  destruct ch as [ch|]; [cbn; intros _; lia|].
  destruct l as [a|], r as [b|]; cbn [full]; try contradiction.
  cbn [option_all] in IHl, IHr. intros [Ha Hb].
  destruct (IHl Ha) as ((Ha1 & Ha2) & Ha3 & Ha4).
  destruct (IHr Hb) as ((Hb1 & Hb2) & Hb3 & Hb4).
  clear IHl IHr. cbn [depth_min depth_max leaf_count].
  rewrite !Nat.pow_succ_r'.
  set (da := depth_min a) in *. set (Da := depth_max a) in *.
  set (db := depth_min b) in *. set (Db := depth_max b) in *.
  set (na := leaf_count a) in *. set (nb := leaf_count b) in *.
  clearbody da Da db Db na nb.
  pose proof (Nat.pow_le_mono_r 2 _ _ ltac:(lia) (Nat.le_min_l da db)) as Hm1.
  pose proof (Nat.pow_le_mono_r 2 _ _ ltac:(lia) (Nat.le_min_r da db)) as Hm2.
  pose proof (Nat.pow_le_mono_r 2 _ _ ltac:(lia) (Nat.le_max_l Da Db)) as HM1.
  pose proof (Nat.pow_le_mono_r 2 _ _ ltac:(lia) (Nat.le_max_r Da Db)) as HM2.
  split; [lia|]. split; [lia|]. intros Hlt.
  destruct (Nat.lt_ge_cases da Da) as [Hsa|Hea];
    [specialize (Ha4 Hsa); lia|].
  destruct (Nat.lt_ge_cases db Db) as [Hsb|Heb];
    [specialize (Hb4 Hsb); lia|].
  assert (Ea : da = Da) by lia. assert (Eb : db = Db) by lia.
  subst Da Db. clear Ha4 Hb4 Hea Heb Ha3 Hb3.
  destruct (Nat.lt_trichotomy da db) as [Hab|[Hab|Hab]]; [|lia|].
  - rewrite Nat.min_l, Nat.max_r in * by lia.
    pose proof (Nat.pow_lt_mono_r 2 da db ltac:(lia) Hab). lia.
  - rewrite Nat.min_r, Nat.max_l in * by lia.
    pose proof (Nat.pow_lt_mono_r 2 db da ltac:(lia) Hab). lia.
Qed.


(** ** The order of the leaves *)

Lemma codes_of_shift (root : TreeNode) :
  forall p : bits,
    codes_of root p = map (fun ck => (fst ck, p ++ snd ck)) (codes_of root []).
Proof.
  induction root as [f ch l r IHl IHr] using TreeNode_ind. intros p.
  destruct ch as [ch|]; cbn [codes_of]; [cbn; now rewrite app_nil_r|].
  rewrite map_app. f_equal.
  - destruct l as [a|]; [|reflexivity]. cbn [option_all] in IHl.
    rewrite (IHl (p ++ [false])), (IHl ([] ++ [false])), map_map.
    apply map_ext. intros [c k]. cbn [fst snd app].
    now rewrite <- app_assoc.
  - destruct r as [b|]; [|reflexivity]. cbn [option_all] in IHr.
    rewrite (IHr (p ++ [true])), (IHr ([] ++ [true])), map_map.
    apply map_ext. intros [c k]. cbn [fst snd app].
    now rewrite <- app_assoc.
Qed.

Lemma depths_merged (f : N) (node_1 node_2 : TreeNode) :
  depths (mkTreeNode f None (Some node_1) (Some node_2))
  = map deeper (depths node_1 ++ depths node_2).
Proof.
  unfold depths. cbn [codes_of app].
  rewrite (codes_of_shift node_1 [false]), (codes_of_shift node_2 [true]).
  rewrite !map_app, !map_map. reflexivity.
Qed.

Lemma rotated_leaves_of (frequency : dict char N) :
  rotated (map fst frequency) (leaves_of frequency).
Proof.
  exists (map (fun kv => (fst kv, 0%nat)) (rev frequency)), [], 0%nat.
  rewrite app_nil_r. cbn [map app]. split; [|split; [|split]].
  - unfold leaves_of. rewrite <- map_rev.
    induction (rev frequency) as [|[c n] l IH]; [reflexivity|].
    cbn [map flat_map]. now rewrite IH.
  - now rewrite map_map, map_rev.
  - apply Forall_map, Forall_forall. reflexivity.
  - constructor.
Qed.

Lemma Forall_deeper (d : nat) (l : list (char * nat)) :
  Forall (fun cd => snd cd = d) l ->
  Forall (fun cd => snd cd = S d) (map deeper l).
Proof.
  intros H. apply Forall_map. revert H. apply Forall_impl.
  intros [c n]. cbn. congruence.
Qed.

Lemma map_fst_deeper (l : list (char * nat)) :
  map fst (map deeper l) = map fst l.
Proof. rewrite map_map. reflexivity. Qed.

Lemma rotated_merge (keys : list char) (stack : list TreeNode)
    (node_2 node_1 : TreeNode) (f : N) :
  rotated keys (stack ++ [node_2; node_1]) ->
  rotated keys (mkTreeNode f None (Some node_1) (Some node_2) :: stack).
Proof.
  intros (upper & lower & d & HL & Hk & Hu & Hl).
  rewrite rev_app_distr in HL. cbn [rev app flat_map] in HL.
  rewrite app_assoc in HL.
  assert (E : flat_map depths
                (rev (mkTreeNode f None (Some node_1) (Some node_2) :: stack))
              = flat_map depths (rev stack)
                ++ map deeper (depths node_1 ++ depths node_2)).
  { cbn [rev]. rewrite flat_map_app. cbn [flat_map].
    now rewrite app_nil_r, depths_merged. }
  unfold rotated. rewrite E. clear E.
  set (popped := depths node_1 ++ depths node_2) in *.
  set (rest := flat_map depths (rev stack)) in *. clearbody popped rest.
  apply app_eq_app in HL. destruct HL as (l & [[E1 E2]|[E1 E2]]).
  - (* the nodes popped hold all the leaves up to the first key, and leaves
       from the last key on *)
    subst popped lower. apply Forall_app in Hl. destruct Hl as [Hl Hr].
    exists (rest ++ map deeper upper), (map deeper l), (S d).
    split; [now rewrite map_app, app_assoc|]. split; [|split].
    + rewrite Hk, !map_app, !map_fst_deeper, <- app_assoc. reflexivity.
    + apply Forall_app. split; [exact Hr | now apply Forall_deeper].
    + now apply Forall_deeper.
  - (* they hold leaves up to the first key only *)
    subst upper rest. apply Forall_app in Hu. destruct Hu as [Hp Hu].
    exists l, (lower ++ map deeper popped), d.
    split; [now rewrite app_assoc|]. split; [|split; [exact Hu|]].
    + rewrite Hk, !map_app, map_fst_deeper, <- app_assoc. reflexivity.
    + apply Forall_app. split; [exact Hl | now apply Forall_deeper].
Qed.

Lemma build_huffman_tree_rotated (keys : list char)
    (stack res : list TreeNode) :
  rotated keys stack -> build_huffman_tree stack = OK res -> rotated keys res.
Proof.
  apply (build_huffman_loop_invariant (rotated keys)).
  intros s n2 n1. apply rotated_merge.
Qed.

Lemma StronglySorted_app_pairs {A} (R : A -> A -> Prop) (l1 l2 : list A) :
  StronglySorted R (l1 ++ l2) ->
  forall x y, In x l1 -> In y l2 -> R x y.
Proof.
  induction l1 as [|a l1 IH]; cbn [app]; intros Hs x y Hx Hy; [destruct Hx|].
  inversion Hs as [|? ? Hs' Hf]. destruct Hx as [<-|Hx].
  - rewrite Forall_forall in Hf. apply Hf, in_or_app. now right.
  - now apply IH.
Qed.

(** * Further properties of the codec *)

(** The scenario of the specification: the text [abracadabra] has the
    frequency table a:5, b:2, r:2, c:1, d:1 in this order, its code table
    has five entries, and decompressing what [compress] wrote returns the
    text. *)
Theorem abracadabra_scenario :
  let text := [97; 98; 114; 97; 99; 97; 100; 97; 98; 114; 97] in
  sorted_frequency text = [(97, 5); (98, 2); (114, 2); (99, 1); (100, 1)]
  /\ (exists mapping_obj,
         mapping_of text = OK mapping_obj
         /\ length (reverse_mapping_dict mapping_obj) = 5%nat)
  /\ roundtrip text = OK text.
Proof.
  intros text. split; [vm_compute; reflexivity|]. split.
  - eexists. split; vm_compute; reflexivity.
  - vm_compute. reflexivity.
Qed.

(** * The claims *)

(** C1, as amended.  For every text of Unicode code points, if the text
    without its trailing white space has two different symbols and a code
    table the 16-bit [tree_info] field can hold, then decompressing what
    [compress] wrote returns the text without its trailing white space: the
    text itself when it ends in none. *)
Theorem roundtrip_rstrip (text : str) :
  Forall (fun c => c < 1114112) text ->
  two_symbols (rstrip text) ->
  tree_info_fits (rstrip text) ->
  roundtrip text = OK (rstrip text).
Proof.
  intros Hv H2 Hfit. unfold roundtrip, compress.
  destruct (decompress_encode (rstrip text)) as (file & He & Hd);
    [now apply rstrip_valid | assumption | assumption |].
  rewrite He. exact Hd.
Qed.

Lemma roundtrip_rstrip_witness :
  roundtrip [97; 98; 32; 97; 10] = OK [97; 98; 32; 97].
Proof.
  apply (roundtrip_rstrip [97; 98; 32; 97; 10]).
  - repeat constructor.
  - exists 97, 98. vm_compute. repeat split; auto. discriminate.
  - intros t E. vm_compute in E. injection E as <-. vm_compute. reflexivity.
Defined.

(** C1 as stated fails: the empty text is rejected, and a text that ends
    in a newline comes back without it. *)
Lemma roundtrip_not_identity :
  roundtrip [] <> OK [] /\ roundtrip [97; 98; 10] <> OK [97; 98; 10].
Proof. split; vm_compute; discriminate. Qed.

(** C2.  The code assigner has no case for a root that is a leaf: the one
    symbol of [aaaa] gets the empty code, the encoded text is empty, and
    decompressing returns the empty text. *)
Theorem single_symbol_empty_code :
  mapping_of [97; 97; 97; 97] = OK (mkMapping [(97, [])] [([], 97)])
  /\ roundtrip [97; 97; 97; 97] = OK [].
Proof. split; vm_compute; reflexivity. Qed.

(** C3, as amended.  For every bit string and every code table the decoder
    returns a text and raises nothing: it scans a bit at a time, emits a
    symbol and empties the candidate code exactly when the candidate is an
    entry, and at the end of the bits returns what it has emitted, whatever
    candidate is left. *)
Theorem decode_bits_greedy (encoded_text : bits) (table : dict str str) :
  exists out code,
    decode_bits encoded_text (table_json table) = OK out
    /\ decode_loop encoded_text (table_json table) [] [] = OK (out, code)
    /\ greedy_scan table [] encoded_text out code
    /\ forall out' code',
         greedy_scan table [] encoded_text out' code' ->
         out' = out /\ code' = code.
Proof.
  destruct (decode_loop_greedy table encoded_text [] []) as (out & code & Hd & Hs).
  cbn [app] in Hd. exists out, code. unfold decode_bits. rewrite Hd.
  split; [reflexivity|]. split; [reflexivity|]. split; [exact Hs|].
  intros out' code' Hs'.
  apply (greedy_scan_functional table [] encoded_text); assumption.
Qed.

(** C3 as stated fails: the bit [1] is no entry of the table that maps
    [00] to [a]; the decoder ends with the candidate [1] and returns the
    empty text. *)
Lemma decode_bits_drops_unmatched_code :
  let table := [([48; 48], [97])] in
  dict_get (bin_str [true]) table = None
  /\ decode_loop [true] (table_json table) [] [] = OK ([], [true])
  /\ decode_bits [true] (table_json table) = OK [].
Proof. repeat split. Qed.

(** C4.  [encode] raises on the empty sequence, with the [IndexError] of
    [self.tree.pop()] on the empty list [build_huffman_tree] returns, and
    on no other sequence; so [compress] raises it exactly when nothing is
    left of the text once stripped.  No buffer is produced. *)
Theorem empty_input_rejected (text : str) :
  (encode text = Raise IndexError <-> text = [])
  /\ (compress text = Raise IndexError <-> rstrip text = []).
Proof.
  assert (H : forall t, encode t = Raise IndexError <-> t = []).
  { intros t. split.
    - intros E. destruct t as [|c t]; [reflexivity|].
      destruct (encode_total (c :: t)) as [file Hf]; [discriminate|].
      rewrite Hf in E. discriminate.
    - intros ->. reflexivity. }
  split; [apply H | apply (H (rstrip text))].
Qed.

(** C5.  Whatever [pad_encoded_text_tree] is given, the string it returns
    has a length that is a multiple of 8, starts with eight bits that read
    as a number from 1 to 8, and goes on with the string it was given and
    exactly that many zero bits, eight of them when the string given was
    aligned already; the bytes written hold these bits and no more. *)
Theorem padding_invariant (encoded_text_tree : bits) :
  let out := pad_encoded_text_tree encoded_text_tree in
  (length out mod 8 = 0)%nat
  /\ (exists pad_count,
         1 <= pad_count <= 8
         /\ int2 (slice_to 8 out) = OK pad_count
         /\ slice_from 8 out
            = encoded_text_tree ++ repeat false (N.to_nat pad_count)
         /\ ((length encoded_text_tree mod 8 = 0)%nat -> pad_count = 8))
  /\ BitArray_bin (tofile out) = out.
Proof.
  intros out. subst out.
  destruct (format_b_pad_count encoded_text_tree) as [Hl Hv].
  split; [apply length_pad_encoded_text_tree|]. split.
  - exists (pad_count encoded_text_tree).
    split; [apply pad_count_range|].
    rewrite pad_encoded_text_tree_eq. unfold slice_to, slice_from.
    rewrite firstn_app_length, skipn_app_length by exact Hl.
    rewrite int2_OK, Hv by (rewrite Hl; discriminate).
    repeat split. intros Hmod. unfold pad_count.
    replace (N.of_nat (length encoded_text_tree) mod 8) with 0; [reflexivity|].
    rewrite <- (Nat2N.id (length encoded_text_tree)) in Hmod.
    change 8%nat with (N.to_nat 8) in Hmod.
    rewrite <- N2Nat.inj_mod in Hmod. lia.
  - apply BitArray_bin_tofile, length_pad_encoded_text_tree.
Qed.

(** C6.  For the text [aaabcd] the stack starts as the leaves [a], [b],
    [c], [d] of weights 3, 1, 1, 1.  The first turn removes [d] and [c] and
    puts the merged node, of weight 2, in front.  The second turn removes
    [b] and then [a], of weight 3, and leaves the merged node of weight 2 on
    the stack: the two nodes removed are not the two of lowest weight. *)
Theorem second_merge_not_lowest :
  let a := TreeNode_init 3 (Some 97) in
  let b := TreeNode_init 1 (Some 98) in
  let c := TreeNode_init 1 (Some 99) in
  let d := TreeNode_init 1 (Some 100) in
  let merged := mkTreeNode 2 None (Some d) (Some c) in
  leaves_of (sorted_frequency [97; 97; 97; 98; 99; 100]) = [a; b; c; d]
  /\ merge_step [a; b; c; d] = OK [merged; a; b]
  /\ merge_step [merged; a; b]
     = OK [mkTreeNode 4 None (Some b) (Some a); merged]
  /\ ~ lowest_two b a [merged]
  /\ build_huffman_tree [a; b; c; d]
     = OK [mkTreeNode 6 None (Some merged)
             (Some (mkTreeNode 4 None (Some b) (Some a)))].
Proof.
  intros a b c d merged. repeat split; try (vm_compute; reflexivity).
  intros H. destruct (H merged (or_introl eq_refl)) as [_ H'].
  vm_compute in H'. now apply H'.
Qed.

(** C7.  For every tree with at least two leaves, the table
    [Mapping.map] fills from the root gives no symbol a code that is a
    prefix of the code of another symbol, and gives every symbol a code of
    at least one bit; the codes that are keys of the reverse table are
    prefix-free as well. *)
Theorem prefix_freedom (root : TreeNode) :
  (2 <= leaf_count root)%nat ->
  let m := Mapping_map root [] Mapping_init in
  (forall c1 c2 k1 k2,
      c1 <> c2 ->
      dict_get c1 (mapping_dict m) = Some k1 ->
      dict_get c2 (mapping_dict m) = Some k2 ->
      ~ prefix k1 k2)
  /\ (forall c k, dict_get c (mapping_dict m) = Some k -> (1 <= length k)%nat)
  /\ prefix_free (map fst (reverse_mapping_dict m)).
Proof.
  intros H2 m. subst m. rewrite Mapping_map_codes.
  assert (Hin : forall c k,
             dict_get c (mapping_dict
                           (fold_left add_code (codes_of root []) Mapping_init))
             = Some k -> In (c, k) (codes_of root [])).
  { intros c k Hk. apply dict_get_In, In_mapping_dict_fold in Hk.
    destruct Hk as [[]|Hk]. exact Hk. }
  split; [|split].
  - intros c1 c2 k1 k2 Hn H1 H3 Hp. apply Hin in H1, H3.
    pose proof (codes_of_prefix_eq _ _ _ _ _ _ H1 H3 Hp) as E.
    injection E as E _. contradiction.
  - intros c k Hk. apply Hin in Hk.
    destruct root as [f [ch|] l r].
    + cbn [leaf_count] in H2. lia.
    + cbn [codes_of] in Hk. apply in_app_or in Hk as [Hk|Hk].
      * destruct l as [l|]; [|destruct Hk].
        apply codes_of_prefix, prefix_length in Hk. cbn in Hk. lia.
      * destruct r as [r|]; [|destruct Hk].
        apply codes_of_prefix, prefix_length in Hk. cbn in Hk. lia.
  - rewrite reverse_mapping_dict_NoDup by apply codes_of_NoDup.
    rewrite map_map. apply codes_of_prefix_free.
Qed.

Lemma prefix_freedom_witness :
  let root := mkTreeNode 3 None
                (Some (mkTreeNode 1 (Some 98) None None))
                (Some (mkTreeNode 2 (Some 97) None None)) in
  prefix_free (map fst (reverse_mapping_dict
                          (Mapping_map root [] Mapping_init))).
Proof.
  intros root. apply (prefix_freedom root). vm_compute. lia.
Defined.

(** C8.  The ordered frequency table of [compress] is the table the
    specification describes: the distinct symbols of the text with their
    counts, descending by count, symbols of equal count in the order of
    their first occurrence.  No other table fits the description, and what
    [compress] writes is a function of the text alone: [encode] of the
    text without its trailing white space. *)
Theorem encoding_deterministic (text : str) :
  is_frequency_table text (sorted_frequency text)
  /\ (forall table, is_frequency_table text table ->
                    table = sorted_frequency text)
  /\ (forall file1 file2,
         compress text = OK file1 -> compress text = OK file2 ->
         file1 = file2).
Proof.
  split; [apply sorted_frequency_is_table|]. split.
  - intros table (Hin & _ & Hs).
    destruct (sorted_frequency_is_table text) as (Hin' & _ & Hs').
    apply (StronglySorted_unique (table_order text));
      [apply table_order_asym | exact Hs | exact Hs' |].
    intros [c n]. now rewrite Hin, Hin'.
  - intros file1 file2 H1 H2. rewrite H1 in H2. now injection H2.
Qed.

(** C9, as amended.  For every buffer [encode] returns for a text of
    Unicode code points whose table the [tree_info] field can hold,
    decompressing the buffer without its last byte raises, and returns no
    text; the exception comes from [decode_mapping], which finds fewer
    bytes than it asked for ([OverflowError]) or bytes that are no UTF-8
    ([UnicodeDecodeError]) or no JSON ([JSONDecodeError]). *)
Theorem truncated_buffer_rejected (text : str) (file : bytes) :
  Forall (fun c => c < 1114112) text ->
  tree_info_fits text ->
  encode text = OK file ->
  exists e,
    decompress (removelast file) = Raise e
    /\ (e = OverflowError \/ e = UnicodeDecodeError \/ e = JSONDecodeError).
Proof.
  intros Hv Hfit He.
  assert (Hne : text <> []) by (intros ->; discriminate).
  destruct (mapping_of_spec text Hne) as (root & _ & Hm & Hnd & Hin & _).
  assert (HinL : forall c, In c (map fst (codes_of root [])) <-> In c text)
    by (now rewrite symbols_codes_of).
  assert (Hrd : map swap (codes_of root []) <> []).
  { destruct text as [|c text]; [congruence|].
    destruct (HinL c) as [_ Hc]. specialize (Hc (or_introl eq_refl)).
    destruct (codes_of root []); [destruct Hc | discriminate]. }
  assert (Hvrd : Forall (fun kv => snd kv < 1114112)
                   (map swap (codes_of root []))).
  { apply Forall_forall. intros [k c] Hi. cbn [snd].
    apply in_map_iff in Hi as [[c' k'] [E Hi]]. injection E as <- <-.
    rewrite Forall_forall in Hv. apply Hv, HinL.
    apply in_map_iff. now exists (c', k'). }
  specialize (Hfit (BitArray_bin
                      (json_dumps (py_reverse_dict
                                     (map swap (codes_of root [])))))).
  unfold encoded_tree_of in Hfit.
  rewrite Hm in Hfit. cbn [bind OK reverse_mapping_dict] in Hfit.
  rewrite encode_mapping_eq in Hfit. specialize (Hfit eq_refl).
  rewrite encode_eq, Hm in He.
  cbn [bind OK mapping_dict reverse_mapping_dict] in He.
  inv_bind He. rewrite encode_mapping_eq in He. cbn [bind OK] in He.
  injection He as <-.
  now apply decompress_truncated_frame.
Qed.

Lemma truncated_buffer_rejected_witness :
  exists e,
    decompress
      (removelast [8; 1; 200; 146; 246; 146; 123; 34; 48; 48; 34; 58; 32; 34;
                   114; 34; 44; 32; 34; 48; 49; 34; 58; 32; 34; 98; 34; 44;
                   32; 34; 49; 48; 34; 58; 32; 34; 97; 34; 44; 32; 34; 49;
                   49; 48; 34; 58; 32; 34; 100; 34; 44; 32; 34; 49; 49; 49;
                   34; 58; 32; 34; 99; 34; 125; 0]) = Raise e
    /\ (e = OverflowError \/ e = UnicodeDecodeError \/ e = JSONDecodeError).
Proof.
  apply (truncated_buffer_rejected
           [97; 98; 114; 97; 99; 97; 100; 97; 98; 114; 97]).
  - repeat constructor.
  - intros t E. vm_compute in E. injection E as <-. vm_compute. reflexivity.
  - vm_compute. reflexivity.
Defined.

(** C9 as stated fails on the error kind: the text [abababab] is encoded in
    eight bits, which the truncated buffer hands to [decode_mapping] as the
    first byte of the table; the byte is no UTF-8 and the failure is a
    [UnicodeDecodeError] of the table, neither a length check of the buffer
    nor an unmatched code of [decode_bits], which never raises. *)
Lemma truncated_buffer_fails_in_decode_mapping :
  exists file bit_string encoded_text encoded_mapping,
    encode [97; 98; 97; 98; 97; 98; 97; 98] = OK file
    /\ remove_padding_bits (BitArray_bin (removelast file)) = OK bit_string
    /\ get_encoded_text_mapping bit_string
       = OK (encoded_text, encoded_mapping)
    /\ decode_mapping encoded_mapping = Raise UnicodeDecodeError
    /\ decompress (removelast file) = Raise UnicodeDecodeError.
Proof.
  do 4 eexists. repeat split; vm_compute; reflexivity.
Qed.

(** C10.  [compress] encodes [text.rstrip()]: white space at the end of the
    text changes nothing in what is written, and, for a text of Unicode
    code points whose stripped form has a table the [tree_info] field can
    hold, decompressing returns the text only if it ends in no white
    space. *)
Theorem compress_strips_trailing_whitespace (text : str) :
  compress text = encode (rstrip text)
  /\ compress (rstrip text) = compress text
  /\ (forall ws, Forall (fun c => is_space c = true) ws ->
                 compress (text ++ ws) = compress text)
  /\ (Forall (fun c => c < 1114112) text -> tree_info_fits (rstrip text) ->
      roundtrip text = OK text -> rstrip text = text).
Proof.
  split; [reflexivity|]. split; [|split].
  - unfold compress. now rewrite rstrip_idem.
  - intros ws Hws. unfold compress. now rewrite rstrip_app_space.
  - intros Hv Hfit Hr. unfold roundtrip, compress in Hr.
    apply rstrip_valid in Hv.
    destruct (one_or_two_symbols (rstrip text)) as [H2|(c & n & E)].
    + destruct (decompress_encode _ Hv H2 Hfit) as (file & He & Hd).
      rewrite He in Hr. cbn [bind OK] in Hr. rewrite Hd in Hr.
      now injection Hr.
    + exfalso. rewrite E in Hr, Hv. destruct n as [|n]; [discriminate|].
      inversion Hv as [|? ? Hc _]; subst.
      destruct (decompress_encode_repeat c n Hc) as (file & He & Hd).
      rewrite He in Hr. cbn [bind OK] in Hr. rewrite Hd in Hr.
      injection Hr as Hr. rewrite <- Hr in E. discriminate.
Qed.

Lemma compress_strips_trailing_whitespace_witness :
  rstrip [97; 98; 97] = [97; 98; 97].
Proof.
  apply (compress_strips_trailing_whitespace [97; 98; 97]).
  - repeat constructor.
  - intros t E. vm_compute in E. injection E as <-. vm_compute. reflexivity.
  - vm_compute. reflexivity.
Defined.

(** * More of the code, function by function *)

(** X1.  [build_frequency]: every character of the text once, in the order of
    the first occurrences, with the number of its occurrences; the counts
    add up to the length of the text. *)
Theorem build_frequency_table (text : str) :
  map fst (build_frequency text) = distinct text
  /\ (forall c,
         dict_get c (build_frequency text)
         = if count c text =? 0 then None else Some (count c text))
  /\ total (build_frequency text) = N.of_nat (length text).
Proof.
  split; [apply build_frequency_distinct|].
  rewrite build_frequency_fold. split.
  - intros c. now rewrite dict_get_fold_count_step.
  - now rewrite total_fold_count_step.
Qed.

(** X2.  [build_huffman_tree] on a stack that is not empty ends with one
    node.  Its weight is the sum of the weights of the stack, its leaves
    are the leaves of the stack, the weight of every node it merged is the
    sum of the weights of the two children; from two nodes on, the root is
    a merged node, which [TreeNode.__lt__] never puts before one of its
    children. *)
Theorem build_huffman_tree_root (stack : list TreeNode) :
  stack <> [] ->
  exists root,
    build_huffman_tree stack = OK [root]
    /\ freq root = weight stack
    /\ Permutation (leaves root) (flat_map leaves stack)
    /\ (Forall weights_add_up stack -> weights_add_up root)
    /\ ((2 <= length stack)%nat ->
        exists l r,
          root = mkTreeNode (freq l + freq r) None (Some l) (Some r)
          /\ TreeNode_lt root l = false /\ TreeNode_lt root r = false).
Proof.
  intros Hne.
  destruct (build_huffman_loop_weights (length stack) stack Hne)
    as (root & Hr & Hw & Hp & Ha & Hm); [lia|].
  exists root. do 4 (split; [assumption|]). intros H2.
  destruct (Hm H2) as (l & r & ->). exists l, r. split; [reflexivity|].
  unfold TreeNode_lt. cbn [freq]. split; apply N.ltb_ge; lia.
Qed.

Lemma build_huffman_tree_root_witness :
  exists root,
    build_huffman_tree [TreeNode_init 2 (Some 97); TreeNode_init 1 (Some 98);
                        TreeNode_init 1 (Some 99)] = OK [root]
    /\ freq root = 4.
Proof.
  destruct (build_huffman_tree_root
              [TreeNode_init 2 (Some 97); TreeNode_init 1 (Some 98);
               TreeNode_init 1 (Some 99)]) as (root & Hr & Hw & _);
    [discriminate|].
  exists root. split; [exact Hr | exact Hw].
Defined.

(** X3.  The tree [compress] builds for a text that is not empty: its
    leaves are the entries of the frequency table, the weight of every
    merged node is the sum of the weights of its children, and the weight
    of the root is the length of the text. *)
Theorem huffman_tree_of_text (text : str) :
  text <> [] ->
  exists root,
    build_huffman_tree (leaves_of (sorted_frequency text)) = OK [root]
    /\ Permutation (leaves root) (build_frequency text)
    /\ weights_add_up root
    /\ freq root = N.of_nat (length text).
Proof.
  intros Hne.
  pose proof (sorted_desc_Permutation (build_frequency text)) as Hs.
  rewrite <- sorted_frequency_eq in Hs.
  destruct (build_huffman_loop_weights
              (length (leaves_of (sorted_frequency text)))
              (leaves_of (sorted_frequency text)))
    as (root & Hr & Hw & Hp & Ha & _).
  - intros E. apply leaves_of_nil in E. rewrite E in Hs.
    apply Permutation_nil in Hs.
    destruct (build_frequency_keys text) as [_ Hk].
    destruct text as [|c text]; [congruence|].
    specialize (proj2 (Hk c) (or_introl eq_refl)). now rewrite Hs.
  - lia.
  - exists root. split; [exact Hr|]. split; [|split].
    + now rewrite Hp, flat_map_leaves_of.
    + apply Ha, leaves_of_weights_add_up.
    + rewrite Hw, weight_leaves_of, (total_Permutation _ _ Hs).
      rewrite build_frequency_fold, total_fold_count_step. reflexivity.
Qed.

Lemma huffman_tree_of_text_witness :
  exists root,
    build_huffman_tree (leaves_of (sorted_frequency [97; 98; 97])) = OK [root]
    /\ freq root = 3.
Proof.
  destruct (huffman_tree_of_text [97; 98; 97]) as (root & Hr & _ & _ & Hw);
    [discriminate|].
  exists root. split; [exact Hr | exact Hw].
Defined.

(** X4.  The first merge of [build_huffman_tree] in [compress] takes two
    nodes of lowest weight: the leaves are pushed in descending order of
    count, and the two popped are the last two, the first popped being not
    heavier than the second. *)
Theorem first_merge_lowest (text : str) :
  two_symbols text ->
  exists stack node_2 node_1,
    leaves_of (sorted_frequency text) = stack ++ [node_2; node_1]
    /\ merge_step (leaves_of (sorted_frequency text))
       = OK (mkTreeNode (freq node_1 + freq node_2) None
               (Some node_1) (Some node_2) :: stack)
    /\ freq node_1 <= freq node_2
    /\ lowest_two node_1 node_2 stack.
Proof.
  intros (a & b & Ha & Hb & Hab).
  destruct (sorted_frequency_is_table text) as (_ & _ & Hs).
  destruct (sorted_frequency_keys text) as [Hnd Hin].
  assert (H2 : (2 <= length (sorted_frequency text))%nat).
  { rewrite <- (length_map fst).
    apply (NoDup_two_length _ a b); [apply Hin, Ha | apply Hin, Hb | exact Hab]. }
  destruct (two_last _ H2) as (d & y & x & E). rewrite E in *.
  apply StronglySorted_last_two in Hs. destruct Hs as [Hyx Hl].
  exists (leaves_of d), (TreeNode_init (snd y) (Some (fst y))),
    (TreeNode_init (snd x) (Some (fst x))).
  assert (El : leaves_of (d ++ [y; x])
               = leaves_of d ++ [TreeNode_init (snd y) (Some (fst y));
                                 TreeNode_init (snd x) (Some (fst x))])
    by (unfold leaves_of; now rewrite map_app).
  split; [exact El|]. split; [rewrite El; apply merge_step_snoc|].
  cbn [TreeNode_init freq]. split; [now apply table_order_le in Hyx|].
  intros t Ht. unfold leaves_of in Ht. apply in_map_iff in Ht.
  destruct Ht as (kv & <- & Hkv). cbn [TreeNode_init freq].
  rewrite Forall_forall in Hl. destruct (Hl kv Hkv) as [H1 H3].
  apply table_order_le in H1, H3. auto.
Qed.

Lemma first_merge_lowest_witness :
  exists stack node_2 node_1,
    leaves_of (sorted_frequency [97; 98; 97; 99])
    = stack ++ [node_2; node_1]
    /\ lowest_two node_1 node_2 stack.
Proof.
  destruct (first_merge_lowest [97; 98; 97; 99])
    as (stack & node_2 & node_1 & E & _ & _ & Hl).
  - exists 97, 98. cbn. intuition discriminate.
  - exists stack, node_2, node_1. split; [exact E | exact Hl].
Defined.

(** X5.  [create_mapping] maps the last node of the list it is given.  When
    the leaves of this node hold different characters, [mapping_dict] has
    one entry for every leaf, in the order [Mapping.map] reaches the leaves,
    [reverse_mapping_dict] has the same entries with key and value
    exchanged, and a look-up in one table is undone by a look-up in the
    other. *)
Theorem create_mapping_tables (tree : list TreeNode) (root : TreeNode) :
  NoDup (symbols root) ->
  exists m,
    create_mapping (tree ++ [root]) = OK m
    /\ mapping_dict m = codes_of root []
    /\ reverse_mapping_dict m = map swap (mapping_dict m)
    /\ length (mapping_dict m) = leaf_count root
    /\ (forall c k,
           dict_get c (mapping_dict m) = Some k
           <-> dict_get k (reverse_mapping_dict m) = Some c).
Proof.
  intros Hnd. unfold create_mapping. rewrite pop_app. cbn [bind OK].
  eexists. split; [reflexivity|]. rewrite Mapping_map_codes.
  rewrite mapping_dict_NoDup by exact Hnd.
  rewrite reverse_mapping_dict_NoDup by apply codes_of_NoDup.
  split; [reflexivity|]. split; [reflexivity|].
  split; [apply length_codes_of|].
  intros c k. split; intros Hg.
  - apply In_dict_get.
    + rewrite map_fst_swap. apply codes_of_NoDup.
    + apply In_swap. now apply dict_get_In.
  - apply In_dict_get; [exact Hnd|].
    apply In_swap. now apply dict_get_In.
Qed.

Lemma create_mapping_tables_witness :
  exists m,
    create_mapping
      [mkTreeNode 3 None (Some (mkTreeNode 1 (Some 98) None None))
                         (Some (mkTreeNode 2 (Some 97) None None))] = OK m
    /\ mapping_dict m = [(98, [false]); (97, [true])].
Proof.
  destruct (create_mapping_tables []
              (mkTreeNode 3 None (Some (mkTreeNode 1 (Some 98) None None))
                                 (Some (mkTreeNode 2 (Some 97) None None))))
    as (m & Hm & Hd & _).
  - repeat constructor; cbn; intuition discriminate.
  - exists m. split; [exact Hm | exact Hd].
Defined.

(** X6.  The tables of [compress] for a text that is not empty:
    [mapping_dict] has exactly one entry for every different character of
    the text, and [reverse_mapping_dict] has the same entries with key and
    value exchanged. *)
Theorem mapping_of_text (text : str) :
  text <> [] ->
  exists m,
    mapping_of text = OK m
    /\ Permutation (map fst (mapping_dict m)) (distinct text)
    /\ reverse_mapping_dict m = map swap (mapping_dict m)
    /\ forall c, In c text -> dict_in c (mapping_dict m) = true.
Proof.
  intros Hne.
  destruct (mapping_of_spec _ Hne) as (root & _ & -> & Hnd & Hin & _).
  eexists. split; [reflexivity|]. cbn [mapping_dict reverse_mapping_dict].
  destruct (build_frequency_keys text) as [Hnd' Hin'].
  rewrite build_frequency_distinct in Hnd', Hin'.
  split; [|split; [reflexivity|]].
  - apply NoDup_Permutation; [exact Hnd | exact Hnd' |].
    intros c. change (map fst (codes_of root [])) with (symbols root).
    now rewrite Hin, Hin'.
  - intros c Hc. apply Hin in Hc. unfold dict_in.
    destruct (dict_get c (codes_of root [])) eqn:E; [reflexivity|].
    now apply dict_get_None in E.
Qed.

Lemma mapping_of_text_witness :
  exists m,
    mapping_of [97; 98; 97] = OK m
    /\ reverse_mapping_dict m = map swap (mapping_dict m).
Proof.
  destruct (mapping_of_text [97; 98; 97]) as (m & Hm & _ & Hr & _);
    [discriminate|].
  exists m. split; [exact Hm | exact Hr].
Defined.

(** X7.  The codes of [compress] are balanced: whatever the counts of the
    characters are, no code of the table is more than one bit longer than
    another, and with [n] different characters in the text every code has
    [log2 n] bits, rounded down or up.  The merged node goes to the front of
    the stack whatever its weight, so the nodes are merged in turns, as in
    a tournament. *)
Theorem balanced_codes (text : str) :
  text <> [] ->
  exists m,
    mapping_of text = OK m
    /\ (forall c1 k1 c2 k2,
           dict_get c1 (mapping_dict m) = Some k1 ->
           dict_get c2 (mapping_dict m) = Some k2 ->
           (length k1 <= length k2 + 1)%nat)
    /\ (forall c k,
           dict_get c (mapping_dict m) = Some k ->
           (2 ^ length k < 2 * length (mapping_dict m)
            /\ length (mapping_dict m) < 2 ^ (length k + 1))%nat).
Proof.
  intros Hne.
  destruct (mapping_of_spec _ Hne) as (root & Hr & -> & _).
  eexists. split; [reflexivity|]. cbn [mapping_dict].
  pose proof (build_huffman_tree_balanced _ _
                (balanced_stack_leaves_of (sorted_frequency text)) Hr)
    as (_ & Hb & _).
  specialize (Hb root root (or_introl eq_refl) (or_introl eq_refl)).
  pose proof (build_huffman_tree_full _ _
                (leaves_of_full (sorted_frequency text)) Hr) as Hf.
  inversion Hf as [|? ? Hfull _]. clear Hf.
  destruct (leaf_count_full root Hfull) as ((Hn1 & Hn2) & Hle & Hst).
  rewrite length_codes_of.
  split.
  - intros c1 k1 c2 k2 H1 H2.
    apply dict_get_In, codes_of_depth in H1.
    apply dict_get_In, codes_of_depth in H2.
    cbn [length] in H1, H2. lia.
  - intros c k Hk. apply dict_get_In, codes_of_depth in Hk.
    cbn [length] in Hk. rewrite Nat.add_1_r, Nat.pow_succ_r'.
    set (d := depth_min root) in *. set (D := depth_max root) in *.
    set (n := leaf_count root) in *. clearbody d D n.
    assert (Hd : (2 ^ d <= 2 ^ length k)%nat)
      by (apply Nat.pow_le_mono_r; lia).
    assert (HD : (2 ^ length k <= 2 ^ D)%nat)
      by (apply Nat.pow_le_mono_r; lia).
    destruct (Nat.eq_dec d D) as [->|Hne'].
    + pose proof (Nat.pow_nonzero 2 D). lia.
    + assert (E : D = S d) by lia. subst D. specialize (Hst ltac:(lia)).
      rewrite Nat.pow_succ_r' in *. lia.
Qed.

Lemma balanced_codes_witness :
  exists m,
    mapping_of [97; 97; 97; 97; 97; 97; 98; 99; 100] = OK m
    /\ forall c1 k1 c2 k2,
         dict_get c1 (mapping_dict m) = Some k1 ->
         dict_get c2 (mapping_dict m) = Some k2 ->
         (length k1 <= length k2 + 1)%nat.
Proof.
  destruct (balanced_codes [97; 97; 97; 97; 97; 97; 98; 99; 100])
    as (m & Hm & Hb & _); [discriminate|].
  exists m. split; [exact Hm | exact Hb].
Defined.

(** X8.  In the table of [compress] a character never has a longer code
    than a character with fewer occurrences in the text. *)
Theorem frequent_codes_not_longer (text : str) :
  text <> [] ->
  exists m,
    mapping_of text = OK m
    /\ forall c1 k1 c2 k2,
         dict_get c1 (mapping_dict m) = Some k1 ->
         dict_get c2 (mapping_dict m) = Some k2 ->
         count c2 text < count c1 text ->
         (length k1 <= length k2)%nat.
Proof.
  intros Hne.
  destruct (mapping_of_spec _ Hne) as (root & Hr & -> & _).
  eexists. split; [reflexivity|]. cbn [mapping_dict].
  pose proof (build_huffman_tree_rotated _ _ _
                (rotated_leaves_of (sorted_frequency text)) Hr)
    as (upper & lower & d & HL & Hk & Hu & Hl).
  cbn [rev app flat_map] in HL. rewrite app_nil_r in HL.
  destruct (sorted_frequency_is_table text) as (Hin & _ & Hs).
  intros c1 k1 c2 k2 H1 H2 Hc.
  apply dict_get_In in H1, H2.
  apply (in_map (fun ck => (fst ck, length (snd ck)))) in H1, H2.
  fold (depths root) in H1, H2. cbn [fst snd] in H1, H2.
  rewrite HL in H1, H2. rewrite Forall_forall in Hu, Hl.
  apply in_app_or in H1, H2.
  destruct H1 as [H1|H1]; [apply Hu in H1; cbn [snd] in H1;
                            destruct H2 as [H2|H2];
                            [apply Hu in H2 | apply Hl in H2];
                            cbn [snd] in H2; lia|].
  destruct H2 as [H2|H2];
    [|apply Hl in H1; apply Hl in H2; cbn [snd] in H1, H2; lia].
  (* [c1] is one level deeper than [c2]: it stands behind [c2] in the table *)
  exfalso.
  apply (in_map fst) in H1, H2. cbn [fst] in H1, H2.
  apply (f_equal (@rev N)) in Hk.
  rewrite rev_involutive, rev_app_distr in Hk.
  apply map_eq_app in Hk. destruct Hk as (t1 & t2 & Et & E1 & E2).
  apply in_rev in H1, H2. rewrite <- E2 in H1. rewrite <- E1 in H2.
  apply in_map_iff in H1, H2.
  destruct H1 as ([c1' n1] & <- & H1). destruct H2 as ([c2' n2] & <- & H2).
  cbn [fst] in Hc. rewrite Et in Hs, Hin.
  pose proof (StronglySorted_app_pairs _ _ _ Hs _ _ H2 H1) as Ho.
  apply table_order_le in Ho. cbn [snd] in Ho.
  assert (E1' : n1 = count c1' text)
    by (apply (Hin c1' n1), in_or_app; now right).
  assert (E2' : n2 = count c2' text)
    by (apply (Hin c2' n2), in_or_app; now left).
  lia.
Qed.

Lemma frequent_codes_not_longer_witness :
  exists m,
    mapping_of [97; 98; 97; 99; 97] = OK m
    /\ forall k1 k2,
         dict_get 97 (mapping_dict m) = Some k1 ->
         dict_get 98 (mapping_dict m) = Some k2 ->
         (length k1 <= length k2)%nat.
Proof.
  destruct (frequent_codes_not_longer [97; 98; 97; 99; 97])
    as (m & Hm & Hb); [discriminate|].
  exists m. split; [exact Hm|]. intros k1 k2 H1 H2.
  apply (Hb 97 k1 98 k2 H1 H2). reflexivity.
Defined.

(** X9.  [encode_text] raises [KeyError] exactly when a character of the
    text has no entry in [mapping_dict]; otherwise it returns the codes of
    the characters, one after the other in the order of the text. *)
Theorem encode_text_codes (text : str) (mapping_dict : dict char bits) :
  encode_text text mapping_dict
  = if forallb (fun c => dict_in c mapping_dict) text
    then OK (flat_map (code_of mapping_dict) text)
    else Raise KeyError.
Proof.
  induction text as [|c text IH]; [reflexivity|].
  cbn [encode_text forallb flat_map]. unfold dict_item, dict_in, code_of at 1.
  destruct (dict_get c mapping_dict) as [code|]; [|reflexivity].
  cbn [bind OK andb]. rewrite IH.
  destruct (forallb _ text); reflexivity.
Qed.

(** X10.  [encode_mapping] never fails, whatever the characters of the table
    are: [json.dumps] writes ASCII only, which [encode] turns into a byte a
    character.  The table is a whole number of bytes, two at least. *)
Theorem encode_mapping_ascii (reverse_mapping_dict : dict bits char) :
  exists res_bytes,
    encode_mapping reverse_mapping_dict = OK (BitArray_bin res_bytes)
    /\ is_ascii res_bytes
    /\ (2 <= length res_bytes)%nat
    /\ length (BitArray_bin res_bytes) = (8 * length res_bytes)%nat.
Proof.
  exists (json_dumps (py_reverse_dict reverse_mapping_dict)).
  split; [apply encode_mapping_eq|]. split; [apply json_dumps_ascii|].
  split; [|apply length_BitArray_bin].
  unfold json_dumps. rewrite !length_app. cbn [length]. lia.
Qed.

(** X11.  The [tree_info] field [encode_text_tree] writes is 16 bits wide
    exactly when the table is shorter than 65536 bits: [format] never cuts
    a number, a longer table gets a wider field. *)
Theorem tree_info_width (encoded_text encoded_tree : bits) :
  length (encode_text_tree encoded_text encoded_tree)
  = (16 + length encoded_text + length encoded_tree)%nat
  <-> N.of_nat (length encoded_tree) < 65536.
Proof.
  unfold encode_text_tree. rewrite !length_app.
  change 65536 with (2 ^ N.of_nat 16).
  rewrite <- (length_format_b 16) by lia.
  set (w := length (format_b _ _)). clearbody w. lia.
Qed.

(** X12.  [get_encoded_text_mapping] undoes [encode_text_tree] for a table
    that is not empty and shorter than 65536 bits.  For the empty table
    the two results are exchanged: [s[-0:]] is all of [s] and [s[:-0]] is
    empty, so the encoded text is returned as the table. *)
Theorem get_encoded_text_mapping_encode_text_tree
    (encoded_text encoded_tree : bits) :
  N.of_nat (length encoded_tree) < 65536 ->
  get_encoded_text_mapping (encode_text_tree encoded_text encoded_tree)
  = OK match encoded_tree with
       | [] => ([], encoded_text)
       | _ => (encoded_text, encoded_tree)
       end.
Proof.
  intros Hlt. destruct encoded_tree as [|b tree].
  - unfold get_encoded_text_mapping, encode_text_tree.
    rewrite app_nil_r. cbn [length N.of_nat].
    change (format_b 16 0) with (repeat false 16).
    unfold slice_to, slice_from.
    rewrite firstn_app_length, skipn_app_length by reflexivity.
    reflexivity.
  - now apply get_encoded_text_mapping_frame.
Qed.

Lemma get_encoded_text_mapping_encode_text_tree_witness :
  get_encoded_text_mapping (encode_text_tree [true; false] [])
  = OK ([], [true; false]).
Proof.
  apply (get_encoded_text_mapping_encode_text_tree [true; false] []).
  reflexivity.
Defined.

(** X13.  [remove_padding_bits] undoes [pad_encoded_text_tree], also through
    the file: reading the bytes [tofile] wrote and removing the padding
    gives back the bit string that was padded, whatever it is; the file has
    two bytes more than the bit string has whole bytes. *)
Theorem remove_padding_bits_pad_encoded_text_tree (encoded_text_tree : bits) :
  remove_padding_bits (pad_encoded_text_tree encoded_text_tree)
  = OK encoded_text_tree
  /\ remove_padding_bits
       (BitArray_bin (tofile (pad_encoded_text_tree encoded_text_tree)))
     = OK encoded_text_tree
  /\ length (tofile (pad_encoded_text_tree encoded_text_tree))
     = (length encoded_text_tree / 8 + 2)%nat.
Proof.
  pose proof (length_pad_encoded_text_tree encoded_text_tree) as Hm.
  pose proof (BitArray_bin_tofile _ Hm) as Hb.
  split; [apply remove_padding_bits_pad|]. split.
  - rewrite Hb. apply remove_padding_bits_pad.
  - apply length_tofile_pad.
Qed.

(** X14.  [compress] writes a file for every text that is not white space
    only: when something is left of the text after [rstrip], every character
    has a code and the table is serialized.  The bytes of the file are below
    256, the first is the pad count, between 1 and 8, and there are six at
    least. *)
Theorem compress_buffer (text : str) :
  rstrip text <> [] ->
  exists file,
    compress text = OK file
    /\ Forall (fun b => b < 256) file
    /\ (6 <= length file)%nat
    /\ exists padding rest, file = padding :: rest /\ 1 <= padding <= 8.
Proof.
  intros Hne. unfold compress. rewrite encode_eq.
  destruct (mapping_of_spec _ Hne) as (root & _ & -> & Hnd & Hin & _).
  cbn [bind OK mapping_dict reverse_mapping_dict].
  destruct (encode_text_total (rstrip text) (codes_of root []))
    as [encoded_text ->]; [intros c; apply Hin|].
  cbn [bind OK]. rewrite encode_mapping_eq. cbn [bind OK].
  set (encoded_tree := BitArray_bin _).
  eexists. split; [reflexivity|]. split; [apply BitArray_tofile_bytes|].
  split.
  - rewrite length_tofile_pad. unfold encode_text_tree.
    rewrite !length_app.
    pose proof (length_format_b_ge 16 (N.of_nat (length encoded_tree))) as Hf.
    assert (Ht : (16 <= length encoded_tree)%nat).
    { subst encoded_tree. rewrite length_BitArray_bin. unfold json_dumps.
      rewrite !length_app. cbn [length]. lia. }
    set (w := length (format_b _ _)) in *. clearbody w.
    clearbody encoded_tree. set (n := (w + _)%nat).
    assert (Hn : (32 <= n)%nat) by (subst n; lia). clearbody n.
    pose proof (Nat.Div0.div_le_mono 32 n 8 Hn) as Hd.
    change (32 / 8)%nat with 4%nat in Hd. lia.
  - rewrite pad_encoded_text_tree_eq.
    destruct (format_b_pad_count (encode_text_tree encoded_text encoded_tree))
      as [Hl Hv].
    destruct (tofile_first_byte _
                (encode_text_tree encoded_text encoded_tree
                 ++ repeat false
                      (N.to_nat (pad_count (encode_text_tree encoded_text
                                              encoded_tree)))) Hl)
      as [rest ->].
    eexists. exists rest. split; [reflexivity|]. rewrite Hv.
    apply pad_count_range.
Qed.

Lemma compress_buffer_witness :
  exists file, compress [97; 98; 97; 10] = OK file /\ (6 <= length file)%nat.
Proof.
  destruct (compress_buffer [97; 98; 97; 10]) as (file & Hf & _ & Hl & _).
  - vm_compute. discriminate.
  - exists file. split; [exact Hf | exact Hl].
Defined.

(** X15.  A text of one symbol, written any number of times: the only code
    of the table is the empty one, [compress] writes a file, and
    [decompress] returns the empty text from it. *)
Theorem one_symbol_text (c : char) (n : nat) :
  c < 1114112 ->
  mapping_of (repeat c (S n)) = OK (mkMapping [(c, [])] [([], c)])
  /\ exists file,
       encode (repeat c (S n)) = OK file /\ decompress file = OK [].
Proof.
  intros Hc. split; [apply mapping_of_repeat|].
  now apply decompress_encode_repeat.
Qed.

Lemma one_symbol_text_witness :
  exists file, encode (repeat 98 3) = OK file /\ decompress file = OK [].
Proof. apply (one_symbol_text 98 2). reflexivity. Defined.

(** X16.  [remove_padding_bits] checks nothing: it fails on the empty bit
    string only, with the [ValueError] of [int('', 2)]; on any other it
    returns a prefix of the bits after the first eight.  A pad count of
    zero does not keep them all: [s[:-0]] is empty. *)
Theorem remove_padding_bits_any (bit_string : bits) :
  (remove_padding_bits bit_string = Raise ValueError <-> bit_string = [])
  /\ (forall e, remove_padding_bits bit_string = Raise e -> e = ValueError)
  /\ (forall out,
         remove_padding_bits bit_string = OK out ->
         prefix out (skipn 8 bit_string))
  /\ remove_padding_bits (repeat false 8 ++ bit_string) = OK [].
Proof.
  unfold remove_padding_bits, slice_to, slice_from.
  split; [|split; [|split]].
  - rewrite <- (firstn_nil_iff 8 bit_string) by lia.
    rewrite <- int2_nil_iff.
    destruct (int2 (firstn 8 bit_string)) as [e|n]; cbn [bind OK Raise];
      split; intros H; try discriminate H; now injection H as ->.
  - apply (remove_padding_bits_Raise bit_string).
  - intros out. destruct (int2 (firstn 8 bit_string)); cbn [bind OK];
      [discriminate|].
    intros [= <-]. apply slice_to_neg_prefix.
  - rewrite firstn_app_length by reflexivity. reflexivity.
Qed.

(** X17.  [get_encoded_text_mapping] fails on the empty bit string only;
    on any other it cuts the bits after the first sixteen in two, losing
    none.  A table length of zero gives all of them to the table. *)
Theorem get_encoded_text_mapping_any (bit_string : bits) :
  (get_encoded_text_mapping bit_string = Raise ValueError
   <-> bit_string = [])
  /\ (forall e, get_encoded_text_mapping bit_string = Raise e ->
                e = ValueError)
  /\ (forall encoded_text encoded_tree,
         get_encoded_text_mapping bit_string
         = OK (encoded_text, encoded_tree) ->
         encoded_text ++ encoded_tree = skipn 16 bit_string)
  /\ get_encoded_text_mapping (repeat false 16 ++ bit_string)
     = OK ([], bit_string).
Proof.
  unfold get_encoded_text_mapping, slice_to, slice_from.
  split; [|split; [|split]].
  - rewrite <- (firstn_nil_iff 16 bit_string) by lia.
    rewrite <- int2_nil_iff.
    destruct (int2 (firstn 16 bit_string)) as [e|n]; cbn [bind OK Raise];
      split; intros H; try discriminate H; now injection H as ->.
  - apply (get_encoded_text_mapping_Raise bit_string).
  - intros encoded_text encoded_tree.
    destruct (int2 (firstn 16 bit_string)); cbn [bind OK]; [discriminate|].
    intros [= <- <-]. apply slice_neg_split.
  - rewrite firstn_app_length, skipn_app_length by reflexivity. reflexivity.
Qed.

(** X18.  [decode_mapping] reads back what [encode_mapping] wrote: for a
    reverse table with different codes and symbols that are Unicode code
    points, it returns the dictionary from the codes, as strings of [0] and
    [1], to the symbols, in the order of the table. *)
Theorem decode_mapping_encode_mapping (rd : dict bits char) :
  NoDup (map fst rd) -> Forall (fun kv => snd kv < 1114112) rd ->
  exists encoded_tree,
    encode_mapping rd = OK encoded_tree
    /\ decode_mapping encoded_tree = OK (JObject (json_table rd)).
Proof.
  intros Hnd Hv. rewrite encode_mapping_eq. eexists. split; [reflexivity|].
  destruct rd as [|kv rd]; [vm_compute; reflexivity|].
  now apply decode_encode_mapping.
Qed.

Lemma decode_mapping_encode_mapping_witness :
  exists encoded_tree,
    encode_mapping [([false], 98); ([true], 233)] = OK encoded_tree
    /\ decode_mapping encoded_tree
       = OK (JObject [([48], JString [98]); ([49], JString [233])]).
Proof.
  apply (decode_mapping_encode_mapping [([false], 98); ([true], 233)]).
  - repeat constructor; cbn; intuition discriminate.
  - repeat constructor.
Defined.

(** X19.  [decode_mapping] raises [OverflowError], the exception [main]
    catches around [decompress], exactly when the number the table bits
    spell needs more bytes than an eighth of the bits, rounded down; it
    never does when the number of bits is a multiple of eight. *)
Theorem decode_mapping_OverflowError (encoded_mapping : bits) :
  (decode_mapping encoded_mapping = Raise OverflowError
   <-> encoded_mapping <> []
       /\ 256 ^ N.of_nat (length encoded_mapping / 8)
          <= bits_value encoded_mapping)
  /\ ((length encoded_mapping mod 8 = 0)%nat ->
      decode_mapping encoded_mapping <> Raise OverflowError).
Proof.
  assert (Hiff : decode_mapping encoded_mapping = Raise OverflowError
                 <-> encoded_mapping <> []
                     /\ 256 ^ N.of_nat (length encoded_mapping / 8)
                        <= bits_value encoded_mapping).
  { unfold decode_mapping. destruct encoded_mapping as [|b m].
    - split; [discriminate | intros [H _]; congruence].
    - cbn [int2 bind OK]. unfold to_bytes.
      destruct (N.ltb_spec (bits_value (b :: m))
                  (256 ^ N.of_nat (length (b :: m) / 8))) as [Hlt|Hge].
      + cbn [bind OK]. split; [|intros [_ H]; lia].
        intros H. apply bind_Raise in H as [H|(s & _ & H)].
        * apply utf8_decode_Raise in H. discriminate.
        * apply json_loads_fuel in H. discriminate.
      + cbn [bind]. split; [intros _; split; [discriminate | exact Hge]|].
        reflexivity. }
  split; [exact Hiff|]. intros Hm H. apply Hiff in H as [_ H].
  pose proof (bits_value_bound encoded_mapping) as Hb.
  apply Nat.Div0.div_exact in Hm.
  set (n := length encoded_mapping) in *. clearbody n.
  set (q := (n / 8)%nat) in *. clearbody q. subst n.
  replace (256 ^ N.of_nat q) with (2 ^ N.of_nat (8 * q)) in H; [lia|].
  rewrite Nat2N.inj_mul, N.pow_mul_r. reflexivity.
Qed.

(** X20.  [decode_bits] undoes [encode_text] with the two tables
    [Mapping.map] fills from any tree of two leaves or more whose leaves
    hold different characters: every text over these characters is encoded
    without error, and decoded from the table [json.loads] returns to the
    same text. *)
Theorem decode_bits_encode_text (root : TreeNode) (text : str) :
  NoDup (symbols root) -> (2 <= leaf_count root)%nat ->
  (forall c, In c text -> In c (symbols root)) ->
  exists encoded_text,
    encode_text text (mapping_dict (Mapping_map root [] Mapping_init))
    = OK encoded_text
    /\ decode_bits encoded_text
         (JObject (json_table
                     (reverse_mapping_dict (Mapping_map root [] Mapping_init))))
       = OK text.
Proof.
  intros Hnd H2 Hin. rewrite Mapping_map_codes.
  rewrite mapping_dict_NoDup by exact Hnd.
  rewrite reverse_mapping_dict_NoDup by apply codes_of_NoDup.
  destruct (encode_text_total text (codes_of root [])) as [encoded_text He];
    [exact Hin|].
  exists encoded_text. split; [exact He|]. unfold decode_bits.
  rewrite (encode_text_decode_loop (map swap (codes_of root []))
             (codes_of root []) ) with (text := text) (out := []);
    [reflexivity | | | | exact He].
  - rewrite map_fst_swap. apply codes_of_prefix_free.
  - rewrite map_fst_swap. now apply codes_of_not_nil.
  - intros c k Hg. apply In_dict_get.
    + rewrite map_fst_swap. apply codes_of_NoDup.
    + apply In_swap. now apply dict_get_In.
Qed.

Lemma decode_bits_encode_text_witness :
  exists encoded_text,
    encode_text [97; 98; 97]
      (mapping_dict
         (Mapping_map
            (mkTreeNode 3 None (Some (mkTreeNode 1 (Some 98) None None))
                               (Some (mkTreeNode 2 (Some 97) None None)))
            [] Mapping_init))
    = OK encoded_text
    /\ decode_bits encoded_text
         (JObject (json_table
                     (reverse_mapping_dict
                        (Mapping_map
                           (mkTreeNode 3 None
                              (Some (mkTreeNode 1 (Some 98) None None))
                              (Some (mkTreeNode 2 (Some 97) None None)))
                           [] Mapping_init))))
       = OK [97; 98; 97].
Proof.
  apply (decode_bits_encode_text
           (mkTreeNode 3 None (Some (mkTreeNode 1 (Some 98) None None))
                              (Some (mkTreeNode 2 (Some 97) None None)))
           [97; 98; 97]).
  - repeat constructor; cbn; intuition discriminate.
  - cbn. lia.
  - cbn. intuition.
Defined.

(** X21.  [decode_bits] never matches an entry of the table whose key is
    the empty string: a bit is added to the candidate code before the table
    is looked up, so the result is the same without such entries. *)
Theorem decode_bits_empty_key_unused (encoded_text : bits)
    (reverse_dict : dict str json) :
  decode_bits encoded_text (JObject (filter nonempty_key reverse_dict))
  = decode_bits encoded_text (JObject reverse_dict).
Proof. unfold decode_bits. now rewrite decode_loop_nonempty_key. Qed.

(** X22.  When the table [json.loads] returned is no dictionary,
    [decode_bits] decodes no symbol: it returns the empty text, or raises
    [TypeError]. *)
Theorem decode_bits_not_a_dict (encoded_text : bits) (reverse_dict : json) :
  (forall d, reverse_dict <> JObject d) ->
  decode_bits encoded_text reverse_dict = OK []
  \/ decode_bits encoded_text reverse_dict = Raise TypeError.
Proof.
  intros Hno. unfold decode_bits.
  destruct (decode_loop_not_object reverse_dict encoded_text Hno [])
    as [[code' ->]| ->]; [now left | now right].
Qed.

Lemma decode_bits_not_a_dict_witness :
  decode_bits [true; false] (JArray [JString [49; 49]]) = OK []
  \/ decode_bits [true; false] (JArray [JString [49; 49]]) = Raise TypeError.
Proof.
  apply (decode_bits_not_a_dict [true; false] (JArray [JString [49; 49]])).
  discriminate.
Defined.

(** X23.  [decode_bits] can be resumed at the end of a code: when the loop
    ends on the bits [a] with an empty candidate code, the text decoded
    from [a ++ b] is the text decoded from [a] followed by the text
    decoded from [b]. *)
Theorem decode_bits_app (a b : bits) (reverse_dict : json) (out : str) :
  decode_loop a reverse_dict [] [] = OK (out, []) ->
  decode_bits (a ++ b) reverse_dict
  = (rest <- decode_bits b reverse_dict ;; OK (out ++ rest)).
Proof.
  intros Ha. unfold decode_bits. rewrite decode_loop_app, Ha. cbn [bind OK].
  rewrite <- (app_nil_r out) at 1. rewrite decode_loop_out.
  destruct (decode_loop b reverse_dict [] []) as [e|[text' code']];
    reflexivity.
Qed.

Lemma decode_bits_app_witness :
  decode_bits ([false] ++ [true; false])
    (JObject [([48], JString [97]); ([49; 48], JString [98])])
  = (rest <- decode_bits [true; false]
               (JObject [([48], JString [97]); ([49; 48], JString [98])]) ;;
     OK ([97] ++ rest)).
Proof.
  apply (decode_bits_app [false] [true; false]
           (JObject [([48], JString [97]); ([49; 48], JString [98])]) [97]).
  reflexivity.
Defined.



(** X25.  [decompress] rejects every file of three bytes or fewer with
    [ValueError]: after the pad count and the table length no bit is left
    for the table, and [decode_mapping] calls [int('', 2)]. *)
Theorem decompress_short_file (file : bytes) :
  (length file <= 3)%nat -> decompress file = Raise ValueError.
Proof.
  intros Hl. unfold decompress.
  destruct (remove_padding_bits (BitArray_bin file)) as [e|b] eqn:E;
    cbn [bind].
  - apply remove_padding_bits_Raise in E. now subst e.
  - apply length_remove_padding_bits in E.
    rewrite length_BitArray_bin in E. apply decode_short. lia.
Qed.

Lemma decompress_short_file_witness :
  decompress [1; 0; 16] = Raise ValueError.
Proof. apply (decompress_short_file [1; 0; 16]). cbn. lia. Defined.

(** X26.  The path [compress] writes to is the path it reads without its
    extension, followed by [.bin]: it is the path it reads exactly when the
    extension of that path is [.bin]. *)
Theorem compress_output_file_same (path : str) :
  compress_output_file path = path
  <-> snd (splitext path) = lit ["."; "b"; "i"; "n"]%char.
Proof.
  unfold compress_output_file.
  destruct (splitext_spec path) as [Hj _].
  destruct (splitext path) as [file_path file_extension]. cbn [fst snd] in *.
  rewrite <- Hj. split.
  - intros H. now apply app_inv_head in H.
  - now intros ->.
Qed.

(** X27.  The path [decompress] writes to, which ends with
    [_decompressed.txt], is never the path it reads. *)
Theorem decompress_output_file_other (compressed_path : str) :
  decompress_output_file compressed_path <> compressed_path.
Proof.
  unfold decompress_output_file.
  destruct (splitext_spec compressed_path) as [Hj He].
  destruct (splitext compressed_path) as [file_path file_extension].
  cbn [fst snd] in *. rewrite <- Hj. intros H.
  apply app_inv_head in H. subst file_extension.
  destruct He as [He|(r & He & _)]; discriminate.
Qed.
